(** * BSplinebasis: splines on a grid, their algebra and the B-spline generator

    A shallow embedding of the spline classes of the repository:
    - [myspline] (myspline.h): a piecewise polynomial given by its break points
      and one coefficient array per interval;
    - [grid] and [support] (spline-internal.h): the index model of the newer
      classes;
    - [helperAnalyticIntegration] (integration/analytical.h);
    - [generateBSplines] (BSplineGenerator.h).

    The scalar type [T] of the templates is kept abstract; the laws a
    statement relies on are spelled out as classes and instantiated at [Z]. *)

From Stdlib Require Import List ZArith Lia Bool Arith Sorted Ring.
Import ListNotations.

Set Implicit Arguments.

(** ** The scalar type of the templates *)

(** [template<typename T>]: comparisons, arithmetic, and a conversion from
    the built-in integers ([static_cast<T>(n)]). *)
Class Scalar (T : Type) : Type := {
  cast : Z -> T;
  s_add : T -> T -> T;
  s_sub : T -> T -> T;
  s_mul : T -> T -> T;
  s_div : T -> T -> T;
  s_neg : T -> T;
  s_lt : T -> T -> bool;
  s_le : T -> T -> bool;
  s_eq : T -> T -> bool
}.

Declare Scope scalar_scope.
Delimit Scope scalar_scope with s.
Infix "+" := s_add : scalar_scope.
Infix "-" := s_sub : scalar_scope.
Infix "*" := s_mul : scalar_scope.
Infix "/" := s_div : scalar_scope.
Notation "- x" := (s_neg x) : scalar_scope.
Infix "<?" := s_lt : scalar_scope.
Infix "<=?" := s_le : scalar_scope.
Infix "==?" := s_eq (at level 70) : scalar_scope.

(** [x > y], [x >= y] and [x != y] are the three remaining operators, read
    through [<], [<=] and [==]. *)
Definition s_gt {T} `{Scalar T} (x y : T) : bool := (y <? x)%s.
Definition s_ge {T} `{Scalar T} (x y : T) : bool := (y <=? x)%s.
Definition s_ne {T} `{Scalar T} (x y : T) : bool := negb (x ==? y)%s.
Infix ">?" := s_gt : scalar_scope.
Infix ">=?" := s_ge : scalar_scope.
Infix "!=?" := s_ne (at level 70) : scalar_scope.

(** The comparisons form a decidable strict total order. *)
Class ScalarOrder (T : Type) `{Scalar T} : Prop := {
  s_eq_spec : forall x y : T, (x ==? y)%s = true <-> x = y;
  s_lt_irrefl : forall x : T, (x <? x)%s = false;
  s_lt_trans : forall x y z : T,
      (x <? y)%s = true -> (y <? z)%s = true -> (x <? z)%s = true;
  s_lt_total : forall x y : T,
      (x <? y)%s = false -> (y <? x)%s = false -> x = y;
  s_le_lt : forall x y : T, (x <=? y)%s = negb (y <? x)%s
}.
Arguments ScalarOrder T {_}.

(** The few ring identities the algebra of splines relies on. *)
Class ScalarRing (T : Type) `{Scalar T} : Prop := {
  s_add_0_l : forall x : T, (cast 0 + x)%s = x;
  s_add_comm : forall x y : T, (x + y)%s = (y + x)%s;
  s_mul_0_l : forall x : T, (cast 0 * x)%s = cast 0;
  s_mul_0_r : forall x : T, (x * cast 0)%s = cast 0;
  s_mul_m1_add : forall x : T, (x * cast (-1) + x)%s = cast 0
}.
Arguments ScalarRing T {_}.

(** [T = int]: division truncates. *)
#[export] Instance Z_Scalar : Scalar Z := {|
  cast := fun n => n;
  s_add := Z.add;
  s_sub := Z.sub;
  s_mul := Z.mul;
  s_div := Z.quot;
  s_neg := Z.opp;
  s_lt := Z.ltb;
  s_le := Z.leb;
  s_eq := Z.eqb
|}.

(** ** Errors *)

(** Modelled from the spec: the error codes of BSplineException.h, which is
    not among the sources; the three codes below are the ones the sources
    throw. *)
Inductive ErrorCode : Type :=
| DIFFERING_GRIDS
| INCONSISTENT_DATA
| UNDETERMINED.

(** What a call can end in besides a value: a thrown [BSplineException], the
    standard library's [std::out_of_range] ([vector::at]) and
    [std::bad_optional_access] ([optional::value]), or a failed [assert]. *)
Inductive failure : Type :=
| BSplineException (code : ErrorCode)
| out_of_range
| bad_optional_access
| assertion_failed.

Inductive result (A : Type) : Type :=
| Ok (a : A)
| Fail (f : failure).
Arguments Ok {A} a.
Arguments Fail {A} f.

Definition bind {A B} (r : result A) (k : A -> result B) : result B :=
  match r with
  | Ok a => k a
  | Fail f => Fail f
  end.

Notation "x <- c1 ;; c2" := (bind c1 (fun x => c2))
  (at level 61, c1 at next level, right associativity).
Notation "c1 ;; c2" := (bind c1 (fun _ => c2))
  (at level 61, right associativity).

Definition assert (b : bool) : result unit :=
  if b then Ok tt else Fail assertion_failed.

Definition throw {A} (code : ErrorCode) : result A :=
  Fail (BSplineException code).

(** [vector::at]. *)
Definition at_ {A} (l : list A) (i : nat) : result A :=
  match nth_error l i with
  | Some a => Ok a
  | None => Fail out_of_range
  end.

(** ** size_t *)

(** [size_t] is an unsigned 64-bit integer.  Indices and sizes of vectors stay
    far below the modulus and are written as [nat]; a product of [size_t]
    values wraps around. *)
Definition SIZE_MAX_plus_1 : Z := 2 ^ 64.
Definition size_t_mul (a b : Z) : Z := ((a * b) mod SIZE_MAX_plus_1)%Z.

(** ** Arrays and vectors *)

Section Arrays.
Context {T : Type} `{Scalar T}.

(** Unchecked [operator[]]; every use below is in range under the class
    invariant of the container it reads. *)
Definition get (l : list T) (i : nat) : T := nth i l (cast 0).

Fixpoint set (l : list T) (i : nat) (v : T) : list T :=
  match l, i with
  | [], _ => []
  | _ :: l', O => v :: l'
  | x :: l', S i' => x :: set l' i' v
  end.

(** [make_array<T, size>(val)]. *)
Definition make_array (size : nat) (val : T) : list T := repeat val size.

(** [add<T, sizea, sizeb>(a, b)]: starts from zero and adds the entries
    each array has. *)
Definition add (sizea sizeb : nat) (a b : list T) : list T :=
  map (fun i =>
         let r := cast 0 in
         let r := if i <? sizea then (r + get a i)%s else r in
         if i <? sizeb then (r + get b i)%s else r)
      (seq 0 (Nat.max sizea sizeb)).

(** [changearraysize<T, sizein, sizeout>(in)]. *)
Definition changearraysize (sizein sizeout : nat) (a : list T) : list T :=
  if sizeout =? sizein then a
  else map (fun i => if i <? sizein then get a i else cast 0) (seq 0 sizeout).

(** [std::sort], by insertion. *)
Fixpoint insert (x : T) (l : list T) : list T :=
  match l with
  | [] => [x]
  | y :: l' => if (y <? x)%s then y :: insert x l' else x :: l
  end.

Fixpoint sort (l : list T) : list T :=
  match l with
  | [] => []
  | x :: l' => insert x (sort l')
  end.

(** [std::unique]: of each run of equal neighbours the first is kept. *)
Fixpoint unique_from (prev : T) (l : list T) : list T :=
  match l with
  | [] => []
  | y :: l' => if (prev ==? y)%s then unique_from prev l'
               else y :: unique_from y l'
  end.

Definition unique (l : list T) : list T :=
  match l with
  | [] => []
  | x :: l' => x :: unique_from x l'
  end.

(** [makeuniquesorted]. *)
Definition makeuniquesorted (l : list T) : list T := unique (sort l).

(** [std::distance(begin, std::find(begin, end, x))]: the index of the first
    element equal to [x], the size when there is none. *)
Fixpoint find_index (l : list T) (x : T) : nat :=
  match l with
  | [] => 0
  | y :: l' => if (y ==? x)%s then 0 else S (find_index l' x)
  end.

Definition front (l : list T) : T := hd (cast 0) l.
Definition back (l : list T) : T := last l (cast 0).

(** The two relations sorting is stated with: strictly below, and not
    above. *)
Definition below (x y : T) : Prop := (x <? y)%s = true.
Definition not_above (x y : T) : Prop := (y <? x)%s = false.
End Arrays.

(** ** myspline (myspline.h) *)

Section MySpline.
Context {T : Type} `{Scalar T}.

(** [myspline<T, order>]: the template parameter [order] is carried as a
    field; every coefficient array is a [std::array<T, order + 1>]. *)
Record myspline : Type := {
  order : nat;
  _intervals : list T;
  _coefficients : list (list T)
}.

Definition ARRAY_SIZE (s : myspline) : nat := order s + 1.

(** Arrays have their static size. *)
Definition arrays_sized (n : nat) (cs : list (list T)) : Prop :=
  Forall (fun c => length c = n) cs.

Definition coeffs_at (cs : list (list T)) (i : nat) : list T := nth i cs [].

(** [steadilyIncreasingIntervals]. *)
Fixpoint steadilyIncreasingIntervals (ints : list T) : bool :=
  match ints with
  | [] => true
  | x :: l =>
      match l with
      | [] => true
      | y :: _ => if (x >=? y)%s then false else steadilyIncreasingIntervals l
      end
  end.

(** The first [assert] of the constructor and of [setData]. *)
Definition sizes_agree (ints : list T) (cs : list (list T)) : bool :=
  ((length ints =? 0) && (length cs =? 0))
  || ((2 <=? length ints) && (length cs + 1 =? length ints)).

(** [myspline(intervals, coefficients)]; [setData] runs the same checks. *)
Definition construct (o : nat) (ints : list T) (cs : list (list T))
  : result myspline :=
  assert (sizes_agree ints cs);;
  assert (steadilyIncreasingIntervals ints);;
  Ok {| order := o; _intervals := ints; _coefficients := cs |}.

Definition setData (this : myspline) (ints : list T) (cs : list (list T))
  : result myspline :=
  construct (order this) ints cs.

(** [myspline()]. *)
Definition default (o : nat) : myspline :=
  {| order := o; _intervals := []; _coefficients := [] |}.

(** The data invariant the two [assert]s stand for: the break points
    increase strictly, and either there are neither break points nor
    coefficients, or there are at least two break points, one more than
    coefficient arrays. *)
Definition strictly_increasing (l : list T) : Prop :=
  forall i, i + 1 < length l -> (get l i <? get l (i + 1))%s = true.

Definition invariant (this : myspline) : Prop :=
  strictly_increasing (_intervals this)
  /\ ((_intervals this = [] /\ _coefficients this = [])
      \/ (2 <= length (_intervals this)
          /\ length (_coefficients this) + 1 = length (_intervals this))).

(** [findInterval]: the loop.  Its [int]s are written on [Z]; nothing leaves
    the range of [int] while the vector has fewer than [2^30] points.  The
    loop halves [endi - starti], so [fuel] steps are enough once [fuel] is the
    number of points. *)
Fixpoint findInterval_loop (fuel : nat) (ints : list T) (x : T)
         (starti endi : Z) : Z :=
  match fuel with
  | O => starti
  | S fuel' =>
      if (endi - starti >? 1)%Z then
        let middlei := Z.quot (endi + starti) 2 in
        if (x >? get ints (Z.to_nat middlei))%s
        then findInterval_loop fuel' ints x middlei endi
        else findInterval_loop fuel' ints x starti middlei
      else starti
  end.

Definition findInterval (this : myspline) (x : T) : Z :=
  let ints := _intervals this in
  if (length ints <? 2) || (x >? back ints)%s || (x <? front ints)%s
  then (-1)%Z
  else findInterval_loop (length ints) ints x 0%Z
                         (Z.of_nat (length ints) - 1)%Z.

(** The polynomial of one interval, by powers of [dx]. *)
Definition polynomial (coeffs : list T) (dx : T) : T :=
  snd (fold_left (fun '(xpot, res) c => ((xpot * dx)%s, (res + xpot * c)%s))
                 coeffs (cast 1, cast 0)).

(** [operator()]. *)
Definition eval (this : myspline) (x : T) : T :=
  let index := findInterval this x in
  if (index <? 0)%Z then cast 0
  else
    let i := Z.to_nat index in
    let coeffs := coeffs_at (_coefficients this) i in
    let dx := (x - (get (_intervals this) (i + 1) + get (_intervals this) i)
                   / cast 2)%s in
    polynomial coeffs dx.

(** [checkOverlap]. *)
Definition checkOverlap (this m2 : myspline) : bool :=
  match _intervals this, _intervals m2 with
  | [], _ => false
  | _, [] => false
  | _, _ =>
      let isNotOverlapping :=
        (back (_intervals m2) <=? front (_intervals this))%s
        || (front (_intervals m2) >=? back (_intervals this))%s in
      negb isNotOverlapping
  end.

(** [isZero]. *)
Definition isZero (this : myspline) : bool :=
  if length (_intervals this) =? 0 then true
  else forallb (forallb (fun c => negb (c !=? cast 0)%s)) (_coefficients this).

(** [operator*(const T&)] and [operator*=(const T&)]: every coefficient is
    multiplied from the right. *)
Definition times_scalar (this : myspline) (d : T) : myspline :=
  {| order := order this;
     _intervals := _intervals this;
     _coefficients := map (map (fun c => (c * d)%s)) (_coefficients this) |}.

Definition times_assign_scalar (this : myspline) (d : T) : myspline :=
  {| order := order this;
     _intervals := _intervals this;
     _coefficients := map (map (fun c => (c * d)%s)) (_coefficients this) |}.

(** [operator/(const T&)] and [operator/=(const T&)]. *)
Definition div_scalar (this : myspline) (d : T) : myspline :=
  times_scalar this (cast 1 / d)%s.

Definition div_assign_scalar (this : myspline) (d : T) : myspline :=
  times_assign_scalar this (cast 1 / d)%s.

(** The free [operator*(const T&, const myspline&)]. *)
Definition scalar_times (d : T) (b : myspline) : myspline := times_scalar b d.

(** [internal::findOverlappingIntervals]: [(startindex1, startindex2,
    nintervals)]. *)
Definition findOverlappingIntervals (m1 m2 : myspline)
  : result (nat * nat * nat) :=
  if negb (checkOverlap m1 m2) then Ok (0, 0, 0)
  else
    starts <-
      (if (front (_intervals m2) <=? front (_intervals m1))%s then
         let startindex2 := find_index (_intervals m2) (front (_intervals m1)) in
         assert (startindex2 + 2 <=? length (_intervals m2));;
         Ok (0, startindex2)
       else
         let startindex1 := find_index (_intervals m1) (front (_intervals m2)) in
         assert (startindex1 + 2 <=? length (_intervals m1));;
         Ok (startindex1, 0));;
    let '(startindex1, startindex2) := starts in
    Ok (startindex1, startindex2,
        Nat.min (length (_intervals m2) - startindex2 - 1)
                (length (_intervals m1) - startindex1 - 1)).

(** The two inner loops of the product: [coeffsi[j+k] += thiscoeffs[j] *
    acoeffs[k]]. *)
Definition convolve (o oa : nat) (thiscoeffs acoeffs : list T) : list T :=
  fold_left
    (fun coeffsi j =>
       fold_left
         (fun coeffsi k =>
            set coeffsi (j + k)
                (get coeffsi (j + k) + get thiscoeffs j * get acoeffs k)%s)
         (seq 0 (oa + 1)) coeffsi)
    (seq 0 (o + 1))
    (make_array (o + oa + 1) (cast 0)).

(** The discrete convolution, entry [m]: the sum of [a[j] * b[k]] over
    [j + k = m], taken in the order of [j]. *)
Definition convolution_entry (o oa : nat) (a b : list T) (m : nat) : T :=
  fold_left
    (fun acc j =>
       if (j <=? m) && (m - j <=? oa)
       then (acc + get a j * get b (m - j))%s else acc)
    (seq 0 (o + 1)) (cast 0).

(** The break points of a spline are a run of consecutive points of the
    grid [g]. *)
Definition on_grid (g : list T) (this : myspline) : Prop :=
  exists before after : list T, g = before ++ _intervals this ++ after.

(** [operator*(const myspline<T, ordera>&)]. *)
Definition times (this a : myspline) : result myspline :=
  let NEW_ORDER := order this + order a in
  found <- findOverlappingIntervals this a;;
  let '(startindex1, startindex2, nintervals) := found in
  if nintervals =? 0 then Ok (default NEW_ORDER)
  else
    let new_intervals :=
      get (_intervals this) startindex1
      :: map (fun i => get (_intervals this) (startindex1 + i + 1))
             (seq 0 nintervals) in
    let new_coefficients :=
      map (fun i => convolve (order this) (order a)
                             (coeffs_at (_coefficients this) (i + startindex1))
                             (coeffs_at (_coefficients a) (i + startindex2)))
          (seq 0 nintervals) in
    construct NEW_ORDER new_intervals new_coefficients.

(** The break points of a sum. *)
Definition merged_intervals (this a : myspline) : list T :=
  makeuniquesorted (_intervals a ++ _intervals this).

(** The loop of [operator+] over the merged break points. *)
Definition plus_coefficients (this a : myspline) (nintervals : list T)
  : list (list T) :=
  let NEW_ARRAY_SIZE := Nat.max (order this) (order a) + 1 in
  map (fun i =>
         let posthis := find_index (_intervals this) (get nintervals i) in
         let posa := find_index (_intervals a) (get nintervals i) in
         let thisexists := posthis <? length (_coefficients this) in
         let aexists := posa <? length (_coefficients a) in
         if thisexists && negb aexists then
           if NEW_ARRAY_SIZE =? order this + 1
           then coeffs_at (_coefficients this) posthis
           else changearraysize (order this + 1) NEW_ARRAY_SIZE
                                (coeffs_at (_coefficients this) posthis)
         else if aexists && negb thisexists then
           if NEW_ARRAY_SIZE =? order a + 1
           then coeffs_at (_coefficients a) posa
           else changearraysize (order a + 1) NEW_ARRAY_SIZE
                                (coeffs_at (_coefficients a) posa)
         else if thisexists && aexists then
           add (order a + 1) (order this + 1)
               (coeffs_at (_coefficients a) posa)
               (coeffs_at (_coefficients this) posthis)
         else make_array NEW_ARRAY_SIZE (cast 0))
      (seq 0 (length nintervals - 1)).

(** [operator+]. *)
Definition plus (this a : myspline) : result myspline :=
  let nintervals := merged_intervals this a in
  construct (Nat.max (order this) (order a)) nintervals
            (plus_coefficients this a nintervals).

(** The loop of [operator+=]; [ordera <= order] is a [static_assert]. *)
Definition plus_assign_coefficients (this a : myspline) (nintervals : list T)
  : list (list T) :=
  map (fun i =>
         let posthis := find_index (_intervals this) (get nintervals i) in
         let posa := find_index (_intervals a) (get nintervals i) in
         let thisexists := posthis <? length (_coefficients this) in
         let aexists := posa <? length (_coefficients a) in
         if thisexists && negb aexists then
           coeffs_at (_coefficients this) posthis
         else if aexists && negb thisexists then
           changearraysize (order a + 1) (ARRAY_SIZE this)
                           (coeffs_at (_coefficients a) posa)
         else if thisexists && aexists then
           add (order a + 1) (ARRAY_SIZE this)
               (coeffs_at (_coefficients a) posa)
               (coeffs_at (_coefficients this) posthis)
         else make_array (ARRAY_SIZE this) (cast 0))
      (seq 0 (length nintervals - 1)).

(** [operator+=]. *)
Definition plus_assign (this a : myspline) : result myspline :=
  let nintervals := merged_intervals this a in
  setData this nintervals (plus_assign_coefficients this a nintervals).

(** [operator-] and [operator-=]. *)
Definition minus (this a : myspline) : result myspline :=
  plus this (scalar_times (cast (-1)) a).

Definition minus_assign (this a : myspline) : result myspline :=
  plus_assign this (scalar_times (cast (-1)) a).

(** [restrictSupport]: one step of the loop, and the loop. *)
Definition restrictSupport_step (this : myspline) (x0 x1 : T)
           (acc : list T * list (list T)) (i : nat)
  : list T * list (list T) :=
  let ints := _intervals this in
  let '(nintervals, ncoeffs) := acc in
  if (get ints i >=? x0)%s && (get ints (i + 1) <=? x1)%s then
    let nintervals := nintervals ++ [get ints i] in
    let nintervals :=
      if (length ints <=? i + 2) || (get ints (i + 2) >? x1)%s
      then nintervals ++ [get ints (i + 1)] else nintervals in
    (nintervals, ncoeffs ++ [coeffs_at (_coefficients this) i])
  else acc.

Definition restrictSupport (this : myspline) (x0 x1 : T) : result myspline :=
  let '(nintervals, ncoeffs) :=
    fold_left (restrictSupport_step this x0 x1)
              (seq 0 (length (_intervals this) - 1)) ([], []) in
  construct (order this) nintervals ncoeffs.

(** [timesx]. *)
Definition timesx_array (o : nat) (xm : T) (coeffs_old : list T) : list T :=
  map (fun j =>
         let newcoeff := cast 0 in
         let newcoeff :=
           if 0 <? j then (newcoeff + get coeffs_old (j - 1))%s
           else newcoeff in
         if j <? o + 1 then (newcoeff + xm * get coeffs_old j)%s
         else newcoeff)
      (seq 0 (o + 1 + 1)).

Definition timesx (this : myspline) : result myspline :=
  let ints := _intervals this in
  let newcoeffs :=
    map (fun i =>
           if i + 1 <? length ints then
             let xm := ((get ints (i + 1) + get ints i) / cast 2)%s in
             timesx_array (order this) xm (coeffs_at (_coefficients this) i)
           else make_array (ARRAY_SIZE this + 1) (cast 0))
        (seq 0 (length (_coefficients this))) in
  construct (order this + 1) ints newcoeffs.

(** [invert]. *)
Definition invert (this : myspline) : result myspline :=
  if isZero this then Ok this
  else
    assert (1 <=? length (_intervals this));;
    let nintervals := map (fun x => (- x)%s) (rev (_intervals this)) in
    let ncoeffs :=
      map (fun oldcoeffs =>
             map (fun j =>
                    let sign := if j mod 2 =? 0 then cast 1 else cast (-1) in
                    (sign * get oldcoeffs j)%s)
                 (seq 0 (ARRAY_SIZE this)))
          (rev (_coefficients this)) in
    construct (order this) nintervals ncoeffs.

(** [orderdx]. *)
Definition orderdx (orderin n : nat) : nat :=
  if orderin <? n then 0 else orderin - n.

(** [size_t faculty = 1; for (j = 0; j < n; j++) faculty *= i - j;] *)
Definition faculty (i n : nat) : Z :=
  fold_left (fun f j => size_t_mul f (Z.of_nat (i - j))) (seq 0 n) 1%Z.

Definition dx_array (o n : nat) (c : list T) : list T :=
  let nc := make_array (orderdx o n + 1) (cast 0) in
  if n <? o + 1 then
    fold_left (fun nc i => set nc (i - n) (cast (faculty i n) * get c i)%s)
              (seq n (o + 1 - n)) nc
  else nc.

(** [dx<n>]. *)
Definition dx (n : nat) (this : myspline) : result myspline :=
  if order this <? n then Ok (default 0)
  else construct (orderdx (order this) n) (_intervals this)
                 (map (dx_array (order this) n) (_coefficients this)).
End MySpline.

Arguments myspline T : clear implicits.

(** [convert<TO, TI, order>]; [conv] is [static_cast<TO>]. *)
Definition convert {TI TO : Type} `{Scalar TI} `{Scalar TO} (conv : TI -> TO)
         (si : myspline TI) : result (myspline TO) :=
let intervO := map conv (_intervals si) in
let coeffsO :=
  map (fun clI => map (fun j => conv (get clI j))
                      (seq 0 (order si + 1)))
      (_coefficients si) in
construct (order si) intervO coeffsO.

(** ** grid and support (spline-internal.h, the version with a grid class) *)

Module GridClass.
Section Support.
Context {T : Type} `{Scalar T}.

(** [grid<T>]: [_size] and the shared pointer [_data]; the pointer is an
    address ([_data]) together with the array it points to
    ([_data_elements]). *)
Record grid : Type := {
  _size : nat;
  _data : nat;
  _data_elements : list T
}.

(** [grid::operator==]. *)
Definition grid_eq (this g : grid) : bool :=
  if (_data this =? _data g) && (_size this =? _size g) then true
  else if negb (_size this =? _size g) then false
  else forallb (fun i => negb (get (_data_elements this) i
                               !=? get (_data_elements g) i)%s)
               (seq 0 (_size this)).

(** [support<T>]. *)
Record support : Type := {
  _grid : grid;
  _startIndex : nat;
  _endIndex : nat
}.

(** [support(grid, startIndex, endIndex)]. *)
Definition support_construct (g : grid) (startIndex endIndex : nat)
  : result support :=
  assert ((startIndex <=? endIndex) && (endIndex <=? _size g));;
  Ok {| _grid := g; _startIndex := startIndex; _endIndex := endIndex |}.

(** [support(grid)], the empty support on [grid]. *)
Definition support_empty (g : grid) : support :=
  {| _grid := g; _startIndex := 0; _endIndex := 0 |}.

Definition size (this : support) : nat := _endIndex this - _startIndex this.

Definition empty (this : support) : bool :=
  _startIndex this =? _endIndex this.

Definition relativeFromAbsolute (this : support) (index : nat) : option nat :=
  if (_startIndex this <=? index) && (index <? _endIndex this)
  then Some (index - _startIndex this)
  else None.

Definition absoluteFromRelative (this : support) (index : nat) : result nat :=
  assert (index <? size this);;
  Ok (index + _startIndex this).

Definition numberOfIntervals (this : support) : nat :=
  let si := size this in
  if si =? 0 then 0 else si - 1.

(** [support::operator[]]. *)
Definition support_get (this : support) (index : nat) : T :=
  get (_data_elements (_grid this)) (_startIndex this + index).

Definition hasSameGrid (this s : support) : bool :=
  grid_eq (_grid this) (_grid s).

(** [support::operator==]. *)
Definition support_eq (this s : support) : bool :=
  hasSameGrid this s
  && (((_startIndex this =? _startIndex s) && (_endIndex this =? _endIndex s))
      || (empty this && empty s)).

Definition calcUnion (this s : support) : result support :=
  assert (hasSameGrid this s);;
  let thisEmpty := empty this in
  let sEmpty := empty s in
  if thisEmpty && sEmpty then Ok (support_empty (_grid this))
  else if thisEmpty && negb sEmpty then Ok s
  else if negb thisEmpty && sEmpty then Ok this
  else
    support_construct (_grid this)
                      (Nat.min (_startIndex this) (_startIndex s))
                      (Nat.max (_endIndex this) (_endIndex s)).

Definition calcIntersection (this s : support) : result support :=
  assert (hasSameGrid this s);;
  let newStartIndex := Nat.max (_startIndex this) (_startIndex s) in
  let newEndIndex := Nat.min (_endIndex this) (_endIndex s) in
  if newEndIndex <=? newStartIndex then Ok (support_empty (_grid this))
  else support_construct (_grid this) newStartIndex newEndIndex.

(** The grids of the spec (section 3): equal when they have the same length
    and equal values at every index. *)
Definition logically_equal (g1 g2 : grid) : Prop :=
  _size g1 = _size g2 /\
  forall i, i < _size g1 ->
            get (_data_elements g1) i = get (_data_elements g2) i.

(** Two handles with the same address share their array. *)
Definition same_storage_same_elements (g1 g2 : grid) : Prop :=
  _data g1 = _data g2 -> _data_elements g1 = _data_elements g2.

(** ** Spline and the analytical integrals (integration/analytical.h) *)

(** Modelled from the spec: Spline.h is not among the sources; section 3
    gives a spline as a support plus one coefficient vector per interval,
    each of length [order + 1].  Its support is the [support] above, which
    has every member the integration calls. *)
Record Spline : Type := {
  spline_order : nat;
  getSupport : support;
  getCoefficients : list (list T)
}.

(** [optional::value]. *)
Definition value {A} (o : option A) : result A :=
  match o with
  | Some a => Ok a
  | None => Fail bad_optional_access
  end.

(** [integrateIntervalAnalytically]. *)
Definition integrateIntervalAnalytically
           (f : nat -> nat -> T -> T -> T -> T -> T)
           (sizea sizeb : nat) (coeffsa coeffsb : list T) (x0 x1 : T) : T :=
  let dxhalf := ((x1 - x0) / cast 2)%s in
  let xm := ((x1 + x0) / cast 2)%s in
  fold_left
    (fun res i =>
       fold_left
         (fun res j =>
            (res + f i j (get coeffsa i) (get coeffsb j) dxhalf xm)%s)
         (seq 0 sizeb) res)
    (seq 0 sizea) (cast 0).

(** [helperAnalyticIntegration]. *)
Definition helperAnalyticIntegration
           (f : nat -> nat -> T -> T -> T -> T -> T) (m1 m2 : Spline)
  : result T :=
  if negb (hasSameGrid (getSupport m1) (getSupport m2))
  then throw DIFFERING_GRIDS
  else
    integrandSupport <- calcIntersection (getSupport m1) (getSupport m2);;
    let nintervals := numberOfIntervals integrandSupport in
    if nintervals =? 0 then Ok (cast 0)
    else
      fold_left
        (fun res interv =>
           res <- res;;
           absIndex <- absoluteFromRelative integrandSupport interv;;
           m1Index <- value (relativeFromAbsolute (getSupport m1) absIndex);;
           m2Index <- value (relativeFromAbsolute (getSupport m2) absIndex);;
           Ok (res + integrateIntervalAnalytically
                       f (spline_order m1 + 1) (spline_order m2 + 1)
                       (coeffs_at (getCoefficients m1) m1Index)
                       (coeffs_at (getCoefficients m2) m2Index)
                       (support_get (getSupport m1) m1Index)
                       (support_get (getSupport m1) (m1Index + 1)))%s)
        (seq 0 nintervals) (Ok (cast 0)).
End Support.
Arguments grid T : clear implicits.
Arguments support T : clear implicits.
Arguments Spline T : clear implicits.
End GridClass.

(** ** support (spline-internal.h, the version with a shared vector) *)

Module GridPointer.
Section Support.
Context {T : Type} `{Scalar T}.

(** [grid<T> = std::shared_ptr<const std::vector<T>>]: the address and the
    vector behind it. *)
Record grid : Type := {
  address : nat;
  pointee : list T
}.

Record support : Type := {
  _grid : grid;
  _startIndex : nat;
  _endIndex : nat
}.

Definition empty (this : support) : bool :=
  _startIndex this =? _endIndex this.

Definition hasSameGrid (this s : support) : bool :=
  if address (_grid this) =? address (_grid s) then true
  else if negb (length (pointee (_grid this)) =? length (pointee (_grid s)))
       then false
  else forallb (fun i => negb (get (pointee (_grid this)) i
                               !=? get (pointee (_grid s)) i)%s)
               (seq 0 (length (pointee (_grid this)))).

(** [support::operator==]. *)
Definition support_eq (this s : support) : bool :=
  hasSameGrid this s
  && (((_startIndex this =? _startIndex s) && (_endIndex this =? _endIndex s))
      || (empty this && empty s)).

(** Logical equality of grids, and sharing, as for the grid class. *)
Definition logically_equal (g1 g2 : grid) : Prop :=
  length (pointee g1) = length (pointee g2) /\
  forall i, i < length (pointee g1) ->
            get (pointee g1) i = get (pointee g2) i.

Definition same_storage_same_elements (g1 g2 : grid) : Prop :=
  address g1 = address g2 -> pointee g1 = pointee g2.
End Support.
Arguments grid T : clear implicits.
Arguments support T : clear implicits.
End GridPointer.

(** ** BSplineGenerator (BSplineGenerator.h) *)

(** [for (...) ret.push_back(f(i))], leaving at the first exception. *)
Fixpoint push_back_each {A B} (f : A -> result B) (l : list A)
: result (list B) :=
match l with
| [] => Ok []
| i :: l' => b <- f i;; bs <- push_back_each f l';; Ok (b :: bs)
end.

Section BSplineGenerator.
Context {T : Type} `{Scalar T}.

(** Grid.h, Support.h and Spline.h are not among the sources.  What the
    generator uses of them is taken as given: the grid type with
    [findElement], the splines [Spline<T, order>] with the constructors and
    operators the generator calls, each returning normally. *)
Variable Grid : Type.
Variable Spline : nat -> Type.
Variable findElement : Grid -> T -> nat.
(** [Spline<T, 0>(Support(grid, i, i + 2), coefficients)] *)
Variable Spline_on : Grid -> nat -> nat -> list (list T) -> Spline 0.
(** [Spline<T, order>(grid)] *)
Variable Spline_zero : forall o : nat, Grid -> Spline o.
Variable Spline_scale : forall o : nat, T -> Spline o -> Spline o.
Variable Spline_timesx : forall o : nat, Spline o -> Spline (S o).
Variable Spline_minus :
  forall o oa : nat, Spline o -> Spline oa -> Spline (Nat.max o oa).
Variable Spline_plus_assign :
  forall o oa : nat, Spline o -> Spline oa -> Spline o.

Record BSplineGenerator : Type := {
  _grid : Grid;
  _knots : list T
}.

(** [generateBSpline<k>(i)] with [k = km1 + 1] ([k >= 1] is a
    [static_assert]). *)
Fixpoint generateBSpline (km1 : nat) (this : BSplineGenerator) (i : nat)
  : result (Spline km1) :=
  match km1 with
  | O =>
      xi <- at_ (_knots this) i;;
      xip1 <- at_ (_knots this) (i + 1);;
      if (xi >=? xip1)%s then throw UNDETERMINED
      else
        let coefficients := [[cast 1]] in
        let gridIndex := findElement (_grid this) xi in
        Ok (Spline_on (_grid this) gridIndex (gridIndex + 2) coefficients)
  | S km2 =>
      let k := S (S km2) in
      let ret := Spline_zero (S km2) (_grid this) in
      xi <- at_ (_knots this) i;;
      xipkm1 <- at_ (_knots this) (i + k - 1);;
      ret <-
        (if (xipkm1 >? xi)%s then
           let prefac := (cast 1 / (xipkm1 - xi))%s in
           b <- generateBSpline km2 this i;;
           let spline1 := Spline_scale prefac b in
           Ok (Spline_plus_assign
                 ret (Spline_minus (Spline_timesx spline1)
                                   (Spline_scale xi spline1)))
         else Ok ret);;
      xip1 <- at_ (_knots this) (i + 1);;
      xipk <- at_ (_knots this) (i + k);;
      ret <-
        (if (xipk >? xip1)%s then
           let prefac := (cast 1 / (xipk - xip1))%s in
           b <- generateBSpline km2 this (i + 1);;
           let spline2 := Spline_scale prefac b in
           Ok (Spline_plus_assign
                 ret (Spline_minus (Spline_scale xipk spline2)
                                   (Spline_timesx spline2)))
         else Ok ret);;
      Ok ret
  end.

(** [generateBSplines<k>()] with [k = km1 + 1]. *)
Definition generateBSplines (km1 : nat) (this : BSplineGenerator)
  : result (list (Spline km1)) :=
  let k := S km1 in
  if length (_knots this) <? k then throw UNDETERMINED
  else push_back_each (generateBSpline km1 this)
                      (seq 0 (length (_knots this) - k)).
End BSplineGenerator.
Arguments BSplineGenerator T Grid : clear implicits.

(** ** Concrete splines, grids and generators over the integers *)

(** Two splines of order one with the same extent [0, 4] and different
    interior break points. *)
Definition spline_0_2_4 : myspline Z :=
  {| order := 1; _intervals := [0; 2; 4]%Z;
     _coefficients := [[1; 2]; [3; 4]]%Z |}.

Definition spline_0_3_4 : myspline Z :=
  {| order := 1; _intervals := [0; 3; 4]%Z;
     _coefficients := [[5; 6]; [7; 8]]%Z |}.

(** Two grids with the same extent, built independently. *)
Definition grid_0_2_4 : GridClass.grid Z :=
  {| GridClass._size := 3; GridClass._data := 1;
     GridClass._data_elements := [0; 2; 4]%Z |}.

Definition grid_0_3_4 : GridClass.grid Z :=
  {| GridClass._size := 3; GridClass._data := 2;
     GridClass._data_elements := [0; 3; 4]%Z |}.

Definition one_on (g : GridClass.grid Z) : GridClass.Spline Z :=
  {| GridClass.spline_order := 0;
     GridClass.getSupport :=
       {| GridClass._grid := g; GridClass._startIndex := 0;
          GridClass._endIndex := GridClass._size g |};
     GridClass.getCoefficients := [[1]; [1]]%Z |}.

Definition pointer_grid_0_2_4 : GridPointer.grid Z :=
  {| GridPointer.address := 1; GridPointer.pointee := [0; 2; 4]%Z |}.

Definition pointer_grid_0_3_4 : GridPointer.grid Z :=
  {| GridPointer.address := 2; GridPointer.pointee := [0; 3; 4]%Z |}.

(** Some knot is not below its successor. *)
Definition degenerate_pair {T : Type} `{Scalar T} (knots : list T) : Prop :=
  exists i, i + 1 < length knots /\ (get knots i >=? get knots (i + 1))%s = true.

(** A generator over the integers whose spline operations keep no data: what
    is left is which calls are made and which of them throw. *)
Definition no_data (o : nat) : Type := unit.

Definition generateBSplines_no_data (km1 : nat) (knots : list Z)
  : result (list (no_data km1)) :=
  generateBSplines no_data
    (fun _ _ => 0) (fun _ _ _ _ => tt) (fun _ _ => tt) (fun _ _ _ => tt)
    (fun _ _ => tt) (fun _ _ _ _ => tt) (fun _ _ _ _ => tt)
    km1 {| _grid := tt; _knots := knots |}.

(** A step function: 10 on the first interval, 20 on the second. *)
Definition steps_0_2_4 : myspline Z :=
  {| order := 0; _intervals := [0; 2; 4]%Z; _coefficients := [[10]; [20]]%Z |}.

(** The monomial [(x - 1)^21] on the interval [0, 2], as a spline of order
    21. *)
Definition monomial_21 : myspline Z :=
  {| order := 21; _intervals := [0; 2]%Z;
     _coefficients := [repeat 0%Z 21 ++ [1%Z]] |}.

(** The falling factorial [i (i - 1) ... (i - n + 1)]. *)
Definition falling_factorial (i n : nat) : Z :=
  fold_left (fun f j => (f * Z.of_nat (i - j))%Z) (seq 0 n) 1%Z.

(** A grid and a second spline on it, next to [spline_0_2_4]. *)
Definition grid_points_0_to_6 : list Z := [0; 2; 4; 6]%Z.

Definition spline_2_4_6 : myspline Z :=
  {| order := 1; _intervals := [2; 4; 6]%Z;
     _coefficients := [[1; 1]; [2; 0]]%Z |}.



(** ** Further functions of the headers *)

Section MySplineMore.
Context {T : Type} `{Scalar T}.

(** [start] and [end]: the first and the last break point, zero for the
    empty spline. *)
Definition start (this : myspline T) : T :=
  if length (_intervals this) =? 0 then cast 0 else front (_intervals this).

Definition end_ (this : myspline T) : T :=
  if length (_intervals this) =? 0 then cast 0 else back (_intervals this).
End MySplineMore.

(** The scalars form a commutative ring. *)
Class ScalarCommRing (T : Type) `{Scalar T} : Prop := {
  scalar_ring :
    ring_theory (cast 0) (cast 1) s_add s_mul s_sub s_neg (@eq T)
}.
Arguments ScalarCommRing T {_}.

(** The value of the polynomial with the coefficients [coeffs] at [dx]. *)
Fixpoint horner {T : Type} `{Scalar T} (coeffs : list T) (dx : T) : T :=
  match coeffs with
  | [] => cast 0
  | c :: l => (c + dx * horner l dx)%s
  end.

(** A support as its constructor accepts it: [startIndex <= endIndex <=
    grid.size()]. *)
Definition support_valid {T : Type} (s : GridClass.support T) : Prop :=
  GridClass._startIndex s <= GridClass._endIndex s
  /\ GridClass._endIndex s <= GridClass._size (GridClass._grid s).

(** The grid point of absolute index [j] is part of the support. *)
Definition support_contains {T : Type} (s : GridClass.support T) (j : nat)
  : Prop :=
  GridClass._startIndex s <= j < GridClass._endIndex s.

(** [a] to the power [n], by repeated multiplication. *)
Fixpoint power {T : Type} `{Scalar T} (a : T) (n : nat) : T :=
  match n with
  | O => cast 1
  | S m => (a * power a m)%s
  end.

(** [pow] (myspline.h and integration/analytical.h): the loop, which each
    step of [fuel] runs once; [nc] is the [size_t] that is doubled. *)
Fixpoint pow_loop {T : Type} `{Scalar T} (fuel : nat) (a : T) (n nc : Z)
         (ret : T) : option T :=
  match fuel with
  | O => None
  | S fuel' =>
      if (nc <=? n)%Z then
        let ret := if (Z.land nc n =? nc)%Z then (ret * a)%s else ret in
        pow_loop fuel' (a * a)%s n (size_t_mul nc 2) ret
      else Some ret
  end.

Definition pow {T : Type} `{Scalar T} (fuel : nat) (a : T) (n : Z)
  : option T :=
  pow_loop fuel a n 1%Z (cast 1).

(** The weight [f] of [overlap] (integration/analytical.h): zero when
    [i + j + 1] is even, else [2 * coeffa * coeffb * pow(dxhalf, i + j + 1)
    / (i + j + 1)], multiplied and divided from the left in [T].  The loop
    of [pow] is given the 64 steps within which it ends for every exponent
    below [2^63]; the last branch stands for the exponents from [2^63] on,
    for which the call does not return. *)
Definition overlap_weight {T : Type} `{Scalar T} (i j : nat)
           (coeffa coeffb dxhalf xm : T) : T :=
  if (i + j + 1) mod 2 =? 0 then cast 0
  else
    match pow 64 dxhalf (Z.of_nat (i + j + 1)) with
    | Some power_of_dxhalf =>
        (cast 2 * coeffa * coeffb * power_of_dxhalf
         / cast (Z.of_nat (i + j + 1)))%s
    | None => cast 0
    end.

(** [generateBspline<T, k>(knots, i)] of myspline.h, with [k = km1 + 1]
    ([k >= 1] is a [static_assert]). *)
Fixpoint generateBspline {T : Type} `{Scalar T} (km1 : nat) (knots : list T)
         (i : nat) : result (myspline T) :=
  match km1 with
  | O =>
      xi <- at_ knots i;;
      xip1 <- at_ knots (i + 1);;
      assert (xip1 >? xi)%s;;
      construct 0 [xi; xip1] [[cast 1]]
  | S km2 =>
      let k := S (S km2) in
      let ret := default (S km2) in
      xi <- at_ knots i;;
      xipkm1 <- at_ knots (i + k - 1);;
      ret <-
        (if (xipkm1 >? xi)%s then
           spline1 <- generateBspline km2 knots i;;
           let prefac := (cast 1 / (xipkm1 - xi))%s in
           let spline1 := times_assign_scalar spline1 prefac in
           product <- timesx spline1;;
           difference <- minus product (scalar_times xi spline1);;
           plus_assign ret difference
         else Ok ret);;
      xip1 <- at_ knots (i + 1);;
      xipk <- at_ knots (i + k);;
      ret <-
        (if (xipk >? xip1)%s then
           spline2 <- generateBspline km2 knots (i + 1);;
           let prefac := (cast 1 / (xipk - xip1))%s in
           let spline2 := times_assign_scalar spline2 prefac in
           product <- timesx spline2;;
           difference <- minus (scalar_times xipk spline2) product;;
           plus_assign ret difference
         else Ok ret);;
      Ok ret
  end.


(** [BSplineGenerator::generateGrid]: the grid is built from the range
    [knots.begin(), endIterator) that [std::unique] leaves; the knots are not
    sorted first.  The model gives the points of that range. *)
Definition generateGrid {T : Type} `{Scalar T} (knots : list T) : list T :=
  unique knots.

(** * Properties *)

Unset Implicit Arguments.

(** ** The laws at [Z] *)

#[export] Instance Z_ScalarOrder : ScalarOrder Z.
Proof.
constructor; simpl; intros.
- apply Z.eqb_eq.
- apply Z.ltb_irrefl.
- apply Z.ltb_lt in H, H0. apply Z.ltb_lt. lia.
- apply Z.ltb_ge in H, H0. lia.
- destruct (Z.leb_spec x y), (Z.ltb_spec y x); simpl; try reflexivity; lia.
Defined.

#[export] Instance Z_ScalarRing : ScalarRing Z.
Proof.
constructor; simpl; intros; lia.
Defined.

(** ** Results *)

Lemma bind_Ok_inv {A B} (r : result A) (k : A -> result B) (b : B) :
bind r k = Ok b -> exists a, r = Ok a /\ k a = Ok b.
Proof.
destruct r as [a | f]; simpl; intros E; [eauto | discriminate].
Qed.

Lemma assert_Ok_inv (b : bool) (u : unit) : assert b = Ok u -> b = true.
Proof.
destruct b; simpl; [reflexivity | discriminate].
Qed.

Lemma assert_not_thrown (b : bool) (code : ErrorCode) :
assert b <> Fail (BSplineException code).
Proof.
destruct b; simpl; discriminate.
Qed.

Lemma at_in_range {A} (l : list A) (i : nat) (d : A) :
i < length l -> at_ l i = Ok (nth i l d).
Proof.
intros Hi. unfold at_.
rewrite (nth_error_nth' l d Hi). reflexivity.
Qed.

(** ** Evaluation outside the support *)

Section Evaluation.
Context {T : Type} `{Scalar T}.

(** C3. A spline evaluates to exactly zero at every point strictly below
    its first break point, at every point strictly above its last one, and
    everywhere when it has no break points at all. *)
Theorem eval_outside_support_is_zero :
  forall (this : myspline T) (x : T),
    _intervals this = []
    \/ (x <? front (_intervals this))%s = true
    \/ (x >? back (_intervals this))%s = true ->
    eval this x = cast 0.
Proof.
  intros this x Hout.
  assert (Hidx : findInterval this x = (-1)%Z).
  { unfold findInterval.
    destruct Hout as [Hnil | [Hlow | Hhigh]].
    - rewrite Hnil. reflexivity.
    - rewrite Hlow. rewrite !orb_true_r. reflexivity.
    - rewrite Hhigh. rewrite orb_true_r. reflexivity. }
  unfold eval. rewrite Hidx. reflexivity.
Qed.
End Evaluation.

(** The three cases at a spline over the integers. *)
Lemma eval_outside_support_is_zero_witness :
eval {| order := 0; _intervals := [0; 2; 4]%Z;
        _coefficients := [[10]; [20]]%Z |} (-1)%Z = 0%Z
/\ eval {| order := 0; _intervals := [0; 2; 4]%Z;
           _coefficients := [[10]; [20]]%Z |} 5%Z = 0%Z
/\ eval (default 3) 1%Z = 0%Z.
Proof.
split; [| split].
- exact (eval_outside_support_is_zero
           {| order := 0; _intervals := [0; 2; 4]%Z;
              _coefficients := [[10]; [20]]%Z |} (-1)%Z
           (or_intror (or_introl eq_refl))).
- exact (eval_outside_support_is_zero
           {| order := 0; _intervals := [0; 2; 4]%Z;
              _coefficients := [[10]; [20]]%Z |} 5%Z
           (or_intror (or_intror eq_refl))).
- exact (eval_outside_support_is_zero (default 3) 1%Z (or_introl eq_refl)).
Defined.

(** ** Scaling leaves the support alone *)

Section Scaling.
Context {T : Type} `{Scalar T}.

(** C10. Multiplying or dividing a spline by a scalar, by the operators that
    return a new spline and by the ones that work in place, keeps the break
    points and the order as they are; each coefficient is multiplied by the
    scalar (by its reciprocal for the divisions) and nothing else
    changes. *)
Theorem scalar_operators_keep_support :
  forall (this : myspline T) (d : T),
    let scaled_by (f : T) (r : myspline T) :=
      _intervals r = _intervals this
      /\ order r = order this
      /\ _coefficients r = map (map (fun c => (c * f)%s)) (_coefficients this)
    in
    scaled_by d (times_scalar this d)
    /\ scaled_by d (times_assign_scalar this d)
    /\ scaled_by (cast 1 / d)%s (div_scalar this d)
    /\ scaled_by (cast 1 / d)%s (div_assign_scalar this d).
Proof.
  intros this d scaled_by. unfold scaled_by.
  repeat split; reflexivity.
Qed.
End Scaling.

(** ** Grid equality *)

Section GridEquality.
Context {T : Type} `{Scalar T} {TO : ScalarOrder T}.

Lemma ne_false_iff (x y : T) : negb (x !=? y)%s = true <-> x = y.
Proof.
unfold s_ne. rewrite negb_involutive. apply s_eq_spec.
Qed.

Lemma elementwise_equal (l1 l2 : list T) (n : nat) :
  forallb (fun i => negb (get l1 i !=? get l2 i)%s) (seq 0 n) = true
  <-> forall i, i < n -> get l1 i = get l2 i.
Proof.
rewrite forallb_forall. split.
- intros Hall i Hi. apply ne_false_iff, Hall, in_seq. lia.
- intros Hall i Hi. apply in_seq in Hi. apply ne_false_iff, Hall. lia.
Qed.

Lemma grid_eq_logically_equal (g1 g2 : GridClass.grid T) :
  GridClass.same_storage_same_elements g1 g2 ->
  GridClass.grid_eq g1 g2 = true <-> GridClass.logically_equal g1 g2.
Proof.
intros Hshared. unfold GridClass.grid_eq, GridClass.logically_equal.
destruct (GridClass._data g1 =? GridClass._data g2) eqn:Eptr;
  destruct (GridClass._size g1 =? GridClass._size g2) eqn:Esize; simpl.
- apply Nat.eqb_eq in Eptr, Esize. split; [intros _ | reflexivity].
  split; [exact Esize |]. intros i _. rewrite (Hshared Eptr). reflexivity.
- apply Nat.eqb_neq in Esize. split; [discriminate | tauto].
- apply Nat.eqb_eq in Esize. rewrite elementwise_equal. tauto.
- apply Nat.eqb_neq in Esize. split; [discriminate | tauto].
Qed.

Lemma hasSameGrid_logically_equal (g1 g2 : GridPointer.grid T) s1 e1 s2 e2 :
  GridPointer.same_storage_same_elements g1 g2 ->
  GridPointer.hasSameGrid
    {| GridPointer._grid := g1; GridPointer._startIndex := s1;
       GridPointer._endIndex := e1 |}
    {| GridPointer._grid := g2; GridPointer._startIndex := s2;
       GridPointer._endIndex := e2 |} = true
  <-> GridPointer.logically_equal g1 g2.
Proof.
intros Hshared.
unfold GridPointer.hasSameGrid, GridPointer.logically_equal. simpl.
destruct (GridPointer.address g1 =? GridPointer.address g2) eqn:Eptr.
- apply Nat.eqb_eq in Eptr. rewrite (Hshared Eptr).
  split; [intros _ | reflexivity]. split; reflexivity.
- destruct (length (GridPointer.pointee g1)
            =? length (GridPointer.pointee g2)) eqn:Esize; simpl.
  + apply Nat.eqb_eq in Esize. rewrite elementwise_equal. tauto.
  + apply Nat.eqb_neq in Esize. split; [discriminate | tauto].
Qed.

(** C6. Two supports compare equal exactly when their grids are logically
    equal and, on top of that, either their index ranges are the same or both
    are empty; the grid is compared for empty supports as well.  This holds
    for both versions of [support]. *)
Theorem support_eq_needs_equal_grids :
  (forall s1 s2 : GridClass.support T,
      GridClass.same_storage_same_elements
        (GridClass._grid s1) (GridClass._grid s2) ->
      GridClass.support_eq s1 s2 = true
      <-> GridClass.logically_equal (GridClass._grid s1) (GridClass._grid s2)
          /\ ((GridClass._startIndex s1 = GridClass._startIndex s2
               /\ GridClass._endIndex s1 = GridClass._endIndex s2)
              \/ (GridClass.empty s1 = true /\ GridClass.empty s2 = true)))
  /\ (forall s1 s2 : GridPointer.support T,
         GridPointer.same_storage_same_elements
           (GridPointer._grid s1) (GridPointer._grid s2) ->
         GridPointer.support_eq s1 s2 = true
         <-> GridPointer.logically_equal
               (GridPointer._grid s1) (GridPointer._grid s2)
             /\ ((GridPointer._startIndex s1 = GridPointer._startIndex s2
                  /\ GridPointer._endIndex s1 = GridPointer._endIndex s2)
                 \/ (GridPointer.empty s1 = true
                     /\ GridPointer.empty s2 = true))).
Proof.
split.
- intros s1 s2 Hshared. unfold GridClass.support_eq, GridClass.hasSameGrid.
  rewrite andb_true_iff, orb_true_iff, !andb_true_iff, !Nat.eqb_eq.
  rewrite (grid_eq_logically_equal _ _ Hshared). tauto.
- intros [g1 a1 b1] [g2 a2 b2] Hshared. simpl in Hshared.
  unfold GridPointer.support_eq.
  rewrite andb_true_iff, orb_true_iff, !andb_true_iff, !Nat.eqb_eq.
  rewrite (hasSameGrid_logically_equal _ _ a1 b1 a2 b2 Hshared). simpl. tauto.
Qed.
End GridEquality.

(** Both versions at the whole grid [0, 2, 4], compared with itself. *)
Lemma support_eq_needs_equal_grids_witness :
  GridClass.support_eq
    (GridClass.getSupport (one_on grid_0_2_4))
    (GridClass.getSupport (one_on grid_0_2_4)) = true
  /\ GridPointer.support_eq
       {| GridPointer._grid := pointer_grid_0_2_4;
          GridPointer._startIndex := 0; GridPointer._endIndex := 3 |}
       {| GridPointer._grid := pointer_grid_0_2_4;
          GridPointer._startIndex := 0; GridPointer._endIndex := 3 |} = true.
Proof.
destruct (@support_eq_needs_equal_grids Z _ Z_ScalarOrder) as [Hclass Hptr].
split.
- apply Hclass.
  + intros _. reflexivity.
  + split; [split; [reflexivity | intros i _; reflexivity] |].
    left. split; reflexivity.
- apply Hptr.
  + intros _. reflexivity.
  + split; [split; [reflexivity | intros i _; reflexivity] |].
    left. split; reflexivity.
Defined.

(** C6, as stated, fails: two empty supports on the grids [0, 2, 4] and
    [0, 3, 4] do not compare equal, in either version. *)
Lemma empty_supports_on_different_grids_differ :
  GridClass.empty (GridClass.support_empty grid_0_2_4) = true
  /\ GridClass.empty (GridClass.support_empty grid_0_3_4) = true
  /\ GridClass.support_eq (GridClass.support_empty grid_0_2_4)
                          (GridClass.support_empty grid_0_3_4) = false
  /\ GridPointer.support_eq
       {| GridPointer._grid := pointer_grid_0_2_4;
          GridPointer._startIndex := 0; GridPointer._endIndex := 0 |}
       {| GridPointer._grid := pointer_grid_0_3_4;
          GridPointer._startIndex := 0; GridPointer._endIndex := 0 |} = false.
Proof.
repeat split.
Qed.

(** ** Splines on different grids *)

Section DifferingGrids.
Context {T : Type} `{Scalar T} {TO : ScalarOrder T}.

Lemma construct_not_thrown (o : nat) (ints : list T) (cs : list (list T))
      (code : ErrorCode) :
  construct o ints cs <> Fail (BSplineException code).
Proof.
unfold construct.
destruct (sizes_agree ints cs); simpl; [| discriminate].
destruct (steadilyIncreasingIntervals ints); simpl; discriminate.
Qed.

Lemma findOverlappingIntervals_not_thrown (m1 m2 : myspline T)
      (code : ErrorCode) :
  findOverlappingIntervals m1 m2 <> Fail (BSplineException code).
Proof.
unfold findOverlappingIntervals.
destruct (checkOverlap m1 m2); simpl; [| discriminate].
destruct (front (_intervals m2) <=? front (_intervals m1))%s; simpl.
- destruct (find_index (_intervals m2) (front (_intervals m1)) + 2
            <=? length (_intervals m2)); simpl; discriminate.
- destruct (find_index (_intervals m1) (front (_intervals m2)) + 2
            <=? length (_intervals m1)); simpl; discriminate.
Qed.

Lemma plus_not_thrown (this a : myspline T) (code : ErrorCode) :
  plus this a <> Fail (BSplineException code).
Proof.
apply construct_not_thrown.
Qed.

Lemma times_not_thrown (this a : myspline T) (code : ErrorCode) :
  times this a <> Fail (BSplineException code).
Proof.
unfold times.
pose proof (findOverlappingIntervals_not_thrown this a code) as Hfound.
destruct (findOverlappingIntervals this a) as [[[s1 s2] n] | f]; simpl.
- destruct (n =? 0); [discriminate | apply construct_not_thrown].
- intros E. apply Hfound. injection E as ->. reflexivity.
Qed.

(** C1. Of the three operations only the analytical integration compares
    grids: for two splines whose supports lie on grids that are not logically
    equal it fails with [DIFFERING_GRIDS].  The sum and the product of two
    [myspline]s carry no grid; whatever their break points are, they never
    fail with [DIFFERING_GRIDS]. *)
Theorem only_integration_rejects_differing_grids :
  (forall (f : nat -> nat -> T -> T -> T -> T -> T) (m1 m2 : GridClass.Spline T),
      GridClass.same_storage_same_elements
        (GridClass._grid (GridClass.getSupport m1))
        (GridClass._grid (GridClass.getSupport m2)) ->
      ~ GridClass.logically_equal
          (GridClass._grid (GridClass.getSupport m1))
          (GridClass._grid (GridClass.getSupport m2)) ->
      GridClass.helperAnalyticIntegration f m1 m2 = throw DIFFERING_GRIDS)
  /\ (forall this a : myspline T,
         plus this a <> throw DIFFERING_GRIDS
         /\ times this a <> throw DIFFERING_GRIDS).
Proof.
split.
- intros f m1 m2 Hshared Hdiffer.
  unfold GridClass.helperAnalyticIntegration, GridClass.hasSameGrid.
  destruct (GridClass.grid_eq (GridClass._grid (GridClass.getSupport m1))
                              (GridClass._grid (GridClass.getSupport m2)))
           eqn:Eeq; simpl; [| reflexivity].
  apply (grid_eq_logically_equal _ _ Hshared) in Eeq. contradiction.
- intros this a. split.
  + apply plus_not_thrown.
  + apply times_not_thrown.
Qed.
End DifferingGrids.

(** The integral of the product of the constant one on [0, 2, 4] and the
    constant one on [0, 3, 4] is refused. *)
Lemma only_integration_rejects_differing_grids_witness :
  GridClass.helperAnalyticIntegration
    overlap_weight (one_on grid_0_2_4) (one_on grid_0_3_4)
  = throw DIFFERING_GRIDS.
Proof.
apply (proj1 (@only_integration_rejects_differing_grids Z _ Z_ScalarOrder)).
- simpl. discriminate.
- intros [_ Hall]. specialize (Hall 1 ltac:(simpl; lia)). discriminate Hall.
Defined.

(** C1, as stated, fails for the sum and for the product: two splines with
    the same extent [0, 4] and the break points [0, 2, 4] and [0, 3, 4] are
    added and multiplied without any error. *)
Lemma plus_and_times_combine_differing_grids :
  _intervals spline_0_2_4 <> _intervals spline_0_3_4
  /\ front (_intervals spline_0_2_4) = front (_intervals spline_0_3_4)
  /\ back (_intervals spline_0_2_4) = back (_intervals spline_0_3_4)
  /\ plus spline_0_2_4 spline_0_3_4
     = Ok {| order := 1; _intervals := [0; 2; 3; 4]%Z;
             _coefficients := [[6; 8]; [3; 4]; [7; 8]]%Z |}
  /\ times spline_0_2_4 spline_0_3_4
     = Ok {| order := 2; _intervals := [0; 2; 4]%Z;
             _coefficients := [[5; 16; 12]; [21; 52; 32]]%Z |}.
Proof.
split; [discriminate |]. repeat split.
Qed.

(** ** Generating all B-splines *)

Lemma push_back_each_all_Ok {A B} (f : A -> result B) (l : list A) :
  (forall i, In i l -> exists b, f i = Ok b) ->
  exists bs, push_back_each f l = Ok bs /\ length bs = length l.
Proof.
induction l as [| i l IH]; intros Hall; simpl.
- exists []. split; reflexivity.
- destruct (Hall i (or_introl eq_refl)) as [b Eb]. rewrite Eb. simpl.
  destruct IH as [bs [Ebs Hlen]].
  { intros j Hj. apply Hall. right. exact Hj. }
  rewrite Ebs. simpl. exists (b :: bs). split; [reflexivity |].
  simpl. rewrite Hlen. reflexivity.
Qed.

Lemma push_back_each_Fail_inv {A B} (f : A -> result B) (l : list A) e :
  push_back_each f l = Fail e -> exists i, In i l /\ f i = Fail e.
Proof.
induction l as [| i l IH]; simpl; intros E; [discriminate |].
destruct (f i) as [b | e'] eqn:Ei; simpl in E.
- destruct (push_back_each f l) as [bs | e'']; simpl in E; [discriminate |].
  destruct (IH E) as [j [Hj Ej]]. exists j. split; [right |]; assumption.
- exists i. split; [left; reflexivity | congruence].
Qed.

Lemma push_back_each_one_failure {A B} (f : A -> result B) (l : list A) e :
  (forall i, In i l -> (exists b, f i = Ok b) \/ f i = Fail e) ->
  (exists i, In i l /\ f i = Fail e) ->
  push_back_each f l = Fail e.
Proof.
induction l as [| i l IH]; intros Hall [j [Hj Ej]]; [destruct Hj |].
simpl. destruct (Hall i (or_introl eq_refl)) as [[b Eb] | Ei].
- rewrite Eb. simpl. rewrite IH; [reflexivity | |].
  + intros k Hk. apply Hall. right. exact Hk.
  + destruct Hj as [-> | Hj]; [congruence |]. exists j. split; assumption.
- rewrite Ei. reflexivity.
Qed.

Section GenerateAll.
Context {T : Type} `{Scalar T} {TO : ScalarOrder T}.
Variable Grid : Type.
Variable Spline : nat -> Type.
Variable findElement : Grid -> T -> nat.
Variable Spline_on : Grid -> nat -> nat -> list (list T) -> Spline 0.
Variable Spline_zero : forall o : nat, Grid -> Spline o.
Variable Spline_scale : forall o : nat, T -> Spline o -> Spline o.
Variable Spline_timesx : forall o : nat, Spline o -> Spline (S o).
Variable Spline_minus :
  forall o oa : nat, Spline o -> Spline oa -> Spline (Nat.max o oa).
Variable Spline_plus_assign :
  forall o oa : nat, Spline o -> Spline oa -> Spline o.
Variable this : BSplineGenerator T Grid.

Local Abbreviation generate_one :=
  (generateBSpline Spline findElement Spline_on Spline_zero Spline_scale
                   Spline_timesx Spline_minus Spline_plus_assign).
Local Abbreviation generate_all :=
  (generateBSplines Spline findElement Spline_on Spline_zero Spline_scale
                    Spline_timesx Spline_minus Spline_plus_assign).

Lemma ge_is_not_lt (x y : T) : (x >=? y)%s = negb (y >? x)%s.
Proof.
unfold s_ge, s_gt. apply s_le_lt.
Qed.

(** The spline of order zero on one knot interval. *)
Lemma generateBSpline_order_zero (i : nat) :
  i + 1 < length (_knots this) ->
  generate_one 0 this i
  = if (get (_knots this) i >=? get (_knots this) (i + 1))%s
    then throw UNDETERMINED
    else Ok (Spline_on (_grid this)
                       (findElement (_grid this) (get (_knots this) i))
                       (findElement (_grid this) (get (_knots this) i) + 2)
                       [[cast 1]]).
Proof.
intros Hi. simpl. unfold get.
rewrite (at_in_range (_knots this) i (cast 0)) by lia. simpl.
rewrite (at_in_range (_knots this) (i + 1) (cast 0)) by lia. simpl.
reflexivity.
Qed.

(** One level of the recursion returns once the two calls it guards do. *)
Lemma generateBSpline_step (km2 i : nat) :
  i + S (S km2) < length (_knots this) ->
  ((get (_knots this) (i + S km2) >? get (_knots this) i)%s = true ->
   exists b, generate_one km2 this i = Ok b) ->
  ((get (_knots this) (i + S (S km2)) >? get (_knots this) (i + 1))%s = true ->
   exists b, generate_one km2 this (i + 1) = Ok b) ->
  exists b, generate_one (S km2) this i = Ok b.
Proof.
intros Hi Hfirst Hsecond. simpl. unfold get in *.
rewrite (at_in_range (_knots this) i (cast 0)) by lia. simpl.
replace (i + S (S km2) - 1) with (i + S km2) by lia.
rewrite (at_in_range (_knots this) (i + S km2) (cast 0)) by lia. simpl.
rewrite (at_in_range (_knots this) (i + 1) (cast 0)) by lia.
rewrite (at_in_range (_knots this) (i + S (S km2)) (cast 0)) by lia.
destruct (nth (i + S km2) (_knots this) (cast 0) >? nth i (_knots this) (cast 0))%s.
- destruct (Hfirst eq_refl) as [b1 ->]. simpl.
  destruct (nth (i + S (S km2)) (_knots this) (cast 0)
            >? nth (i + 1) (_knots this) (cast 0))%s.
  + destruct (Hsecond eq_refl) as [b2 ->]. simpl. eauto.
  + simpl. eauto.
- simpl.
  destruct (nth (i + S (S km2)) (_knots this) (cast 0)
            >? nth (i + 1) (_knots this) (cast 0))%s.
  + destruct (Hsecond eq_refl) as [b2 ->]. simpl. eauto.
  + simpl. eauto.
Qed.

Lemma generateBSpline_order_zero_guarded (i : nat) :
  i + 1 < length (_knots this) ->
  (get (_knots this) (i + 1) >? get (_knots this) i)%s = true ->
  exists b, generate_one 0 this i = Ok b.
Proof.
intros Hi Hguard. rewrite (generateBSpline_order_zero i Hi).
rewrite ge_is_not_lt, Hguard. simpl. eauto.
Qed.

(** From order one on, a single B-spline is always produced. *)
Lemma generateBSpline_higher_order (km2 : nat) :
  forall i, i + S (S km2) < length (_knots this) ->
            exists b, generate_one (S km2) this i = Ok b.
Proof.
induction km2 as [| km3 IH]; intros i Hi.
- apply generateBSpline_step; [exact Hi | |].
  + apply generateBSpline_order_zero_guarded. lia.
  + replace (i + 2) with (i + 1 + 1) by lia.
    apply generateBSpline_order_zero_guarded. lia.
- apply generateBSpline_step; [exact Hi | |]; intros _; apply IH; lia.
Qed.

(** C7. Generating all B-splines with [k] coefficients fails with
    [UNDETERMINED] exactly when there are fewer than [k] knots or, for
    [k = 1], some knot is not below its successor; in every other case it
    returns one spline of order [k - 1] for each index below
    [knotCount - k]. *)
Theorem generateBSplines_undetermined_or_all :
  forall km1 : nat,
    let k := S km1 in
    (generate_all km1 this = throw UNDETERMINED
     <-> length (_knots this) < k
         \/ (km1 = 0 /\ degenerate_pair (_knots this)))
    /\ (generate_all km1 this <> throw UNDETERMINED ->
        exists l : list (Spline km1),
          generate_all km1 this = Ok l
          /\ length l = length (_knots this) - k).
Proof.
intros km1 k. unfold generateBSplines. fold k.
destruct (length (_knots this) <? k) eqn:Efew.
- apply Nat.ltb_lt in Efew. split.
  + split; [intros _; left; exact Efew | reflexivity].
  + intros Hnot. exfalso. apply Hnot. reflexivity.
- apply Nat.ltb_ge in Efew.
  destruct km1 as [| km2].
  + (* k = 1 *)
    assert (Hbase : forall i, In i (seq 0 (length (_knots this) - k)) ->
                              i + 1 < length (_knots this)).
    { intros i Hi. apply in_seq in Hi. subst k. lia. }
    assert (Heach : forall i, In i (seq 0 (length (_knots this) - k)) ->
                (exists b, generate_one 0 this i = Ok b)
                \/ generate_one 0 this i = throw UNDETERMINED).
    { intros i Hi. rewrite (generateBSpline_order_zero i (Hbase i Hi)).
      destruct (get (_knots this) i >=? get (_knots this) (i + 1))%s;
        [right; reflexivity | left; eauto]. }
    split.
    * split.
      -- intros Efail. right. split; [reflexivity |].
         apply push_back_each_Fail_inv in Efail.
         destruct Efail as [i [Hi Ei]]. exists i. split; [auto |].
         rewrite (generateBSpline_order_zero i (Hbase i Hi)) in Ei.
         destruct (get (_knots this) i >=? get (_knots this) (i + 1))%s;
           [reflexivity | discriminate].
      -- intros [Hfew | [_ [i [Hi Hdeg]]]]; [subst k; lia |].
         apply push_back_each_one_failure; [exact Heach |].
         exists i. split; [apply in_seq; subst k; lia |].
         rewrite (generateBSpline_order_zero i Hi), Hdeg. reflexivity.
    * intros Hnot.
      destruct (push_back_each_all_Ok (generate_one 0 this)
                  (seq 0 (length (_knots this) - k))) as [bs [Ebs Hlen]].
      { intros i Hi. destruct (Heach i Hi) as [Hok | Hfail]; [exact Hok |].
        exfalso. apply Hnot.
        apply push_back_each_one_failure; [exact Heach | eauto]. }
      exists bs. split; [exact Ebs |]. rewrite Hlen, length_seq. reflexivity.
  + (* k >= 2 *)
    destruct (push_back_each_all_Ok (generate_one (S km2) this)
                (seq 0 (length (_knots this) - k))) as [bs [Ebs Hlen]].
    { intros i Hi. apply in_seq in Hi.
      apply generateBSpline_higher_order. subst k. lia. }
    rewrite Ebs. split.
    * split; [discriminate |].
      intros [Hfew | [Hzero _]]; [subst k; lia | discriminate].
    * intros _. exists bs. split; [reflexivity |].
      rewrite Hlen, length_seq. reflexivity.
Qed.
End GenerateAll.

(** With the knots [0, 0, 1] and [k = 1] the first interval is empty; with
    [0, 0, 1, 2, 2] and [k = 3] there are two B-splines of order two. *)
Lemma generateBSplines_undetermined_or_all_witness :
  generateBSplines_no_data 0 [0; 0; 1]%Z = throw UNDETERMINED
  /\ exists l, generateBSplines_no_data 2 [0; 0; 1; 2; 2]%Z = Ok l
               /\ length l = 2.
Proof.
split.
- apply (generateBSplines_undetermined_or_all (TO := Z_ScalarOrder)).
  right. split; [reflexivity |]. exists 0. split; [simpl; lia | reflexivity].
- apply (generateBSplines_undetermined_or_all (TO := Z_ScalarOrder)
           unit no_data (fun _ _ => 0) (fun _ _ _ _ => tt) (fun _ _ => tt)
           (fun _ _ _ => tt) (fun _ _ => tt) (fun _ _ _ _ => tt)
           (fun _ _ _ _ => tt)
           {| _grid := tt; _knots := [0; 0; 1; 2; 2]%Z |} 2).
  discriminate.
Defined.

(** C7, as stated, fails: the knots [0, 0, 1] are three, no fewer than
    [k = 1], and generating all B-splines still ends in [UNDETERMINED]. *)
Lemma generateBSplines_fails_with_enough_knots :
  ~ length [0; 0; 1]%Z < 1
  /\ generateBSplines_no_data 0 [0; 0; 1]%Z = throw UNDETERMINED.
Proof.
split; [simpl; lia | reflexivity].
Qed.

(** ** The interval an evaluation point falls into *)

Section FindInterval.
Context {T : Type} `{Scalar T}.

Lemma back_is_last_element (l : list T) : back l = get l (length l - 1).
Proof.
unfold back, get. induction l as [| a l IH]; [reflexivity |].
destruct l as [| b l]; [reflexivity |].
change (last (a :: b :: l) (cast 0)) with (last (b :: l) (cast 0)).
rewrite IH. simpl. rewrite Nat.sub_0_r. reflexivity.
Qed.

Lemma front_is_first_element (l : list T) : front l = get l 0.
Proof.
destruct l; reflexivity.
Qed.

(** The loop keeps [x] above the left end (unless that is the very first
    point) and not above the right end (unless that is the very last). *)
Lemma findInterval_loop_spec (ints : list T) (x : T) :
  forall (fuel : nat) (starti endi : Z),
    (0 <= starti < endi)%Z ->
    (endi - starti <= Z.of_nat fuel)%Z ->
    let r := findInterval_loop fuel ints x starti endi in
    (starti <= r < endi)%Z
    /\ (r = starti \/ (x >? get ints (Z.to_nat r))%s = true)
    /\ (r + 1 = endi \/ (x >? get ints (Z.to_nat (r + 1)))%s = false)%Z.
Proof.
induction fuel as [| fuel IH]; intros starti endi Hrange Hfuel; [simpl in *; lia |].
cbn [findInterval_loop].
destruct (endi - starti >? 1)%Z eqn:Ewide.
- apply Z.gtb_lt in Ewide.
  assert (Hmid : (starti < Z.quot (endi + starti) 2 < endi)%Z).
  { rewrite Z.quot_div_nonneg by lia.
    pose proof (Z.div_le_lower_bound (endi + starti) 2 (starti + 1)).
    pose proof (Z.div_lt_upper_bound (endi + starti) 2 endi). lia. }
  destruct (x >? get ints (Z.to_nat (Z.quot (endi + starti) 2)))%s eqn:Eabove.
  + destruct (IH (Z.quot (endi + starti) 2) endi) as [Hr [Hleft Hright]];
      [lia | lia |].
    split; [lia |]. split; [| exact Hright].
    right. destruct Hleft as [-> | Hleft]; assumption.
  + destruct (IH starti (Z.quot (endi + starti) 2)) as [Hr [Hleft Hright]];
      [lia | lia |].
    split; [lia |]. split; [exact Hleft |].
    right. destruct Hright as [-> | Hright]; assumption.
- rewrite Z.gtb_ltb, Z.ltb_ge in Ewide.
  split; [lia |]. split; [left; reflexivity | left; lia].
Qed.

(** Inside the support the interval found is [(left, right]]. *)
Lemma findInterval_inside (this : myspline T) (x : T) :
  2 <= length (_intervals this) ->
  (x >? back (_intervals this))%s = false ->
  (x <? front (_intervals this))%s = false ->
  let r := findInterval this x in
  (0 <= r)%Z
  /\ Z.to_nat r + 1 < length (_intervals this)
  /\ (r = 0%Z \/ (x >? get (_intervals this) (Z.to_nat r))%s = true)
  /\ (x >? get (_intervals this) (Z.to_nat r + 1))%s = false.
Proof.
intros Hsize Hback Hfront. unfold findInterval.
rewrite Hback, Hfront.
destruct (length (_intervals this) <? 2) eqn:Esmall;
  [apply Nat.ltb_lt in Esmall; lia |].
cbn [orb].
destruct (findInterval_loop_spec (_intervals this) x (length (_intervals this))
            0%Z (Z.of_nat (length (_intervals this)) - 1)%Z)
  as [Hr [Hleft Hright]]; [lia | lia |].
set (r := findInterval_loop _ _ _ _ _) in *.
split; [lia |]. split; [lia |]. split; [exact Hleft |].
replace (Z.to_nat r + 1) with (Z.to_nat (r + 1)) by lia.
destruct Hright as [Hlast | Hright]; [| exact Hright].
rewrite Hlast. rewrite back_is_last_element in Hback.
replace (Z.to_nat (Z.of_nat (length (_intervals this)) - 1))
  with (length (_intervals this) - 1) by lia.
exact Hback.
Qed.
End FindInterval.

Section StrictOrder.
Context {T : Type} `{Scalar T} {TO : ScalarOrder T}.

Lemma s_lt_asym (x y : T) : (x <? y)%s = true -> (y <? x)%s = false.
Proof.
intros Hxy. destruct (y <? x)%s eqn:Hyx; [| reflexivity].
rewrite <- (s_lt_irrefl x). symmetry. exact (s_lt_trans x y x Hxy Hyx).
Qed.

Lemma s_lt_neq (x y : T) : (x <? y)%s = true -> x <> y.
Proof.
intros Hxy ->. rewrite s_lt_irrefl in Hxy. discriminate.
Qed.

Lemma strictly_increasing_lt (l : list T) :
  strictly_increasing l ->
  forall j i, i < j -> j < length l -> (get l i <? get l j)%s = true.
Proof.
intros Hinc. induction j as [| j IH]; intros i Hij Hj; [lia |].
specialize (Hinc j). replace (j + 1) with (S j) in Hinc by lia.
destruct (Nat.eq_dec i j) as [-> | Hne].
- apply Hinc. lia.
- apply s_lt_trans with (get l j); [apply IH; lia | apply Hinc; lia].
Qed.

Lemma strictly_increasing_tail (a : T) (l : list T) :
  strictly_increasing (a :: l) -> strictly_increasing l.
Proof.
intros Hinc i Hi. apply (Hinc (S i)). simpl. lia.
Qed.

(** C4. Inside the support the binary search returns the interval [r] with
    [x] not above its right break point and, unless [r] is the first
    interval, strictly above its left break point: intervals are closed on
    the right.  In particular at a break point of index [m >= 1] the search
    returns [m - 1], and the value is the polynomial of interval [m - 1]. *)
Theorem findInterval_closed_on_the_right :
  forall this : myspline T,
    strictly_increasing (_intervals this) ->
    (forall x : T,
        2 <= length (_intervals this) ->
        (x >? back (_intervals this))%s = false ->
        (x <? front (_intervals this))%s = false ->
        let r := findInterval this x in
        (0 <= r)%Z
        /\ Z.to_nat r + 1 < length (_intervals this)
        /\ (x <=? get (_intervals this) (Z.to_nat r + 1))%s = true
        /\ (r = 0%Z \/ (get (_intervals this) (Z.to_nat r) <? x)%s = true))
    /\ (forall m : nat,
           1 <= m -> m < length (_intervals this) ->
           let x := get (_intervals this) m in
           findInterval this x = (Z.of_nat m - 1)%Z
           /\ eval this x
              = polynomial (coeffs_at (_coefficients this) (m - 1))
                           (x - (get (_intervals this) m
                                 + get (_intervals this) (m - 1)) / cast 2)%s).
Proof.
intros this Hinc.
assert (Hgeneral : forall x : T,
           2 <= length (_intervals this) ->
           (x >? back (_intervals this))%s = false ->
           (x <? front (_intervals this))%s = false ->
           let r := findInterval this x in
           (0 <= r)%Z
           /\ Z.to_nat r + 1 < length (_intervals this)
           /\ (x <=? get (_intervals this) (Z.to_nat r + 1))%s = true
           /\ (r = 0%Z \/ (get (_intervals this) (Z.to_nat r) <? x)%s = true)).
{ intros x Hsize Hback Hfront.
  destruct (findInterval_inside this x Hsize Hback Hfront)
    as [Hr [Hlen [Hleft Hright]]].
  cbv zeta. repeat split; try assumption.
  rewrite s_le_lt. unfold s_gt in Hright. rewrite Hright. reflexivity. }
split; [exact Hgeneral |].
intros m Hm1 Hm x.
assert (Hback : (x >? back (_intervals this))%s = false).
{ unfold s_gt. rewrite back_is_last_element. subst x.
  destruct (Nat.eq_dec m (length (_intervals this) - 1)) as [-> | Hne].
  - apply s_lt_irrefl.
  - apply s_lt_asym, strictly_increasing_lt; [exact Hinc | lia | lia]. }
assert (Hfront : (x <? front (_intervals this))%s = false).
{ rewrite front_is_first_element. subst x.
  apply s_lt_asym, strictly_increasing_lt; [exact Hinc | lia | lia]. }
destruct (Hgeneral x ltac:(lia) Hback Hfront) as [Hr [Hlen [Hright Hleft]]].
set (r := findInterval this x) in *.
assert (Hfound : r = (Z.of_nat m - 1)%Z).
{ destruct (Nat.lt_trichotomy (Z.to_nat r + 1) m) as [Hlt | [Heq | Hgt]].
  - exfalso. rewrite s_le_lt in Hright.
    assert (Hbelow : (get (_intervals this) (Z.to_nat r + 1) <? x)%s = true)
      by (subst x; apply strictly_increasing_lt; [exact Hinc | lia | lia]).
    rewrite Hbelow in Hright. discriminate.
  - lia.
  - exfalso. destruct Hleft as [Hzero | Hleft]; [lia |].
    destruct (Nat.eq_dec (Z.to_nat r) m) as [Heq | Hne].
    + rewrite Heq in Hleft. subst x. rewrite s_lt_irrefl in Hleft.
      discriminate.
    + assert (Habove : (x <? get (_intervals this) (Z.to_nat r))%s = true)
        by (subst x; apply strictly_increasing_lt; [exact Hinc | lia | lia]).
      apply s_lt_asym in Habove. rewrite Habove in Hleft. discriminate. }
split; [exact Hfound |].
unfold eval. fold r. rewrite Hfound.
destruct (Z.of_nat m - 1 <? 0)%Z eqn:Eneg; [apply Z.ltb_lt in Eneg; lia |].
replace (Z.to_nat (Z.of_nat m - 1)) with (m - 1) by lia.
replace (m - 1 + 1) with m by lia. reflexivity.
Qed.
End StrictOrder.

(** The step function at its interior break point 2 and at 3. *)
Lemma findInterval_closed_on_the_right_witness :
  findInterval steps_0_2_4 2%Z = 0%Z
  /\ eval steps_0_2_4 2%Z = 10%Z
  /\ (0 <= findInterval steps_0_2_4 3%Z)%Z.
Proof.
assert (Hinc : strictly_increasing (_intervals steps_0_2_4)).
{ intros i Hi. simpl in Hi.
  destruct i as [| [| i]]; [reflexivity | reflexivity | lia]. }
destruct (findInterval_closed_on_the_right (TO := Z_ScalarOrder)
            steps_0_2_4 Hinc) as [Hgeneral Hbreak].
destruct (Hbreak 1 ltac:(lia) ltac:(simpl; lia)) as [Hfound Hvalue].
split; [exact Hfound |]. split; [exact Hvalue |].
exact (proj1 (Hgeneral 3%Z ltac:(simpl; lia) eq_refl eq_refl)).
Defined.

(** C4, as stated, fails: at the interior break point 2, of index 1, the
    second interval starts at 2 <= 2 and lies to the right of the first, yet
    the search returns the first and the value is the first one's, 10, not
    the second one's, 20. *)
Lemma findInterval_at_break_point_takes_left_interval :
  findInterval steps_0_2_4 2%Z = 0%Z
  /\ (get (_intervals steps_0_2_4) 1 <=? 2%Z)%s = true
  /\ eval steps_0_2_4 2%Z = 10%Z
  /\ polynomial (coeffs_at (_coefficients steps_0_2_4) 1)
                (2%Z - (get (_intervals steps_0_2_4) 2
                        + get (_intervals steps_0_2_4) 1) / cast 2)%s = 20%Z.
Proof.
repeat split.
Qed.

(** ** The constructor and the data invariant *)

Section Invariant.
Context {T : Type} `{Scalar T} {TO : ScalarOrder T}.

Lemma steadilyIncreasingIntervals_spec (l : list T) :
  steadilyIncreasingIntervals l = true <-> strictly_increasing l.
Proof.
induction l as [| a l IH]; [split; [intros _ i Hi; simpl in Hi; lia | reflexivity] |].
destruct l as [| b l].
- split; [intros _ i Hi; simpl in Hi; lia | reflexivity].
- change (steadilyIncreasingIntervals (a :: b :: l))
    with (if (a >=? b)%s then false else steadilyIncreasingIntervals (b :: l)).
  unfold s_ge. rewrite s_le_lt.
  destruct (a <? b)%s eqn:Eab; simpl.
  + rewrite IH. split.
    * intros Hinc [| i] Hi; [exact Eab |]. apply (Hinc i). simpl in *. lia.
    * apply strictly_increasing_tail.
  + split; [discriminate |]. intros Hinc.
    specialize (Hinc 0 ltac:(simpl; lia)). unfold get in Hinc.
    simpl in Hinc. rewrite Eab in Hinc. discriminate.
Qed.

Lemma sizes_agree_spec (ints : list T) (cs : list (list T)) :
  sizes_agree ints cs = true
  <-> (ints = [] /\ cs = [])
      \/ (2 <= length ints /\ length cs + 1 = length ints).
Proof.
unfold sizes_agree.
rewrite orb_true_iff, !andb_true_iff, !Nat.eqb_eq, Nat.leb_le.
rewrite !length_zero_iff_nil. tauto.
Qed.

Lemma construct_Ok (o : nat) (ints : list T) (cs : list (list T)) :
  strictly_increasing ints ->
  (ints = [] /\ cs = []) \/ (2 <= length ints /\ length cs + 1 = length ints) ->
  construct o ints cs
  = Ok {| order := o; _intervals := ints; _coefficients := cs |}.
Proof.
intros Hinc Hsizes. unfold construct.
apply sizes_agree_spec in Hsizes. rewrite Hsizes. simpl.
apply steadilyIncreasingIntervals_spec in Hinc. rewrite Hinc. reflexivity.
Qed.

Lemma construct_Ok_inv (o : nat) (ints : list T) (cs : list (list T)) r :
  construct o ints cs = Ok r ->
  r = {| order := o; _intervals := ints; _coefficients := cs |}
  /\ invariant r.
Proof.
unfold construct. intros E.
destruct (sizes_agree ints cs) eqn:Esizes; simpl in E; [| discriminate].
destruct (steadilyIncreasingIntervals ints) eqn:Einc; simpl in E;
  [| discriminate].
injection E as <-. split; [reflexivity |]. split; simpl.
- apply steadilyIncreasingIntervals_spec. exact Einc.
- apply sizes_agree_spec. exact Esizes.
Qed.

Lemma default_invariant (o : nat) : invariant (@default T o).
Proof.
split; simpl; [intros i Hi; simpl in Hi; lia | left; split; reflexivity].
Qed.

Lemma same_shape_invariant (this r : myspline T) :
  invariant this ->
  _intervals r = _intervals this ->
  length (_coefficients r) = length (_coefficients this) ->
  invariant r.
Proof.
intros [Hinc Hsizes] Hints Hlen. split; rewrite Hints; [exact Hinc |].
destruct Hsizes as [[Hnil Hcs] | Hsizes].
- left. split; [exact Hnil |]. apply length_zero_iff_nil.
  rewrite Hlen, Hcs. reflexivity.
- right. rewrite Hlen. exact Hsizes.
Qed.
End Invariant.

(** ** Differentiation *)

(** [faculty] is the falling factorial up to the wrap-around of [size_t]. *)
Lemma faculty_wraps (i n : nat) :
  faculty i n = (falling_factorial i n mod SIZE_MAX_plus_1)%Z.
Proof.
unfold faculty, falling_factorial.
assert (Hgen : forall (l : list nat) (a : Z),
           fold_left (fun f j => size_t_mul f (Z.of_nat (i - j))) l
                     (a mod SIZE_MAX_plus_1)%Z
           = (fold_left (fun f j => f * Z.of_nat (i - j)) l a
              mod SIZE_MAX_plus_1)%Z).
{ induction l as [| j l IH]; intros a; simpl; [reflexivity |].
  rewrite <- IH. unfold size_t_mul.
  rewrite Z.mul_mod_idemp_l by (unfold SIZE_MAX_plus_1; lia). reflexivity. }
rewrite <- Hgen. reflexivity.
Qed.

Section Differentiation.
Context {T : Type} `{Scalar T} {TO : ScalarOrder T}.

Lemma set_length (l : list T) (i : nat) (v : T) :
  length (set l i v) = length l.
Proof.
revert i. induction l as [| a l IH]; intros [| i]; simpl; congruence.
Qed.

Lemma set_after_prefix (l1 l2 : list T) (a v : T) :
  set (l1 ++ a :: l2) (length l1) v = l1 ++ v :: l2.
Proof.
induction l1 as [| b l1 IH]; simpl; [reflexivity | rewrite IH; reflexivity].
Qed.

(** Filling an array of zeros from the left, one entry per step. *)
Lemma fill_from_left (n : nat) (g : nat -> T) (z : T) :
  forall len L : nat,
    len <= L ->
    fold_left (fun nc i => set nc (i - n) (g i)) (seq n len) (repeat z L)
    = map (fun j => g (j + n)) (seq 0 len) ++ repeat z (L - len).
Proof.
induction len as [| len IH]; intros L Hlen.
- simpl. rewrite Nat.sub_0_r. reflexivity.
- rewrite !seq_S, fold_left_app, map_app, IH by lia. simpl.
  replace (L - len) with (S (L - S len)) by lia. simpl.
  replace (n + len - n) with (length (map (fun j => g (j + n)) (seq 0 len)))
    by (rewrite length_map, length_seq; lia).
  rewrite set_after_prefix, <- app_assoc.
  replace (len + n) with (n + len) by lia. reflexivity.
Qed.

(** The array of one interval after [n] differentiations. *)
Lemma dx_array_entries (o n : nat) (c : list T) :
  n <= o ->
  dx_array o n c
  = map (fun j => (cast (faculty (j + n) n) * get c (j + n))%s)
        (seq 0 (o - n + 1)).
Proof.
intros Hn. unfold dx_array, orderdx, make_array.
destruct (n <? o + 1) eqn:E1; [| apply Nat.ltb_ge in E1; lia].
destruct (o <? n) eqn:E2; [apply Nat.ltb_lt in E2; lia |].
replace (o + 1 - n) with (o - n + 1) by lia.
rewrite (fill_from_left n (fun i => (cast (faculty i n) * get c i)%s))
  by lia.
rewrite Nat.sub_diag. simpl. apply app_nil_r.
Qed.

(** Differentiating more often than the order gives the empty spline of
    order zero; otherwise the break points stay, the order drops by [n], and
    coefficient [i >= n] moves to place [i - n], multiplied by the product
    [i (i - 1) ... (i - n + 1)] as [size_t] computes it. *)
Lemma dx_shifts_and_scales (n : nat) (this : myspline T) :
  invariant this ->
  (order this < n -> dx n this = Ok (default 0))
  /\ (n <= order this ->
      dx n this
      = Ok {| order := order this - n;
              _intervals := _intervals this;
              _coefficients :=
                map (fun c =>
                       map (fun j => (cast (faculty (j + n) n)
                                      * get c (j + n))%s)
                           (seq 0 (order this - n + 1)))
                    (_coefficients this) |}).
Proof.
intros [Hinc Hsizes]. unfold dx. split; intros Hn.
- apply Nat.ltb_lt in Hn. rewrite Hn. reflexivity.
- destruct (order this <? n) eqn:E; [apply Nat.ltb_lt in E; lia |].
  unfold orderdx. rewrite E.
  rewrite construct_Ok.
  + f_equal. f_equal. apply map_ext. intros c. apply dx_array_entries. exact Hn.
  + exact Hinc.
  + destruct Hsizes as [[Hnil Hcs] | Hsizes].
    * left. rewrite Hcs. split; [exact Hnil | reflexivity].
    * right. rewrite length_map. exact Hsizes.
Qed.
End Differentiation.

Lemma falling_factorial_nonneg (i n : nat) : (0 <= falling_factorial i n)%Z.
Proof.
unfold falling_factorial.
assert (Hgen : forall (l : list nat) (a : Z),
           (0 <= a)%Z ->
           (0 <= fold_left (fun f j => f * Z.of_nat (i - j)) l a)%Z).
{ induction l as [| j l IH]; intros a Ha; simpl; [exact Ha |].
  apply IH. apply Z.mul_nonneg_nonneg; lia. }
apply Hgen. lia.
Qed.

(** Below the modulus nothing wraps. *)
Lemma faculty_without_overflow (i n : nat) :
  (falling_factorial i n < SIZE_MAX_plus_1)%Z ->
  faculty i n = falling_factorial i n.
Proof.
intros Hsmall. rewrite faculty_wraps.
apply Z.mod_small. split; [apply falling_factorial_nonneg | exact Hsmall].
Qed.

(** C5. The 21st derivative of the spline [(x - 1)^21] of order 21: its one
    coefficient is scaled by [21!] reduced modulo [2^64], not by [21!]. *)
Theorem dx_of_order_21_wraps_around :
  dx 21 monomial_21
  = Ok {| order := 0; _intervals := [0; 2]%Z;
          _coefficients := [[14197454024290336768%Z]] |}
  /\ falling_factorial 21 21 = 51090942171709440000%Z
  /\ faculty 21 21 <> falling_factorial 21 21.
Proof.
split; [vm_compute; reflexivity |].
split; [vm_compute; reflexivity |].
vm_compute. discriminate.
Qed.

(** ** Sorting and removing duplicates *)

Section Sorting.
Context {T : Type} `{Scalar T} {TO : ScalarOrder T}.

Lemma insert_In (a : T) (l : list T) (x : T) :
  In x (insert a l) <-> x = a \/ In x l.
Proof.
induction l as [| y l IH]; simpl; [intuition congruence |].
destruct (y <? a)%s; simpl; [rewrite IH |]; intuition congruence.
Qed.

Lemma sort_In (l : list T) (x : T) : In x (sort l) <-> In x l.
Proof.
induction l as [| a l IH]; simpl; [tauto |].
rewrite insert_In, IH. intuition congruence.
Qed.

Lemma insert_HdRel (y a : T) (l : list T) :
  HdRel not_above y l -> not_above y a -> HdRel not_above y (insert a l).
Proof.
intros Hhd Hya. destruct l as [| z l]; simpl; [constructor; exact Hya |].
destruct (z <? a)%s; constructor; [| exact Hya].
inversion Hhd; assumption.
Qed.

Lemma insert_Sorted (a : T) (l : list T) :
  Sorted not_above l -> Sorted not_above (insert a l).
Proof.
induction l as [| y l IH]; intros Hsorted; simpl.
- constructor; constructor.
- inversion Hsorted as [| ? ? Htail Hhd]; subst.
  destruct (y <? a)%s eqn:Eya.
  + constructor; [apply IH; exact Htail |].
    apply insert_HdRel; [exact Hhd |]. apply s_lt_asym. exact Eya.
  + constructor; [exact Hsorted |]. constructor. exact Eya.
Qed.

Lemma sort_Sorted (l : list T) : Sorted not_above (sort l).
Proof.
induction l as [| a l IH]; simpl; [constructor | apply insert_Sorted, IH].
Qed.

Lemma not_above_and_different (x y : T) :
  not_above x y -> (x ==? y)%s = false -> below x y.
Proof.
intros Hxy Hne. unfold below, not_above in *.
destruct (x <? y)%s eqn:Elt; [reflexivity |].
pose proof (s_lt_total x y Elt Hxy) as Heq.
apply s_eq_spec in Heq. congruence.
Qed.

Lemma unique_from_spec (l : list T) :
  forall prev : T,
    Sorted not_above l -> HdRel not_above prev l ->
    Sorted below (unique_from prev l)
    /\ HdRel below prev (unique_from prev l)
    /\ (forall x, In x (unique_from prev l) -> In x l)
    /\ (forall x, In x l -> x = prev \/ In x (unique_from prev l)).
Proof.
induction l as [| y l IH]; intros prev Hsorted Hhd; simpl.
- repeat split; try constructor; tauto.
- inversion Hsorted as [| ? ? Htail Hhd']; subst.
  inversion Hhd as [| ? ? Hprev]; subst.
  destruct (prev ==? y)%s eqn:Eeq.
  + apply s_eq_spec in Eeq. subst y.
    destruct (IH prev Htail Hhd') as [Hs [Hh [Hin Hout]]].
    repeat split; try assumption.
    * intros x Hx. right. apply Hin. exact Hx.
    * intros x [<- | Hx]; [left; reflexivity | apply Hout; exact Hx].
  + destruct (IH y Htail Hhd') as [Hs [Hh [Hin Hout]]].
    repeat split.
    * constructor; assumption.
    * constructor. apply not_above_and_different; assumption.
    * intros x [<- | Hx]; [left; reflexivity | right; apply Hin; exact Hx].
    * intros x [<- | Hx]; [right; left; reflexivity |].
      destruct (Hout x Hx) as [-> | Hx']; right; [left | right]; auto.
Qed.

Lemma unique_spec (l : list T) :
  Sorted not_above l ->
  Sorted below (unique l) /\ (forall x, In x (unique l) <-> In x l).
Proof.
destruct l as [| a l]; intros Hsorted; simpl.
- split; [constructor | tauto].
- inversion Hsorted as [| ? ? Htail Hhd]; subst.
  destruct (unique_from_spec l a Htail Hhd) as [Hs [Hh [Hin Hout]]].
  split; [constructor; assumption |].
  intros x. split.
  + intros [<- | Hx]; [left; reflexivity | right; apply Hin; exact Hx].
  + intros [<- | Hx]; [left; reflexivity |].
    destruct (Hout x Hx) as [-> | Hx']; [left | right]; auto.
Qed.

Lemma Sorted_below_strictly_increasing (l : list T) :
  Sorted below l <-> strictly_increasing l.
Proof.
induction l as [| a l IH].
- split; [intros _ i Hi; simpl in Hi; lia | constructor].
- split.
  + intros Hsorted. inversion Hsorted as [| ? ? Htail Hhd]; subst.
    intros [| i] Hi.
    * destruct l as [| b l]; [simpl in Hi; lia |].
      inversion Hhd; subst. assumption.
    * apply (proj1 IH Htail i). simpl in Hi. lia.
  + intros Hinc. constructor.
    * apply IH. exact (strictly_increasing_tail a l Hinc).
    * destruct l as [| b l]; constructor.
      apply (Hinc 0). simpl. lia.
Qed.

(** [makeuniquesorted] returns the strictly increasing list of the elements
    it was given. *)
Lemma makeuniquesorted_increasing (m : list T) :
  strictly_increasing (makeuniquesorted m).
Proof.
apply Sorted_below_strictly_increasing.
apply (unique_spec (sort m) (sort_Sorted m)).
Qed.

Lemma makeuniquesorted_In (m : list T) (x : T) :
  In x (makeuniquesorted m) <-> In x m.
Proof.
unfold makeuniquesorted.
rewrite (proj2 (unique_spec (sort m) (sort_Sorted m))). apply sort_In.
Qed.

Lemma head_below_tail (a : T) (l : list T) :
  strictly_increasing (a :: l) -> forall x, In x l -> (a <? x)%s = true.
Proof.
intros Hinc x Hx. destruct (In_nth l x (cast 0) Hx) as [i [Hi Ei]].
rewrite <- Ei.
apply (strictly_increasing_lt (a :: l) Hinc (S i) 0); simpl; lia.
Qed.

(** A strictly increasing list is determined by its elements. *)
Lemma strictly_increasing_unique (l1 : list T) :
  forall l2 : list T,
    strictly_increasing l1 -> strictly_increasing l2 ->
    (forall x, In x l1 <-> In x l2) -> l1 = l2.
Proof.
induction l1 as [| a l1 IH]; intros [| b l2] H1 H2 Hsame.
- reflexivity.
- exfalso. apply (proj2 (Hsame b)). left; reflexivity.
- exfalso. apply (proj1 (Hsame a)). left; reflexivity.
- assert (Hab : a = b).
  { destruct (proj1 (Hsame a) (or_introl eq_refl)) as [Hba | Ha]; [auto |].
    destruct (proj2 (Hsame b) (or_introl eq_refl)) as [Hab | Hb]; [auto |].
    pose proof (head_below_tail b l2 H2 a Ha) as Hlt1.
    pose proof (head_below_tail a l1 H1 b Hb) as Hlt2.
    apply s_lt_asym in Hlt1. congruence. }
  subst b. f_equal.
  apply IH; [exact (strictly_increasing_tail a l1 H1)
            | exact (strictly_increasing_tail a l2 H2) |].
  intros x. split; intros Hx.
  + destruct (proj1 (Hsame x) (or_intror Hx)) as [<- | Hx2]; [| exact Hx2].
    pose proof (head_below_tail a l1 H1 a Hx) as Hlt.
    rewrite s_lt_irrefl in Hlt. discriminate.
  + destruct (proj2 (Hsame x) (or_intror Hx)) as [<- | Hx1]; [| exact Hx1].
    pose proof (head_below_tail a l2 H2 a Hx) as Hlt.
    rewrite s_lt_irrefl in Hlt. discriminate.
Qed.

Lemma makeuniquesorted_is (l m : list T) :
  strictly_increasing l -> (forall x, In x l <-> In x m) ->
  makeuniquesorted m = l.
Proof.
intros Hinc Hsame.
apply strictly_increasing_unique;
  [apply makeuniquesorted_increasing | exact Hinc |].
intros x. rewrite makeuniquesorted_In. symmetry. apply Hsame.
Qed.


(** [std::find] on strictly increasing break points. *)
Lemma find_index_of_element (l : list T) :
  strictly_increasing l ->
  forall i, i < length l -> find_index l (get l i) = i.
Proof.
induction l as [| a l IH]; intros Hinc i Hi; [simpl in Hi; lia |].
destruct i as [| i]; simpl.
- unfold get. simpl.
  rewrite (proj2 (s_eq_spec a a) eq_refl). reflexivity.
- unfold get. simpl.
  assert (Hlt : (a <? nth i l (cast 0))%s = true).
  { apply (head_below_tail a l Hinc). apply nth_In. simpl in Hi. lia. }
  destruct (a ==? nth i l (cast 0))%s eqn:Eeq.
  + apply s_eq_spec in Eeq. rewrite <- Eeq, s_lt_irrefl in Hlt. discriminate.
  + f_equal. apply (IH (strictly_increasing_tail a l Hinc)). simpl in Hi. lia.
Qed.

Lemma find_index_absent (l : list T) (x : T) :
  ~ In x l -> find_index l x = length l.
Proof.
induction l as [| a l IH]; intros Hnot; simpl; [reflexivity |].
destruct (a ==? x)%s eqn:Eeq.
- apply s_eq_spec in Eeq. exfalso. apply Hnot. left. exact Eeq.
- f_equal. apply IH. intros Hx. apply Hnot. right. exact Hx.
Qed.

Lemma find_index_present (l : list T) (x : T) :
  In x l -> find_index l x < length l /\ get l (find_index l x) = x.
Proof.
induction l as [| a l IH]; intros Hx; [destruct Hx |]. simpl.
destruct (a ==? x)%s eqn:Eeq.
- apply s_eq_spec in Eeq. split; [lia | exact Eeq].
- destruct Hx as [Hax | Hx].
  + apply s_eq_spec in Hax. congruence.
  + destruct (IH Hx) as [Hlt Hget]. split; [lia | exact Hget].
Qed.
End Sorting.

(** ** Addition *)

Section Addition.
Context {T : Type} `{Scalar T} {TO : ScalarOrder T} {TR : ScalarRing T}.

Lemma map_coeffs_at_seq (cs : list (list T)) :
  map (coeffs_at cs) (seq 0 (length cs)) = cs.
Proof.
induction cs as [| c cs IH]; [reflexivity |].
simpl. f_equal. rewrite <- seq_shift, map_map. exact IH.
Qed.

Lemma spline_eta (this : myspline T) :
  {| order := order this; _intervals := _intervals this;
     _coefficients := _coefficients this |} = this.
Proof.
destruct this; reflexivity.
Qed.





Lemma coefficient_count (this : myspline T) :
  invariant this -> length (_intervals this) - 1 = length (_coefficients this).
Proof.
intros [_ [[-> ->] | [_ Hlen]]]; [reflexivity | lia].
Qed.



Lemma coeffs_at_scaled (cs : list (list T)) (d : T) (i : nat) :
  coeffs_at (map (map (fun c => (c * d)%s)) cs) i
  = map (fun c => (c * d)%s) (coeffs_at cs i).
Proof.
unfold coeffs_at.
exact (map_nth (map (fun c => (c * d)%s)) cs [] i).
Qed.


Lemma all_zero_isZero (r : myspline T) :
  Forall (Forall (fun c => c = cast 0)) (_coefficients r) -> isZero r = true.
Proof.
intros Hzero. unfold isZero.
destruct (length (_intervals r) =? 0); [reflexivity |].
apply forallb_forall. intros cs Hcs. apply forallb_forall. intros c Hc.
rewrite Forall_forall in Hzero. specialize (Hzero cs Hcs).
rewrite Forall_forall in Hzero. apply ne_false_iff, Hzero, Hc.
Qed.


End Addition.

(** ** Multiplication of two splines *)

Section Convolution.
Context {T : Type} `{Scalar T}.

Lemma get_set_same (l : list T) (i : nat) (v : T) :
  i < length l -> get (set l i v) i = v.
Proof.
revert i. induction l as [| a l IH]; intros [| i] Hi; simpl in *; try lia.
- reflexivity.
- apply IH. lia.
Qed.

Lemma get_set_other (l : list T) (i m : nat) (v : T) :
  i <> m -> get (set l i v) m = get l m.
Proof.
revert i m. induction l as [| a l IH]; intros [| i] [| m] Hne;
  simpl; try reflexivity; try lia.
apply IH. lia.
Qed.

Lemma get_all (l : list T) : map (get l) (seq 0 (length l)) = l.
Proof.
induction l as [| c l IH]; [reflexivity |].
simpl. rewrite <- seq_shift, map_map. f_equal. exact IH.
Qed.

Lemma fold_set_length {A} (f : list T -> A -> nat) (g : list T -> A -> T)
      (l : list A) (c : list T) :
  length (fold_left (fun c k => set c (f c k) (g c k)) l c) = length c.
Proof.
revert c. induction l as [| k l IH]; intros c; simpl; [reflexivity |].
rewrite IH. apply set_length.
Qed.

Variables (ca cb : list T) (oa : nat).

(** The inner loop for one [j], as far as [k < K]. *)
Lemma inner_loop_entry (j : nat) (c : list T) (m : nat) :
  forall K : nat,
    j + K <= length c ->
    get (fold_left
           (fun c k => set c (j + k) (get c (j + k) + get ca j * get cb k)%s)
           (seq 0 K) c) m
    = if (j <=? m) && (m - j <? K)
      then (get c m + get ca j * get cb (m - j))%s
      else get c m.
Proof.
induction K as [| K IH]; intros HK.
- simpl. rewrite andb_false_r. reflexivity.
- rewrite seq_S, fold_left_app. simpl.
  set (c' := fold_left _ (seq 0 K) c) in *.
  assert (Hlen : length c' = length c)
    by (apply (fold_set_length
                 (fun _ k => j + k)
                 (fun c k => (get c (j + k) + get ca j * get cb k)%s))).
  destruct (Nat.eq_dec (j + K) m) as [<- | Hne].
  + rewrite get_set_same by lia.
    rewrite IH by lia.
    replace (j + K - j) with K by lia.
    rewrite Nat.ltb_irrefl, andb_false_r.
    destruct (j <=? j + K) eqn:E1; [| apply Nat.leb_gt in E1; lia].
    destruct (K <? S K) eqn:E2; [| apply Nat.ltb_ge in E2; lia].
    reflexivity.
  + rewrite get_set_other by exact Hne.
    rewrite IH by lia.
    destruct (j <=? m) eqn:E1; simpl; [| reflexivity].
    apply Nat.leb_le in E1.
    destruct (m - j <? K) eqn:E2, (m - j <? S K) eqn:E3; try reflexivity.
    * apply Nat.ltb_lt in E2. apply Nat.ltb_ge in E3. lia.
    * apply Nat.ltb_ge in E2. apply Nat.ltb_lt in E3. lia.
Qed.

(** The two loops together, as far as [j < J]. *)
Lemma outer_loop_entry (c : list T) (m : nat) :
  forall J : nat,
    J + oa <= length c ->
    get (fold_left
           (fun c j =>
              fold_left
                (fun c k =>
                   set c (j + k) (get c (j + k) + get ca j * get cb k)%s)
                (seq 0 (oa + 1)) c)
           (seq 0 J) c) m
    = fold_left
        (fun acc j =>
           if (j <=? m) && (m - j <=? oa)
           then (acc + get ca j * get cb (m - j))%s else acc)
        (seq 0 J) (get c m).
Proof.
induction J as [| J IH]; intros HJ; [reflexivity |].
rewrite !seq_S, !fold_left_app. simpl.
set (c' := fold_left _ (seq 0 J) c) in *.
assert (Hlen : length c' = length c).
{ subst c'. clear. generalize c. induction (seq 0 J) as [| j l IHl];
    intros c0; simpl; [reflexivity |].
  rewrite IHl.
  apply (fold_set_length
           (fun _ k => j + k)
           (fun c k => (get c (j + k) + get ca j * get cb k)%s)). }
rewrite inner_loop_entry by lia.
rewrite IH by lia.
replace (m - J <? oa + 1) with (m - J <=? oa); [reflexivity |].
destruct (m - J <=? oa) eqn:E1, (m - J <? oa + 1) eqn:E2; try reflexivity.
- apply Nat.leb_le in E1. apply Nat.ltb_ge in E2. lia.
- apply Nat.leb_gt in E1. apply Nat.ltb_lt in E2. lia.
Qed.
End Convolution.

Section Product.
Context {T : Type} `{Scalar T} {TO : ScalarOrder T} {TR : ScalarRing T}.

Lemma get_zeros (n m : nat) : get (make_array n (@cast T _ 0)) m = cast 0.
Proof.
unfold get, make_array. revert m.
induction n as [| n IH]; intros [| m]; simpl; try reflexivity. apply IH.
Qed.

(** The array the two loops leave is the discrete convolution. *)
Lemma convolve_entry (o oa : nat) (ca cb : list T) (m : nat) :
  get (convolve o oa ca cb) m = convolution_entry o oa ca cb m.
Proof.
unfold convolve, convolution_entry.
rewrite outer_loop_entry
  by (unfold make_array; rewrite repeat_length; lia).
rewrite get_zeros. reflexivity.
Qed.

Lemma convolve_length (o oa : nat) (ca cb : list T) :
  length (convolve o oa ca cb) = o + oa + 1.
Proof.
unfold convolve.
assert (Hgen : forall (l : list nat) (c : list T),
           length (fold_left
                     (fun c j =>
                        fold_left
                          (fun c k =>
                             set c (j + k)
                                 (get c (j + k) + get ca j * get cb k)%s)
                          (seq 0 (oa + 1)) c) l c) = length c).
{ induction l as [| j l IH]; intros c; simpl; [reflexivity |].
  rewrite IH.
  apply (fold_set_length
           (fun _ k => j + k)
           (fun c k => (get c (j + k) + get ca j * get cb k)%s)). }
rewrite Hgen. unfold make_array. apply repeat_length.
Qed.

(** A zero factor gives zero entries. *)
Lemma convolution_entry_zero (o oa : nat) (ca cb : list T) (m : nat) :
  (forall j, get ca j = cast 0) \/ (forall k, get cb k = cast 0) ->
  convolution_entry o oa ca cb m = cast 0.
Proof.
intros Hzero. unfold convolution_entry.
induction (seq 0 (o + 1)) as [| j l IH] using rev_ind; [reflexivity |].
rewrite fold_left_app. simpl. rewrite IH.
destruct ((j <=? m) && (m - j <=? oa)); [| reflexivity].
rewrite s_add_0_l.
destruct Hzero as [Ha | Hb];
  [rewrite Ha; apply s_mul_0_l | rewrite Hb; apply s_mul_0_r].
Qed.
End Product.

Section Times.
Context {T : Type} `{Scalar T} {TO : ScalarOrder T} {TR : ScalarRing T}.

Lemma get_run (before run after : list T) (i : nat) :
  i < length run -> get (before ++ run ++ after) (length before + i) = get run i.
Proof.
intros Hi. unfold get. rewrite app_nth2_plus. apply app_nth1. exact Hi.
Qed.

Lemma index_le_value_le (g : list T) (i j : nat) :
  strictly_increasing g -> i <= j -> j < length g ->
  (get g i <=? get g j)%s = true.
Proof.
intros Hinc Hij Hj. rewrite s_le_lt.
destruct (Nat.eq_dec i j) as [-> | Hne].
- rewrite s_lt_irrefl. reflexivity.
- rewrite (s_lt_asym (get g i) (get g j)); [reflexivity |].
  apply strictly_increasing_lt; [exact Hinc | lia | lia].
Qed.

Lemma value_le_index_le (g : list T) (i j : nat) :
  strictly_increasing g -> i < length g -> j < length g ->
  (get g i <=? get g j)%s = true -> i <= j.
Proof.
intros Hinc Hi Hj Hle. rewrite s_le_lt in Hle.
destruct (Nat.le_gt_cases i j) as [Hij | Hji]; [exact Hij |].
rewrite (strictly_increasing_lt g Hinc i j Hji Hi) in Hle. discriminate.
Qed.

Lemma nth_map_seq {A} (f : nat -> A) (n i : nat) (d : A) :
  i < n -> nth i (map f (seq 0 n)) d = f i.
Proof.
intros Hi. rewrite (nth_indep _ d (f 0)) by (rewrite length_map, length_seq; lia).
rewrite map_nth, seq_nth by lia. reflexivity.
Qed.

Lemma checkOverlap_true_inv (this m2 : myspline T) :
  checkOverlap this m2 = true ->
  _intervals this <> [] /\ _intervals m2 <> []
  /\ (back (_intervals m2) <=? front (_intervals this))%s = false
  /\ (front (_intervals m2) >=? back (_intervals this))%s = false.
Proof.
unfold checkOverlap.
destruct (_intervals this) as [| x1 l1]; [discriminate |].
destruct (_intervals m2) as [| x2 l2]; [discriminate |].
intros Hover. apply negb_true_iff, orb_false_iff in Hover.
destruct Hover as [Hback Hfront].
repeat split; try discriminate; assumption.
Qed.

Lemma nonempty_has_two_points (this : myspline T) :
  invariant this -> _intervals this <> [] -> 2 <= length (_intervals this).
Proof.
intros [_ [[Hnil _] | [Hlen _]]] Hne; [contradiction | exact Hlen].
Qed.

(** On a common grid the search for the overlap finds the two first
    indices and the number of shared intervals, and the break points agree
    index for index. *)
Lemma findOverlappingIntervals_on_grid (g : list T) (this a : myspline T) :
  strictly_increasing g -> invariant this -> invariant a ->
  on_grid g this -> on_grid g a ->
  checkOverlap this a = true ->
  exists s1 s2 n : nat,
    findOverlappingIntervals this a = Ok (s1, s2, n)
    /\ 1 <= n
    /\ s1 + n < length (_intervals this)
    /\ s2 + n < length (_intervals a)
    /\ (s1 = 0 \/ s2 = 0)
    /\ (s1 + n + 1 = length (_intervals this)
        \/ s2 + n + 1 = length (_intervals a))
    /\ (forall i, i <= n ->
                  get (_intervals this) (s1 + i) = get (_intervals a) (s2 + i)).
Proof.
intros Hg Hinv1 Hinv2 [pre1 [post1 Hg1]] [pre2 [post2 Hg2]] Hover.
destruct (checkOverlap_true_inv this a Hover) as [Hne1 [Hne2 [Hback Hfront]]].
pose proof (nonempty_has_two_points this Hinv1 Hne1) as Hn1.
pose proof (nonempty_has_two_points a Hinv2 Hne2) as Hn2.
pose proof Hinv1 as [Hinc1 _]. pose proof Hinv2 as [Hinc2 _].
set (I1 := _intervals this) in *. set (I2 := _intervals a) in *.
assert (Hlen1 : length g = length pre1 + length I1 + length post1)
  by (rewrite Hg1, !length_app; lia).
assert (Hlen2 : length g = length pre2 + length I2 + length post2)
  by (rewrite Hg2, !length_app; lia).
assert (Hget1 : forall i, i < length I1 -> get I1 i = get g (length pre1 + i))
  by (intros i Hi; rewrite Hg1; symmetry; apply get_run; exact Hi).
assert (Hget2 : forall i, i < length I2 -> get I2 i = get g (length pre2 + i))
  by (intros i Hi; rewrite Hg2; symmetry; apply get_run; exact Hi).
rewrite back_is_last_element, front_is_first_element in Hback.
unfold s_ge in Hfront.
rewrite back_is_last_element, front_is_first_element in Hfront.
rewrite Hget1, Hget2 in Hback by lia. rewrite Hget1, Hget2 in Hfront by lia.
assert (Hlow : length pre1 < length pre2 + (length I2 - 1)).
{ destruct (Nat.le_gt_cases (length pre2 + (length I2 - 1)) (length pre1))
    as [Hle | Hlt]; [| exact Hlt].
  rewrite index_le_value_le in Hback; [discriminate | exact Hg | lia | lia]. }
assert (Hhigh : length pre2 < length pre1 + (length I1 - 1)).
{ destruct (Nat.le_gt_cases (length pre1 + (length I1 - 1)) (length pre2))
    as [Hle | Hlt]; [| exact Hlt].
  rewrite index_le_value_le in Hfront; [discriminate | exact Hg | lia | lia]. }
unfold findOverlappingIntervals. rewrite Hover. simpl. fold I1 I2.
rewrite !front_is_first_element.
destruct (get I2 0 <=? get I1 0)%s eqn:Efirst.
- assert (Hpre : length pre2 <= length pre1).
  { rewrite Hget1, Hget2 in Efirst by lia. rewrite !Nat.add_0_r in Efirst.
    apply (value_le_index_le g _ _ Hg); [lia | lia | exact Efirst]. }
  assert (Hfind : find_index I2 (get I1 0) = length pre1 - length pre2).
  { rewrite Hget1 by lia.
    replace (length pre1 + 0)
      with (length pre2 + (length pre1 - length pre2)) by lia.
    rewrite <- Hget2 by lia.
    apply find_index_of_element; [exact Hinc2 | lia]. }
  rewrite Hfind.
  destruct (length pre1 - length pre2 + 2 <=? length I2) eqn:Eassert;
    [| apply Nat.leb_gt in Eassert; lia].
  simpl. eexists 0, _, _. split; [reflexivity |].
  split; [lia |]. split; [lia |]. split; [lia |].
  split; [left; reflexivity |]. split; [lia |].
  intros i Hi. rewrite Hget1, Hget2 by lia. f_equal. lia.
- assert (Hpre : length pre1 < length pre2).
  { destruct (Nat.le_gt_cases (length pre2) (length pre1)) as [Hle | Hlt];
      [| exact Hlt].
    rewrite Hget1, Hget2 in Efirst by lia. rewrite !Nat.add_0_r in Efirst.
    rewrite index_le_value_le in Efirst;
      [discriminate | exact Hg | lia | lia]. }
  assert (Hfind : find_index I1 (get I2 0) = length pre2 - length pre1).
  { rewrite Hget2 by lia.
    replace (length pre2 + 0)
      with (length pre1 + (length pre2 - length pre1)) by lia.
    rewrite <- Hget1 by lia.
    apply find_index_of_element; [exact Hinc1 | lia]. }
  rewrite Hfind.
  destruct (length pre2 - length pre1 + 2 <=? length I1) eqn:Eassert;
    [| apply Nat.leb_gt in Eassert; lia].
  simpl. eexists _, 0, _. split; [reflexivity |].
  split; [lia |]. split; [lia |]. split; [lia |].
  split; [right; reflexivity |]. split; [lia |].
  intros i Hi. rewrite Hget1, Hget2 by lia. f_equal. lia.
Qed.

(** The same search, read on the grid: with the first break points of the
    two splines at the grid indices [length pre1] and [length pre2], the
    shared run starts at the larger of the two and ends where the first of
    the two supports ends. *)
Lemma findOverlappingIntervals_positions
      (g pre1 post1 pre2 post2 : list T) (this a : myspline T) :
  strictly_increasing g -> invariant this -> invariant a ->
  g = pre1 ++ _intervals this ++ post1 ->
  g = pre2 ++ _intervals a ++ post2 ->
  checkOverlap this a = true ->
  findOverlappingIntervals this a
  = Ok (Nat.max (length pre1) (length pre2) - length pre1,
        Nat.max (length pre1) (length pre2) - length pre2,
        Nat.min (length pre1 + length (_intervals this))
                (length pre2 + length (_intervals a))
        - Nat.max (length pre1) (length pre2) - 1)
  /\ Nat.max (length pre1) (length pre2) + 1
     < Nat.min (length pre1 + length (_intervals this))
               (length pre2 + length (_intervals a)).
Proof.
intros Hg Hinv1 Hinv2 Hg1 Hg2 Hover.
destruct (checkOverlap_true_inv this a Hover) as [Hne1 [Hne2 [Hback Hfront]]].
pose proof (nonempty_has_two_points this Hinv1 Hne1) as Hn1.
pose proof (nonempty_has_two_points a Hinv2 Hne2) as Hn2.
pose proof Hinv1 as [Hinc1 _]. pose proof Hinv2 as [Hinc2 _].
set (I1 := _intervals this) in *. set (I2 := _intervals a) in *.
assert (Hlen1 : length g = length pre1 + length I1 + length post1)
  by (rewrite Hg1, !length_app; lia).
assert (Hlen2 : length g = length pre2 + length I2 + length post2)
  by (rewrite Hg2, !length_app; lia).
assert (Hget1 : forall i, i < length I1 -> get I1 i = get g (length pre1 + i))
  by (intros i Hi; rewrite Hg1; symmetry; apply get_run; exact Hi).
assert (Hget2 : forall i, i < length I2 -> get I2 i = get g (length pre2 + i))
  by (intros i Hi; rewrite Hg2; symmetry; apply get_run; exact Hi).
rewrite back_is_last_element, front_is_first_element in Hback.
unfold s_ge in Hfront.
rewrite back_is_last_element, front_is_first_element in Hfront.
rewrite Hget1, Hget2 in Hback by lia. rewrite Hget1, Hget2 in Hfront by lia.
assert (Hlow : length pre1 < length pre2 + (length I2 - 1)).
{ destruct (Nat.le_gt_cases (length pre2 + (length I2 - 1)) (length pre1))
    as [Hle | Hlt]; [| exact Hlt].
  rewrite index_le_value_le in Hback; [discriminate | exact Hg | lia | lia]. }
assert (Hhigh : length pre2 < length pre1 + (length I1 - 1)).
{ destruct (Nat.le_gt_cases (length pre1 + (length I1 - 1)) (length pre2))
    as [Hle | Hlt]; [| exact Hlt].
  rewrite index_le_value_le in Hfront; [discriminate | exact Hg | lia | lia]. }
split; [| lia].
unfold findOverlappingIntervals. rewrite Hover. simpl. fold I1 I2.
rewrite !front_is_first_element.
destruct (get I2 0 <=? get I1 0)%s eqn:Efirst.
- assert (Hpre : length pre2 <= length pre1).
  { rewrite Hget1, Hget2 in Efirst by lia. rewrite !Nat.add_0_r in Efirst.
    apply (value_le_index_le g _ _ Hg); [lia | lia | exact Efirst]. }
  assert (Hfind : find_index I2 (get I1 0) = length pre1 - length pre2).
  { rewrite Hget1 by lia.
    replace (length pre1 + 0)
      with (length pre2 + (length pre1 - length pre2)) by lia.
    rewrite <- Hget2 by lia.
    apply find_index_of_element; [exact Hinc2 | lia]. }
  rewrite Hfind.
  destruct (length pre1 - length pre2 + 2 <=? length I2) eqn:Eassert;
    [| apply Nat.leb_gt in Eassert; lia].
  simpl. apply f_equal. apply f_equal2; [apply f_equal2 |]; lia.
- assert (Hpre : length pre1 < length pre2).
  { destruct (Nat.le_gt_cases (length pre2) (length pre1)) as [Hle | Hlt];
      [| exact Hlt].
    rewrite Hget1, Hget2 in Efirst by lia. rewrite !Nat.add_0_r in Efirst.
    rewrite index_le_value_le in Efirst;
      [discriminate | exact Hg | lia | lia]. }
  assert (Hfind : find_index I1 (get I2 0) = length pre2 - length pre1).
  { rewrite Hget2 by lia.
    replace (length pre2 + 0)
      with (length pre1 + (length pre2 - length pre1)) by lia.
    rewrite <- Hget1 by lia.
    apply find_index_of_element; [exact Hinc1 | lia]. }
  rewrite Hfind.
  destruct (length pre2 - length pre1 + 2 <=? length I1) eqn:Eassert;
    [| apply Nat.leb_gt in Eassert; lia].
  simpl. apply f_equal. apply f_equal2; [apply f_equal2 |]; lia.
Qed.

(** Two supports on a grid overlap, for [checkOverlap], exactly when they
    share an interval of the grid. *)
Lemma checkOverlap_on_grid
      (g pre1 post1 pre2 post2 : list T) (this a : myspline T) :
  strictly_increasing g -> invariant this -> invariant a ->
  g = pre1 ++ _intervals this ++ post1 ->
  g = pre2 ++ _intervals a ++ post2 ->
  Nat.max (length pre1) (length pre2) + 1
  < Nat.min (length pre1 + length (_intervals this))
            (length pre2 + length (_intervals a)) ->
  checkOverlap this a = true.
Proof.
intros Hg Hinv1 Hinv2 Hg1 Hg2 Hshared.
assert (Hne1 : _intervals this <> [])
  by (intros Hnil; rewrite Hnil in Hshared; simpl in Hshared; lia).
assert (Hne2 : _intervals a <> [])
  by (intros Hnil; rewrite Hnil in Hshared; simpl in Hshared; lia).
pose proof (nonempty_has_two_points this Hinv1 Hne1) as Hn1.
pose proof (nonempty_has_two_points a Hinv2 Hne2) as Hn2.
assert (Hlen1 : length g
                = length pre1 + length (_intervals this) + length post1)
  by (rewrite Hg1 at 1; rewrite !length_app; lia).
assert (Hlen2 : length g
                = length pre2 + length (_intervals a) + length post2)
  by (rewrite Hg2 at 1; rewrite !length_app; lia).
assert (Hget1 : forall i, i < length (_intervals this) ->
                          get (_intervals this) i = get g (length pre1 + i))
  by (intros i Hi; rewrite Hg1 at 1; symmetry; apply get_run; exact Hi).
assert (Hget2 : forall i, i < length (_intervals a) ->
                          get (_intervals a) i = get g (length pre2 + i))
  by (intros i Hi; rewrite Hg2 at 1; symmetry; apply get_run; exact Hi).
unfold checkOverlap.
destruct (_intervals this) as [| x1 l1] eqn:E1; [contradiction |].
destruct (_intervals a) as [| x2 l2] eqn:E2; [contradiction |].
rewrite <- E1, <- E2 in *.
apply negb_true_iff, orb_false_iff. unfold s_ge.
rewrite !back_is_last_element, !front_is_first_element.
rewrite !Hget1, !Hget2 by lia. rewrite !s_le_lt, !negb_false_iff.
split; apply strictly_increasing_lt; try exact Hg; lia.
Qed.

Lemma map_seq_from {A} (f : nat -> A) (n : nat) :
  forall lo : nat, map f (seq lo n) = map (fun i => f (lo + i)) (seq 0 n).
Proof.
induction n as [| n IH]; intros lo; [reflexivity |].
cbn [seq map]. rewrite Nat.add_0_r. f_equal.
rewrite IH, <- seq_shift, map_map. apply map_ext. intros i.
f_equal. lia.
Qed.

Lemma isZero_entries (this : myspline T) :
  isZero this = true -> _intervals this <> [] ->
  forall k j, get (coeffs_at (_coefficients this) k) j = cast 0.
Proof.
unfold isZero. intros Hzero Hne k j.
destruct (length (_intervals this) =? 0) eqn:Elen.
- apply Nat.eqb_eq, length_zero_iff_nil in Elen. contradiction.
- rewrite forallb_forall in Hzero. unfold coeffs_at, get.
  destruct (nth_in_or_default k (_coefficients this) []) as [Hin | ->];
    [| destruct j; reflexivity].
  specialize (Hzero _ Hin). rewrite forallb_forall in Hzero.
  destruct (nth_in_or_default j (nth k (_coefficients this) []) (cast 0))
    as [Hin' | ->]; [| reflexivity].
  apply ne_false_iff, Hzero, Hin'.
Qed.

Lemma all_entries_zero (l : list T) :
  (forall m, get l m = cast 0) -> Forall (fun c => c = cast 0) l.
Proof.
intros Hall. apply Forall_forall. intros x Hx.
destruct (In_nth l x (cast 0) Hx) as [i [_ <-]]. apply Hall.
Qed.

(** Once the overlap is found the product is built from the break points
    of the first factor. *)
Lemma times_with_overlap (this a : myspline T) (s1 s2 n : nat) :
  invariant this ->
  findOverlappingIntervals this a = Ok (s1, s2, n) ->
  1 <= n -> s1 + n < length (_intervals this) ->
  times this a
  = Ok {| order := order this + order a;
          _intervals :=
            get (_intervals this) s1
            :: map (fun i => get (_intervals this) (s1 + i + 1)) (seq 0 n);
          _coefficients :=
            map (fun i => convolve (order this) (order a)
                                   (coeffs_at (_coefficients this) (i + s1))
                                   (coeffs_at (_coefficients a) (i + s2)))
                (seq 0 n) |}.
Proof.
intros [Hinc _] Hfound Hn Hs1. unfold times. rewrite Hfound. simpl.
destruct (n =? 0) eqn:En; [apply Nat.eqb_eq in En; lia |].
apply construct_Ok.
- intros i Hi. simpl in Hi. rewrite length_map, length_seq in Hi.
  assert (Hnew : forall k, k <= n ->
             get (get (_intervals this) s1
                  :: map (fun i => get (_intervals this) (s1 + i + 1))
                         (seq 0 n)) k
             = get (_intervals this) (s1 + k)).
  { intros [| k] Hk; unfold get; simpl.
    - rewrite Nat.add_0_r. reflexivity.
    - rewrite nth_map_seq by lia. f_equal. lia. }
  rewrite !Hnew by lia.
  replace (s1 + (i + 1)) with (s1 + i + 1) by lia.
  apply Hinc. lia.
- right. simpl. rewrite !length_map, !length_seq. lia.
Qed.

(** On a common grid the product is always formed. *)
Lemma times_succeeds (g : list T) (this a : myspline T) :
  strictly_increasing g -> invariant this -> invariant a ->
  on_grid g this -> on_grid g a ->
  exists r, times this a = Ok r /\ invariant r.
Proof.
intros Hg Hinv1 Hinv2 Hon1 Hon2.
destruct (checkOverlap this a) eqn:Hover.
- destruct (findOverlappingIntervals_on_grid g this a Hg Hinv1 Hinv2 Hon1 Hon2
              Hover) as [s1 [s2 [n [Hfound [Hn [Hs1 _]]]]]].
  pose proof (times_with_overlap this a s1 s2 n Hinv1 Hfound Hn Hs1) as Htimes.
  eexists. split; [exact Htimes |].
  unfold times in Htimes. rewrite Hfound in Htimes. simpl in Htimes.
  destruct (n =? 0) eqn:En; [apply Nat.eqb_eq in En; lia |].
  exact (proj2 (construct_Ok_inv _ _ _ _ Htimes)).
- exists (default (order this + order a)). split; [| apply default_invariant].
  unfold times, findOverlappingIntervals. rewrite Hover. reflexivity.
Qed.

(** C2. For two splines on a common grid the product is formed; its order is
    the sum of the orders and every coefficient array has that many entries
    plus one; it has one interval for each interval the supports share (the
    shared run starts where the later support starts and ends where the
    earlier one ends), with the break points of both factors; on each of
    them the coefficients are
    the discrete convolution of the coefficients of the factors; and when a
    factor is zero or the supports do not overlap the product is zero.
    The number of intervals is fixed by the grid alone: with the supports at
    the grid indices [length pre1] and [length pre2], it is the number of
    grid intervals between the larger of the two first indices and the
    smaller of the two ends; it is at least one exactly when [checkOverlap]
    holds, and the break points of the product are then that run of grid
    points. *)
Theorem times_order_convolution_zero :
  forall (g : list T) (this a : myspline T),
    strictly_increasing g -> invariant this -> invariant a ->
    on_grid g this -> on_grid g a ->
    exists (r : myspline T) (s1 s2 n : nat),
      times this a = Ok r
      /\ findOverlappingIntervals this a = Ok (s1, s2, n)
      /\ order r = order this + order a
      /\ arrays_sized (order this + order a + 1) (_coefficients r)
      /\ length (_coefficients r) = n
      /\ (1 <= n ->
          (s1 = 0 \/ s2 = 0)
          /\ (s1 + n + 1 = length (_intervals this)
              \/ s2 + n + 1 = length (_intervals a))
          /\ forall i, i <= n ->
                       get (_intervals r) i = get (_intervals this) (s1 + i)
                       /\ get (_intervals r) i = get (_intervals a) (s2 + i))
      /\ (forall i m,
             i < n ->
             get (coeffs_at (_coefficients r) i) m
             = convolution_entry
                 (order this) (order a)
                 (coeffs_at (_coefficients this) (s1 + i))
                 (coeffs_at (_coefficients a) (s2 + i)) m)
      /\ (isZero this = true \/ isZero a = true \/ checkOverlap this a = false ->
          isZero r = true)
      /\ (checkOverlap this a = true <-> 1 <= n)
      /\ (forall pre1 post1 pre2 post2 : list T,
             g = pre1 ++ _intervals this ++ post1 ->
             g = pre2 ++ _intervals a ++ post2 ->
             let first := Nat.max (length pre1) (length pre2) in
             let beyond := Nat.min (length pre1 + length (_intervals this))
                                   (length pre2 + length (_intervals a)) in
             n = beyond - first - 1
             /\ (1 <= n ->
                 s1 = first - length pre1
                 /\ s2 = first - length pre2
                 /\ _intervals r = map (get g) (seq first (n + 1)))).
Proof.
intros g this a Hg Hinv1 Hinv2 Hon1 Hon2.
destruct (checkOverlap this a) eqn:Hover.
- destruct (findOverlappingIntervals_on_grid g this a Hg Hinv1 Hinv2 Hon1 Hon2
              Hover)
    as [s1 [s2 [n [Hfound [Hn [Hs1 [Hs2 [Hstart [Hend Hsame]]]]]]]]].
  destruct (checkOverlap_true_inv this a Hover) as [Hne1 [Hne2 _]].
  pose proof Hinv1 as [Hinc1 _].
  set (new_intervals :=
         get (_intervals this) s1
         :: map (fun i => get (_intervals this) (s1 + i + 1)) (seq 0 n)).
  set (new_coefficients :=
         map (fun i => convolve (order this) (order a)
                                (coeffs_at (_coefficients this) (i + s1))
                                (coeffs_at (_coefficients a) (i + s2)))
             (seq 0 n)).
  assert (Hnew : forall i, i <= n ->
                           get new_intervals i = get (_intervals this) (s1 + i)).
  { intros [| i] Hi; unfold new_intervals, get; simpl.
    - rewrite Nat.add_0_r. reflexivity.
    - rewrite nth_map_seq by lia. f_equal. lia. }
  assert (Hcoeff : forall i, i < n ->
             coeffs_at new_coefficients i
             = convolve (order this) (order a)
                        (coeffs_at (_coefficients this) (s1 + i))
                        (coeffs_at (_coefficients a) (s2 + i))).
  { intros i Hi. unfold coeffs_at at 1, new_coefficients.
    rewrite nth_map_seq by exact Hi.
    rewrite (Nat.add_comm i s1), (Nat.add_comm i s2). reflexivity. }
  exists {| order := order this + order a; _intervals := new_intervals;
            _coefficients := new_coefficients |}, s1, s2, n.
  assert (Htimes : times this a
                   = Ok {| order := order this + order a;
                           _intervals := new_intervals;
                           _coefficients := new_coefficients |})
    by (apply times_with_overlap; assumption).
  split; [exact Htimes |]. split; [exact Hfound |].
  split; [reflexivity |]. simpl.
  split.
  { apply Forall_forall. intros c Hc. unfold new_coefficients in Hc.
    apply in_map_iff in Hc. destruct Hc as [i [<- _]]. apply convolve_length. }
  split; [unfold new_coefficients; rewrite length_map, length_seq; reflexivity |].
  split.
  { intros _. split; [exact Hstart |]. split; [exact Hend |].
    intros i Hi. rewrite Hnew by exact Hi.
    split; [reflexivity | apply Hsame; exact Hi]. }
  split.
  { intros i m Hi. rewrite Hcoeff by exact Hi. apply convolve_entry. }
  split.
  { intros Hzero.
    assert (Hfactor :
              (forall k j, get (coeffs_at (_coefficients this) k) j = cast 0)
              \/ (forall k j, get (coeffs_at (_coefficients a) k) j = cast 0)).
    { destruct Hzero as [Hz | [Hz | Hz]]; [left | right | discriminate];
        apply isZero_entries; assumption. }
    apply all_zero_isZero. simpl.
    apply Forall_forall. intros c Hc. unfold new_coefficients in Hc.
    apply in_map_iff in Hc. destruct Hc as [i [<- _]].
    apply all_entries_zero. intros m. rewrite convolve_entry.
    apply convolution_entry_zero.
    destruct Hfactor as [Hz | Hz]; [left | right]; intros j; apply Hz. }
  split; [split; [intros _; exact Hn | reflexivity] |].
  intros pre1 post1 pre2 post2 Hg1 Hg2. cbv zeta.
  destruct (findOverlappingIntervals_positions
              g pre1 post1 pre2 post2 this a Hg Hinv1 Hinv2 Hg1 Hg2 Hover)
    as [Hpos Hshared].
  rewrite Hfound in Hpos. injection Hpos as Es1 Es2 En.
  split; [exact En |]. intros _.
  split; [exact Es1 |]. split; [exact Es2 |].
  assert (Hget1 : forall i, i < length (_intervals this) ->
                            get (_intervals this) i = get g (length pre1 + i))
    by (intros i Hi; rewrite Hg1 at 1; symmetry; apply get_run; exact Hi).
  cbn [_intervals]. unfold new_intervals.
  rewrite Nat.add_1_r.
  rewrite (map_seq_from (get g) (S n) (Nat.max (length pre1) (length pre2))).
  cbn [seq map]. f_equal.
  + rewrite Hget1 by lia. f_equal. lia.
  + rewrite <- seq_shift, map_map. apply map_ext_in. intros i Hi.
    apply in_seq in Hi. rewrite Hget1 by lia. f_equal. lia.
- exists (default (order this + order a)), 0, 0, 0.
  assert (Hfound : findOverlappingIntervals this a = Ok (0, 0, 0))
    by (unfold findOverlappingIntervals; rewrite Hover; reflexivity).
  split; [unfold times; rewrite Hfound; reflexivity |].
  split; [exact Hfound |]. split; [reflexivity |].
  split; [constructor |]. split; [reflexivity |].
  split; [intros Hn; lia |]. split; [intros i m Hi; lia |].
  split; [intros _; reflexivity |].
  split; [split; [discriminate | intros Hn; lia] |].
  intros pre1 post1 pre2 post2 Hg1 Hg2. cbv zeta.
  split; [| intros Hn; lia].
  destruct (Nat.lt_ge_cases
              (Nat.max (length pre1) (length pre2) + 1)
              (Nat.min (length pre1 + length (_intervals this))
                       (length pre2 + length (_intervals a))))
    as [Hshared | Hnone]; [| lia].
  rewrite (checkOverlap_on_grid g pre1 post1 pre2 post2 this a
             Hg Hinv1 Hinv2 Hg1 Hg2 Hshared) in Hover.
  discriminate.
Qed.
End Times.

(** ** Restricting the support *)

Section RestrictSupport.
Context {T : Type} `{Scalar T} {TO : ScalarOrder T}.
Variable this : myspline T.
Variables x0 x1 : T.
Hypothesis Hinv : invariant this.

Local Abbreviation ints := (_intervals this).
Local Abbreviation keep i :=
  ((get (_intervals this) i >=? x0)%s && (get (_intervals this) (i + 1) <=? x1)%s).

Lemma ge_then_lt (a b : T) :
  (a >=? x0)%s = true -> (a <? b)%s = true -> (b >=? x0)%s = true.
Proof.
unfold s_ge. rewrite !s_le_lt, !negb_true_iff. intros Ha Hab.
destruct (b <? x0)%s eqn:Eb; [| reflexivity].
rewrite (s_lt_trans a b x0 Hab Eb) in Ha. discriminate.
Qed.

Lemma gt_then_le (a b : T) :
  (a >? x1)%s = true -> (b <? a)%s = false -> (b <=? x1)%s = false.
Proof.
unfold s_gt. rewrite s_le_lt, negb_false_iff. intros Ha Hba.
destruct (a <? b)%s eqn:Eab; [exact (s_lt_trans x1 a b Ha Eab) |].
rewrite (s_lt_total b a Hba Eab). exact Ha.
Qed.

Lemma keep_stops (m : nat) :
  m + 1 < length ints ->
  (length ints <=? m + 2) || (get ints (m + 2) >? x1)%s = true ->
  forall j, m + 1 <= j -> j + 1 < length ints -> keep j = false.
Proof.
intros Hm Hlast j Hj Hjn. apply andb_false_iff. right.
apply orb_true_iff in Hlast. destruct Hlast as [Hend | Habove];
  [apply Nat.leb_le in Hend; lia |].
apply (gt_then_le (get ints (m + 2))); [exact Habove |].
destruct Hinv as [Hinc _].
destruct (Nat.eq_dec (j + 1) (m + 2)) as [-> | Hne]; [apply s_lt_irrefl |].
apply s_lt_asym, strictly_increasing_lt; [exact Hinc | lia | lia].
Qed.

Lemma keep_goes_on (m : nat) :
  m + 1 < length ints -> keep m = true ->
  (length ints <=? m + 2) || (get ints (m + 2) >? x1)%s = false ->
  m + 2 < length ints /\ keep (m + 1) = true.
Proof.
intros Hm Hkeep Hlast. apply orb_false_iff in Hlast.
destruct Hlast as [Hend Habove]. apply Nat.leb_gt in Hend.
split; [exact Hend |].
apply andb_true_iff in Hkeep. destruct Hkeep as [Hlow _].
apply andb_true_iff. split.
- apply (ge_then_lt (get ints m)); [exact Hlow |].
  destruct Hinv as [Hinc _]. apply Hinc. lia.
- replace (m + 1 + 1) with (m + 2) by lia.
  rewrite s_le_lt. unfold s_gt in Habove. rewrite Habove. reflexivity.
Qed.

Lemma map_seq_snoc {A} (f : nat -> A) (lo cnt : nat) :
  map f (seq lo (cnt + 1)) = map f (seq lo cnt) ++ [f (lo + cnt)].
Proof.
rewrite Nat.add_1_r, seq_S, map_app. reflexivity.
Qed.

Lemma restrictSupport_loop (m : nat) :
  forall nintervals ncoeffs,
    m + 1 <= length ints ->
    fold_left (restrictSupport_step this x0 x1) (seq 0 m) ([], [])
    = (nintervals, ncoeffs) ->
    exists lo cnt : nat,
      ncoeffs = map (coeffs_at (_coefficients this)) (seq lo cnt)
      /\ ((cnt = 0 /\ nintervals = [])
          \/ (0 < cnt /\ lo + cnt <= m
              /\ ((lo + cnt = m /\ m + 1 < length ints /\ keep m = true
                   /\ nintervals = map (get ints) (seq lo cnt))
                  \/ (nintervals = map (get ints) (seq lo (cnt + 1))
                      /\ forall j, m <= j -> j + 1 < length ints ->
                                   keep j = false)))).
Proof.
induction m as [| m IH]; intros nintervals ncoeffs Hm Hfold.
- simpl in Hfold. injection Hfold as <- <-. exists 0, 0.
  split; [reflexivity | left; split; reflexivity].
- rewrite seq_S, fold_left_app in Hfold. simpl in Hfold.
  destruct (fold_left (restrictSupport_step this x0 x1) (seq 0 m) ([], []))
    as [ni nc] eqn:Eprev.
  destruct (IH ni nc ltac:(lia) eq_refl) as [lo [cnt [Hnc Hcases]]].
  unfold restrictSupport_step in Hfold.
  destruct (keep m) eqn:Ekeep.
  + (* interval m is kept *)
    destruct ((length ints <=? m + 2) || (get ints (m + 2) >? x1)%s) eqn:Elast;
      injection Hfold as <- <-.
    * (* and it is the last one kept *)
      destruct Hcases as [[-> ->] | [Hcnt [Hle [[Hlo [_ [_ ->]]] | [_ Hnone]]]]].
      -- exists m, 1. split; [subst nc; reflexivity |].
         right. split; [lia |]. split; [lia |]. right.
         split; [cbn; rewrite Nat.add_1_r; reflexivity |].
         intros j Hj Hjn. apply (keep_stops m); [lia | exact Elast | lia | lia].
      -- exists lo, (cnt + 1). split.
         { subst nc. rewrite map_seq_snoc, Hlo. reflexivity. }
         right. split; [lia |]. split; [lia |]. right. split.
         { rewrite !map_seq_snoc.
           replace (lo + (cnt + 1)) with (m + 1) by lia.
           rewrite Hlo. reflexivity. }
         intros j Hj Hjn. apply (keep_stops m); [lia | exact Elast | lia | lia].
      -- rewrite (Hnone m) in Ekeep by lia. discriminate.
    * (* and the next one is kept as well *)
      destruct (keep_goes_on m ltac:(lia) Ekeep Elast) as [Hnext Hkeepnext].
      destruct Hcases as [[-> ->] | [Hcnt [Hle [[Hlo [_ [_ ->]]] | [_ Hnone]]]]].
      -- exists m, 1. split; [subst nc; reflexivity |].
         right. split; [lia |]. split; [lia |]. left.
         repeat split; try lia. replace (S m) with (m + 1) by lia.
         exact Hkeepnext.
      -- exists lo, (cnt + 1). split.
         { subst nc. rewrite map_seq_snoc, Hlo. reflexivity. }
         right. split; [lia |]. split; [lia |]. left.
         split; [lia |]. split; [lia |].
         split; [replace (S m) with (m + 1) by lia; exact Hkeepnext |].
         rewrite map_seq_snoc, Hlo. reflexivity.
      -- rewrite (Hnone m) in Ekeep by lia. discriminate.
  + (* interval m is dropped *)
    injection Hfold as <- <-. exists lo, cnt. split; [exact Hnc |].
    destruct Hcases as [Hnone | [Hcnt [Hle [[_ [_ [Hkept _]]] | [Hni Hnone]]]]].
    * left. exact Hnone.
    * rewrite Hkept in Ekeep. discriminate.
    * right. split; [exact Hcnt |]. split; [lia |]. right.
      split; [exact Hni |]. intros j Hj Hjn. apply Hnone; lia.
Qed.

Lemma nth_map_seq_from {A} (f : nat -> A) (lo n i : nat) (d : A) :
  i < n -> nth i (map f (seq lo n)) d = f (lo + i).
Proof.
intros Hi.
rewrite (nth_indep _ d (f 0)) by (rewrite length_map, length_seq; lia).
rewrite map_nth, seq_nth by lia. reflexivity.
Qed.

(** [restrictSupport] always returns: the intervals kept are consecutive,
    and the break points pushed are theirs. *)
Lemma restrictSupport_succeeds :
  exists r, restrictSupport this x0 x1 = Ok r /\ invariant r.
Proof.
unfold restrictSupport.
destruct (fold_left (restrictSupport_step this x0 x1)
                    (seq 0 (length ints - 1)) ([], []))
  as [ni nc] eqn:Efold.
assert (Hok : construct (order this) ni nc
              = Ok {| order := order this; _intervals := ni;
                      _coefficients := nc |}).
{ destruct (Nat.eq_dec (length ints) 0) as [Hzero | Hpos].
  - rewrite Hzero in Efold. simpl in Efold. injection Efold as <- <-.
    apply construct_Ok; [intros i Hi; simpl in Hi; lia |].
    left. split; reflexivity.
  - destruct (restrictSupport_loop (length ints - 1) ni nc ltac:(lia) Efold)
      as [lo [cnt [Hnc [[Hcnt Hni] | [Hcnt [Hle [[_ [Hlt _]] | [Hni _]]]]]]]].
    + subst. apply construct_Ok; [intros i Hi; simpl in Hi; lia |].
      left. split; reflexivity.
    + lia.
    + subst. apply construct_Ok.
      * intros i Hi. rewrite length_map, length_seq in Hi.
        unfold get. rewrite !nth_map_seq_from by lia.
        replace (lo + (i + 1)) with (lo + i + 1) by lia.
        destruct Hinv as [Hinc _]. apply (Hinc (lo + i)). lia.
      * right. rewrite !length_map, !length_seq. lia. }
eexists. split; [exact Hok |].
exact (proj2 (construct_Ok_inv _ _ _ _ Hok)).
Qed.
End RestrictSupport.

(** ** Reflection and conversion *)

Section InvertConvert.
Context {T : Type} `{Scalar T} {TO : ScalarOrder T}.

Lemma get_map_in_range {TI : Type} `{Scalar TI} (f : TI -> T) (l : list TI)
      (i : nat) :
  i < length l -> get (map f l) i = f (get l i).
Proof.
intros Hi. unfold get.
rewrite (nth_indep _ (cast 0) (f (cast 0))) by (rewrite length_map; exact Hi).
apply map_nth.
Qed.

(** [invert] returns whenever negation reverses the order. *)
Lemma invert_succeeds (this : myspline T) :
  invariant this ->
  (forall x y : T, (x <? y)%s = true -> (- y <? - x)%s = true) ->
  exists r, invert this = Ok r /\ invariant r.
Proof.
intros Hinv Hneg. pose proof Hinv as [Hinc Hsizes]. unfold invert.
destruct (isZero this) eqn:Ezero; [eexists; split; [reflexivity | exact Hinv] |].
assert (Hne : _intervals this <> []).
{ intros Hnil. unfold isZero in Ezero. rewrite Hnil in Ezero. discriminate. }
pose proof (nonempty_has_two_points this Hinv Hne) as Htwo.
destruct (1 <=? length (_intervals this)) eqn:Eone;
  [| apply Nat.leb_gt in Eone; lia].
simpl. rewrite construct_Ok.
- eexists. split; [reflexivity |]. split; simpl.
  + intros i Hi. rewrite length_map, length_rev in Hi.
    rewrite !get_map_in_range by (rewrite length_rev; lia).
    unfold get. rewrite !rev_nth by lia. apply Hneg.
    replace (length (_intervals this) - S i)
      with (length (_intervals this) - S (i + 1) + 1) by lia.
    apply Hinc. lia.
  + right. rewrite !length_map, !length_rev.
    destruct Hsizes as [[Hnil _] | Hsizes]; [contradiction | exact Hsizes].
- intros i Hi. rewrite length_map, length_rev in Hi.
  rewrite !get_map_in_range by (rewrite length_rev; lia).
  unfold get. rewrite !rev_nth by lia. apply Hneg.
  replace (length (_intervals this) - S i)
    with (length (_intervals this) - S (i + 1) + 1) by lia.
  apply Hinc. lia.
- right. rewrite !length_map, !length_rev.
  destruct Hsizes as [[Hnil _] | Hsizes]; [contradiction | exact Hsizes].
Qed.

(** [convert] returns whenever the cast keeps the order strict. *)
Lemma convert_succeeds {TI : Type} `{Scalar TI} (conv : TI -> T)
      (si : myspline TI) :
  invariant si ->
  (forall x y : TI, (x <? y)%s = true -> (conv x <? conv y)%s = true) ->
  exists r, convert conv si = Ok r /\ invariant r.
Proof.
intros [Hinc Hsizes] Hmono. unfold convert.
assert (Hok : forall cs : list (list T),
           length cs = length (_coefficients si) ->
           construct (order si) (map conv (_intervals si)) cs
           = Ok {| order := order si; _intervals := map conv (_intervals si);
                   _coefficients := cs |}).
{ intros cs Hlen. apply construct_Ok.
  - intros i Hi. rewrite length_map in Hi.
    rewrite !get_map_in_range by lia. apply Hmono, Hinc. exact Hi.
  - rewrite length_map, Hlen.
    destruct Hsizes as [[Hnil Hcs] | Hsizes]; [left | right; exact Hsizes].
    rewrite Hnil. split; [reflexivity |].
    apply length_zero_iff_nil. rewrite Hlen, Hcs. reflexivity. }
eexists. split; [apply Hok, length_map |].
exact (proj2 (construct_Ok_inv _ _ _ _ (Hok _ (length_map _ _)))).
Qed.
End InvertConvert.

(** ** Every operation keeps the data invariant *)

Section Preservation.
Context {T : Type} `{Scalar T} {TO : ScalarOrder T}.

Lemma times_scalar_invariant (this : myspline T) (d : T) :
  invariant this -> invariant (times_scalar this d).
Proof.
intros Hinv. apply (same_shape_invariant this); [exact Hinv | reflexivity |].
simpl. apply length_map.
Qed.

(** The merged break points are none or at least two. *)
Lemma merged_intervals_size (this a : myspline T) :
  invariant this -> invariant a ->
  merged_intervals this a = [] \/ 2 <= length (merged_intervals this a).
Proof.
intros Hinv1 Hinv2.
pose proof (makeuniquesorted_In (_intervals a ++ _intervals this)) as Hin.
fold (merged_intervals this a) in Hin.
destruct (merged_intervals this a) as [| x [| y l]] eqn:Em;
  [left; reflexivity | | right; simpl; lia].
exfalso.
assert (Hsome : exists s : myspline T,
           invariant s /\ _intervals s <> []
           /\ forall z, In z (_intervals s) -> z = x).
{ pose proof (proj1 (Hin x) (or_introl eq_refl)) as Hx.
  apply in_app_iff in Hx.
  destruct Hx as [Hx | Hx]; [exists a | exists this];
    (split; [assumption |]); (split; [intros E; rewrite E in Hx; exact Hx |]);
    intros z Hz;
    (assert (Hz' : In z [x])
      by (apply Hin, in_app_iff; auto)); destruct Hz' as [-> | []]; reflexivity. }
destruct Hsome as [s [Hinv [Hne Hall]]].
pose proof (nonempty_has_two_points s Hinv Hne) as Htwo.
destruct Hinv as [Hinc _].
pose proof (Hinc 0 ltac:(lia)) as Hlt.
unfold get in Hlt.
rewrite (Hall (nth 0 (_intervals s) (cast 0))) in Hlt by (apply nth_In; lia).
rewrite (Hall (nth (0 + 1) (_intervals s) (cast 0))) in Hlt
  by (apply nth_In; lia).
rewrite s_lt_irrefl in Hlt. discriminate.
Qed.

Lemma construct_on_merged (this a : myspline T) (o : nat)
      (cs : list (list T)) :
  invariant this -> invariant a ->
  length cs = length (merged_intervals this a) - 1 ->
  exists r, construct o (merged_intervals this a) cs = Ok r /\ invariant r.
Proof.
intros Hinv1 Hinv2 Hlen.
assert (Hok : construct o (merged_intervals this a) cs
              = Ok {| order := o; _intervals := merged_intervals this a;
                      _coefficients := cs |}).
{ apply construct_Ok; [apply makeuniquesorted_increasing |].
  destruct (merged_intervals_size this a Hinv1 Hinv2) as [Hnil | Htwo].
  - left. split; [exact Hnil |]. rewrite Hnil in Hlen.
    apply length_zero_iff_nil. exact Hlen.
  - right. lia. }
eexists. split; [exact Hok |].
exact (proj2 (construct_Ok_inv _ _ _ _ Hok)).
Qed.

(** Sums and differences are always formed. *)
Lemma plus_succeeds (this a : myspline T) :
  invariant this -> invariant a ->
  exists r, plus this a = Ok r /\ invariant r.
Proof.
intros Hinv1 Hinv2. apply construct_on_merged; [assumption | assumption |].
unfold plus_coefficients. rewrite length_map, length_seq. reflexivity.
Qed.

Lemma plus_assign_succeeds (this a : myspline T) :
  invariant this -> invariant a ->
  exists r, plus_assign this a = Ok r /\ invariant r.
Proof.
intros Hinv1 Hinv2. apply construct_on_merged; [assumption | assumption |].
unfold plus_assign_coefficients. rewrite length_map, length_seq. reflexivity.
Qed.

Lemma dx_succeeds (n : nat) (this : myspline T) :
  invariant this -> exists r, dx n this = Ok r /\ invariant r.
Proof.
intros Hinv. destruct (dx_shifts_and_scales n this Hinv) as [Hhigh Hlow].
destruct (Nat.lt_ge_cases (order this) n) as [Hn | Hn].
- eexists. split; [apply Hhigh; exact Hn | apply default_invariant].
- eexists. split; [apply Hlow; exact Hn |].
  apply (same_shape_invariant this); [exact Hinv | reflexivity |].
  simpl. apply length_map.
Qed.

Lemma timesx_succeeds (this : myspline T) :
  invariant this -> exists r, timesx this = Ok r /\ invariant r.
Proof.
intros Hinv. pose proof Hinv as [Hinc Hsizes]. unfold timesx.
rewrite construct_Ok.
- eexists. split; [reflexivity |].
  apply (same_shape_invariant this); [exact Hinv | reflexivity |].
  simpl. rewrite length_map, length_seq. reflexivity.
- exact Hinc.
- rewrite length_map, length_seq.
  destruct Hsizes as [[Hnil Hcs] | Hsizes]; [left | right; exact Hsizes].
  rewrite Hcs. split; [exact Hnil | reflexivity].
Qed.

(** C9. Every operation that builds or returns a spline keeps the data
    invariant: the break points increase strictly, and there are either no
    break points and no coefficients or at least two break points, one more
    than coefficient arrays.  The constructor accepts exactly such data.  On
    splines that satisfy the invariant, sums, differences, in-place sums and
    differences, derivatives, the product with [x] and [restrictSupport] are
    always formed and satisfy it; scaling by a scalar keeps it; whatever the
    product of two splines, [invert] and [convert] return satisfies it, and
    they do return when the factors lie on a common grid, when negation
    reverses the order and when the cast keeps it. *)
Theorem operations_preserve_invariant :
  forall this a : myspline T,
    invariant this -> invariant a ->
    (forall o ints cs r,
        construct o ints cs = Ok r
        <-> r = {| order := o; _intervals := ints; _coefficients := cs |}
            /\ invariant r)
    /\ (exists r, plus this a = Ok r /\ invariant r)
    /\ (exists r, minus this a = Ok r /\ invariant r)
    /\ (exists r, plus_assign this a = Ok r /\ invariant r)
    /\ (exists r, minus_assign this a = Ok r /\ invariant r)
    /\ (forall d : T,
           invariant (times_scalar this d)
           /\ invariant (times_assign_scalar this d)
           /\ invariant (div_scalar this d)
           /\ invariant (div_assign_scalar this d))
    /\ (forall r, times this a = Ok r -> invariant r)
    /\ (forall g : list T,
           strictly_increasing g -> on_grid g this -> on_grid g a ->
           exists r, times this a = Ok r /\ invariant r)
    /\ (forall n : nat, exists r, dx n this = Ok r /\ invariant r)
    /\ (exists r, timesx this = Ok r /\ invariant r)
    /\ (forall x0 x1, exists r, restrictSupport this x0 x1 = Ok r /\ invariant r)
    /\ (forall r, invert this = Ok r -> invariant r)
    /\ ((forall x y : T, (x <? y)%s = true -> (- y <? - x)%s = true) ->
        exists r, invert this = Ok r /\ invariant r)
    /\ (forall (TI : Type) (HI : Scalar TI) (conv : TI -> T)
               (si : myspline TI),
           (forall r, convert conv si = Ok r -> invariant r)
           /\ (invariant si ->
               (forall x y : TI,
                   (x <? y)%s = true -> (conv x <? conv y)%s = true) ->
               exists r, convert conv si = Ok r /\ invariant r)).
Proof.
intros this a Hinv1 Hinv2.
split.
{ intros o ints cs r. split; [apply construct_Ok_inv |].
  intros [-> [Hinc Hsizes]]. apply construct_Ok; assumption. }
split; [apply plus_succeeds; assumption |].
split; [apply plus_succeeds; [| apply times_scalar_invariant]; assumption |].
split; [apply plus_assign_succeeds; assumption |].
split; [apply plus_assign_succeeds; [| apply times_scalar_invariant];
        assumption |].
split; [intros d; repeat split; apply (times_scalar_invariant this _ Hinv1) |].
split.
{ intros r E. unfold times in E.
  destruct (findOverlappingIntervals this a) as [[[s1 s2] n] | f];
    simpl in E; [| discriminate].
  destruct (n =? 0).
  - injection E as <-. apply default_invariant.
  - exact (proj2 (construct_Ok_inv _ _ _ r E)). }
split; [intros g Hg Hon1 Hon2; apply (times_succeeds g); assumption |].
split; [intros n; apply dx_succeeds; exact Hinv1 |].
split; [apply timesx_succeeds; exact Hinv1 |].
split; [intros x0 x1; apply restrictSupport_succeeds; exact Hinv1 |].
split.
{ intros r E. unfold invert in E. destruct (isZero this).
  - injection E as <-. exact Hinv1.
  - destruct (1 <=? length (_intervals this)); simpl in E; [| discriminate].
    exact (proj2 (construct_Ok_inv _ _ _ r E)). }
split; [apply invert_succeeds; exact Hinv1 |].
intros TI HI conv si. split.
- intros r E. exact (proj2 (construct_Ok_inv _ _ _ r E)).
- apply convert_succeeds.
Qed.
End Preservation.

(** ** The laws of addition *)

Section AdditionLaws.
Context {T : Type} `{Scalar T} {TO : ScalarOrder T} {TR : ScalarRing T}.





End AdditionLaws.

(** ** The statements at concrete splines *)

Lemma invariant_spline_0_2_4 : invariant spline_0_2_4.
Proof.
exact (proj2 (construct_Ok_inv (TO := Z_ScalarOrder)
                1 [0; 2; 4]%Z [[1; 2]; [3; 4]]%Z spline_0_2_4 eq_refl)).
Defined.

Lemma invariant_spline_2_4_6 : invariant spline_2_4_6.
Proof.
exact (proj2 (construct_Ok_inv (TO := Z_ScalarOrder)
                1 [2; 4; 6]%Z [[1; 1]; [2; 0]]%Z spline_2_4_6 eq_refl)).
Defined.

Lemma grid_points_0_to_6_increasing : strictly_increasing grid_points_0_to_6.
Proof.
apply (steadilyIncreasingIntervals_spec (TO := Z_ScalarOrder)). reflexivity.
Defined.

(** The product of a spline on [0, 2, 4] and one on [2, 4, 6]: one shared
    interval, order two. *)
Lemma times_order_convolution_zero_witness :
  exists (r : myspline Z) (s1 s2 n : nat),
    times spline_0_2_4 spline_2_4_6 = Ok r
    /\ findOverlappingIntervals spline_0_2_4 spline_2_4_6 = Ok (s1, s2, n)
    /\ order r = 2
    /\ length (_coefficients r) = n
    /\ n = 1
    /\ _intervals r = [2; 4]%Z.
Proof.
destruct (times_order_convolution_zero
            (TO := Z_ScalarOrder) (TR := Z_ScalarRing)
            grid_points_0_to_6 spline_0_2_4 spline_2_4_6
            grid_points_0_to_6_increasing
            invariant_spline_0_2_4 invariant_spline_2_4_6
            (ex_intro _ [] (ex_intro _ [6%Z] eq_refl))
            (ex_intro _ [0%Z] (ex_intro _ [] eq_refl)))
  as [r [s1 [s2 [n [Htimes [Hfound [Horder [_ [Hlen [_ [_ [_ [_ Hgrid]]]]]]]]]]]]].
destruct (Hgrid [] [6%Z] [0%Z] [] eq_refl eq_refl) as [Hn Hrun].
simpl in Hn.
destruct (Hrun ltac:(lia)) as [_ [_ Hints]]. rewrite Hn in Hints.
exists r, s1, s2, n. repeat split; assumption.
Defined.



(** The invariant along the operations on the same two splines. *)
Lemma operations_preserve_invariant_witness :
  (exists r, plus spline_0_2_4 spline_2_4_6 = Ok r /\ invariant r)
  /\ (exists r, timesx spline_0_2_4 = Ok r /\ invariant r)
  /\ invariant (times_scalar spline_0_2_4 3%Z).
Proof.
destruct (operations_preserve_invariant
            (TO := Z_ScalarOrder) spline_0_2_4 spline_2_4_6
            invariant_spline_0_2_4 invariant_spline_2_4_6)
  as [_ [Hplus [_ [_ [_ [Hscale [_ [_ [_ [Htimesx _]]]]]]]]]].
split; [exact Hplus |]. split; [exact Htimesx |].
exact (proj1 (Hscale 3%Z)).
Defined.

(** * Further properties of the code *)

(** ** Index translation and set operations of supports *)

Section SupportAlgebra.
Context {T : Type} `{Scalar T}.

(** X1. Translating an index of a support to the grid and back returns it,
    and so does the other way round; outside the support the one gives
    nothing and the other stops on its assertion. *)
Theorem support_index_round_trip :
  forall (s : GridClass.support T) (i j : nat),
    (i < GridClass.size s ->
     exists a, GridClass.absoluteFromRelative s i = Ok a
               /\ GridClass.relativeFromAbsolute s a = Some i)
    /\ (support_contains s j ->
        exists r, GridClass.relativeFromAbsolute s j = Some r
                  /\ GridClass.absoluteFromRelative s r = Ok j)
    /\ (GridClass.size s <= i ->
        GridClass.absoluteFromRelative s i = Fail assertion_failed)
    /\ (~ support_contains s j -> GridClass.relativeFromAbsolute s j = None).
Proof.
intros s i j.
unfold GridClass.absoluteFromRelative, GridClass.relativeFromAbsolute,
  GridClass.size, support_contains.
repeat split.
- intros Hi. exists (i + GridClass._startIndex s).
  destruct (i <? GridClass._endIndex s - GridClass._startIndex s) eqn:E;
    [| apply Nat.ltb_ge in E; lia].
  split; [reflexivity |].
  destruct (GridClass._startIndex s <=? i + GridClass._startIndex s) eqn:E1;
    [| apply Nat.leb_gt in E1; lia].
  destruct (i + GridClass._startIndex s <? GridClass._endIndex s) eqn:E2;
    [| apply Nat.ltb_ge in E2; lia].
  simpl. f_equal. lia.
- intros [Hlow Hhigh]. exists (j - GridClass._startIndex s).
  destruct (GridClass._startIndex s <=? j) eqn:E1;
    [| apply Nat.leb_gt in E1; lia].
  destruct (j <? GridClass._endIndex s) eqn:E2;
    [| apply Nat.ltb_ge in E2; lia].
  split; [reflexivity |].
  destruct (j - GridClass._startIndex s
            <? GridClass._endIndex s - GridClass._startIndex s) eqn:E;
    [| apply Nat.ltb_ge in E; lia].
  simpl. f_equal. lia.
- intros Hi.
  destruct (i <? GridClass._endIndex s - GridClass._startIndex s) eqn:E;
    [apply Nat.ltb_lt in E; lia | reflexivity].
- intros Hout.
  destruct (GridClass._startIndex s <=? j) eqn:E1; [| reflexivity].
  destruct (j <? GridClass._endIndex s) eqn:E2; [| reflexivity].
  apply Nat.leb_le in E1. apply Nat.ltb_lt in E2. lia.
Qed.

Lemma grid_eq_same_size (g1 g2 : GridClass.grid T) :
  GridClass.grid_eq g1 g2 = true -> GridClass._size g1 = GridClass._size g2.
Proof.
unfold GridClass.grid_eq.
destruct (GridClass._data g1 =? GridClass._data g2);
  destruct (GridClass._size g1 =? GridClass._size g2) eqn:Esize; simpl;
  try discriminate; intros _; apply Nat.eqb_eq; exact Esize.
Qed.

(** X2. The intersection of two valid supports on equal grids is a valid
    support on the grid of the first; it contains exactly the grid points
    both contain.  On grids that are not equal the call stops on its
    assertion and throws nothing. *)
Theorem calcIntersection_is_the_common_part :
  forall this s : GridClass.support T,
    (GridClass.hasSameGrid this s = true ->
     support_valid this -> support_valid s ->
     exists r, GridClass.calcIntersection this s = Ok r
               /\ support_valid r
               /\ GridClass._grid r = GridClass._grid this
               /\ forall j, support_contains r j
                            <-> support_contains this j /\ support_contains s j)
    /\ (GridClass.hasSameGrid this s = false ->
        GridClass.calcIntersection this s = Fail assertion_failed).
Proof.
intros this s. unfold GridClass.calcIntersection. split.
- intros Hsame [Hle1 Hsize1] [Hle2 Hsize2]. rewrite Hsame. simpl.
  destruct (Nat.min (GridClass._endIndex this) (GridClass._endIndex s)
            <=? Nat.max (GridClass._startIndex this) (GridClass._startIndex s))
    eqn:Eempty.
  + apply Nat.leb_le in Eempty. eexists. split; [reflexivity |].
    unfold support_valid, support_contains. simpl.
    split; [lia |]. split; [reflexivity |]. intros j. lia.
  + apply Nat.leb_gt in Eempty. unfold GridClass.support_construct.
    destruct ((Nat.max (GridClass._startIndex this) (GridClass._startIndex s)
               <=? Nat.min (GridClass._endIndex this) (GridClass._endIndex s))
              && (Nat.min (GridClass._endIndex this) (GridClass._endIndex s)
                  <=? GridClass._size (GridClass._grid this))) eqn:Eassert.
    * simpl. eexists. split; [reflexivity |].
      unfold support_valid, support_contains. simpl.
      split; [lia |]. split; [reflexivity |]. intros j. lia.
    * apply andb_false_iff in Eassert.
      destruct Eassert as [E | E]; apply Nat.leb_gt in E; lia.
- intros Hdiffer. rewrite Hdiffer. reflexivity.
Qed.

(** X3. The union of two valid supports on equal grids is a valid support
    that contains both; an empty operand gives the other one back; for two
    non-empty supports it is the whole range from the smaller start to the
    larger end, gap included. *)
Theorem calcUnion_is_the_hull :
  forall this s : GridClass.support T,
    GridClass.hasSameGrid this s = true ->
    support_valid this -> support_valid s ->
    exists r, GridClass.calcUnion this s = Ok r
              /\ support_valid r
              /\ (forall j, support_contains this j \/ support_contains s j ->
                            support_contains r j)
              /\ (GridClass.empty this = true -> GridClass.empty s = false ->
                  r = s)
              /\ (GridClass.empty s = true -> GridClass.empty this = false ->
                  r = this)
              /\ (GridClass.empty this = false -> GridClass.empty s = false ->
                  forall j, support_contains r j
                            <-> Nat.min (GridClass._startIndex this)
                                        (GridClass._startIndex s) <= j
                                < Nat.max (GridClass._endIndex this)
                                          (GridClass._endIndex s)).
Proof.
intros this s Hsame [Hle1 Hsize1] [Hle2 Hsize2].
pose proof (grid_eq_same_size _ _ Hsame) as Hsize.
unfold GridClass.calcUnion. rewrite Hsame. simpl.
unfold GridClass.empty.
destruct (GridClass._startIndex this =? GridClass._endIndex this) eqn:E1;
  destruct (GridClass._startIndex s =? GridClass._endIndex s) eqn:E2; simpl.
- apply Nat.eqb_eq in E1, E2. eexists. split; [reflexivity |].
  unfold support_valid, support_contains. simpl.
  split; [lia |]. split; [intros j; lia |].
  repeat split; intros; discriminate.
- apply Nat.eqb_eq in E1. apply Nat.eqb_neq in E2.
  exists s. split; [reflexivity |].
  unfold support_valid, support_contains.
  split; [lia |]. split; [intros j; lia |].
  repeat split; intros; try discriminate; reflexivity.
- apply Nat.eqb_neq in E1. apply Nat.eqb_eq in E2.
  exists this. split; [reflexivity |].
  unfold support_valid, support_contains.
  split; [lia |]. split; [intros j; lia |].
  repeat split; intros; try discriminate; reflexivity.
- apply Nat.eqb_neq in E1, E2. unfold GridClass.support_construct.
  destruct ((Nat.min (GridClass._startIndex this) (GridClass._startIndex s)
             <=? Nat.max (GridClass._endIndex this) (GridClass._endIndex s))
            && (Nat.max (GridClass._endIndex this) (GridClass._endIndex s)
                <=? GridClass._size (GridClass._grid this))) eqn:Eassert.
  + simpl. eexists. split; [reflexivity |].
    unfold support_valid, support_contains. simpl.
    split; [lia |]. split; [intros j; lia |].
    repeat split; intros; try discriminate; lia.
  + apply andb_false_iff in Eassert.
    destruct Eassert as [E | E]; apply Nat.leb_gt in E; lia.
Qed.
End SupportAlgebra.

Section SupportEquality.
Context {T : Type} `{Scalar T} {TO : ScalarOrder T}.

Lemma logically_equal_grid_eq (g1 g2 : GridClass.grid T) :
  GridClass.logically_equal g1 g2 -> GridClass.grid_eq g1 g2 = true.
Proof.
intros [Hsize Hall]. unfold GridClass.grid_eq.
destruct (GridClass._size g1 =? GridClass._size g2) eqn:Esize;
  [| apply Nat.eqb_neq in Esize; contradiction].
rewrite andb_true_r. simpl.
destruct (GridClass._data g1 =? GridClass._data g2); [reflexivity |].
apply elementwise_equal. exact Hall.
Qed.

Lemma s_ne_sym (x y : T) : (x !=? y)%s = (y !=? x)%s.
Proof.
unfold s_ne. f_equal.
destruct (x ==? y)%s eqn:Exy, (y ==? x)%s eqn:Eyx; try reflexivity.
- apply s_eq_spec in Exy. symmetry in Exy. apply s_eq_spec in Exy. congruence.
- apply s_eq_spec in Eyx. symmetry in Eyx. apply s_eq_spec in Eyx. congruence.
Qed.

Lemma grid_eq_sym (g1 g2 : GridClass.grid T) :
  GridClass.grid_eq g1 g2 = GridClass.grid_eq g2 g1.
Proof.
unfold GridClass.grid_eq.
rewrite (Nat.eqb_sym (GridClass._data g2)), (Nat.eqb_sym (GridClass._size g2)).
destruct (GridClass._data g1 =? GridClass._data g2);
  destruct (GridClass._size g1 =? GridClass._size g2) eqn:Esize; simpl;
  try reflexivity.
apply Nat.eqb_eq in Esize. rewrite Esize.
induction (seq 0 (GridClass._size g2)) as [| i l IH]; simpl; [reflexivity |].
rewrite IH, s_ne_sym. reflexivity.
Qed.

(** X4. Equality of supports is reflexive and symmetric, and it is
    transitive as long as grids with the same address share their array. *)
Theorem support_eq_is_an_equivalence :
  (forall s : GridClass.support T, GridClass.support_eq s s = true)
  /\ (forall s1 s2 : GridClass.support T,
         GridClass.support_eq s1 s2 = GridClass.support_eq s2 s1)
  /\ (forall s1 s2 s3 : GridClass.support T,
         GridClass.same_storage_same_elements
           (GridClass._grid s1) (GridClass._grid s2) ->
         GridClass.same_storage_same_elements
           (GridClass._grid s2) (GridClass._grid s3) ->
         GridClass.support_eq s1 s2 = true ->
         GridClass.support_eq s2 s3 = true ->
         GridClass.support_eq s1 s3 = true).
Proof.
split; [| split].
- intros s. unfold GridClass.support_eq, GridClass.hasSameGrid,
    GridClass.grid_eq.
  rewrite !Nat.eqb_refl. reflexivity.
- intros s1 s2. unfold GridClass.support_eq, GridClass.hasSameGrid,
    GridClass.empty.
  rewrite (grid_eq_sym (GridClass._grid s1)).
  rewrite (Nat.eqb_sym (GridClass._startIndex s1) (GridClass._startIndex s2)),
    (Nat.eqb_sym (GridClass._endIndex s1) (GridClass._endIndex s2)).
  rewrite (andb_comm (GridClass._startIndex s1 =? GridClass._endIndex s1)).
  reflexivity.
- intros s1 s2 s3 H12 H23.
  unfold GridClass.support_eq, GridClass.hasSameGrid, GridClass.empty.
  rewrite !andb_true_iff, !orb_true_iff, !andb_true_iff, !Nat.eqb_eq.
  intros [Hg12 Hr12] [Hg23 Hr23]. split.
  + apply logically_equal_grid_eq.
    apply (grid_eq_logically_equal _ _ H12) in Hg12.
    apply (grid_eq_logically_equal _ _ H23) in Hg23.
    destruct Hg12 as [Hs12 Ha12], Hg23 as [Hs23 Ha23].
    split; [congruence |]. intros i Hi.
    rewrite Ha12 by exact Hi. apply Ha23. rewrite <- Hs12. exact Hi.
  + lia.
Qed.
End SupportEquality.

(** On the grid [0, 2, 4]: the support of its last two points, and the index
    translations, intersection, union and comparison with the whole grid. *)
Lemma support_index_round_trip_witness :
  (exists a,
      GridClass.absoluteFromRelative
        {| GridClass._grid := grid_0_2_4; GridClass._startIndex := 1;
           GridClass._endIndex := 3 |} 1 = Ok a
      /\ GridClass.relativeFromAbsolute
           {| GridClass._grid := grid_0_2_4; GridClass._startIndex := 1;
              GridClass._endIndex := 3 |} a = Some 1)
  /\ GridClass.relativeFromAbsolute
       {| GridClass._grid := grid_0_2_4; GridClass._startIndex := 1;
          GridClass._endIndex := 3 |} 0 = None.
Proof.
destruct (support_index_round_trip
            {| GridClass._grid := grid_0_2_4; GridClass._startIndex := 1;
               GridClass._endIndex := 3 |} 1 0)
  as [Hthere [_ [_ Hout]]].
split.
- apply Hthere. unfold GridClass.size. simpl. lia.
- apply Hout. unfold support_contains. simpl. lia.
Defined.

Lemma calcIntersection_is_the_common_part_witness :
  exists r,
    GridClass.calcIntersection
      {| GridClass._grid := grid_0_2_4; GridClass._startIndex := 0;
         GridClass._endIndex := 2 |}
      {| GridClass._grid := grid_0_2_4; GridClass._startIndex := 1;
         GridClass._endIndex := 3 |} = Ok r
    /\ support_valid r.
Proof.
destruct (calcIntersection_is_the_common_part
            {| GridClass._grid := grid_0_2_4; GridClass._startIndex := 0;
               GridClass._endIndex := 2 |}
            {| GridClass._grid := grid_0_2_4; GridClass._startIndex := 1;
               GridClass._endIndex := 3 |}) as [Hsame _].
destruct Hsame as [r [Hr [Hvalid _]]].
- reflexivity.
- unfold support_valid. simpl. lia.
- unfold support_valid. simpl. lia.
- exists r. split; assumption.
Defined.

Lemma calcUnion_is_the_hull_witness :
  exists r,
    GridClass.calcUnion
      {| GridClass._grid := grid_0_2_4; GridClass._startIndex := 0;
         GridClass._endIndex := 1 |}
      {| GridClass._grid := grid_0_2_4; GridClass._startIndex := 2;
         GridClass._endIndex := 3 |} = Ok r
    /\ support_contains r 1.
Proof.
destruct (calcUnion_is_the_hull
            {| GridClass._grid := grid_0_2_4; GridClass._startIndex := 0;
               GridClass._endIndex := 1 |}
            {| GridClass._grid := grid_0_2_4; GridClass._startIndex := 2;
               GridClass._endIndex := 3 |})
  as [r [Hr [_ [_ [_ [_ Hhull]]]]]].
- reflexivity.
- unfold support_valid. simpl. lia.
- unfold support_valid. simpl. lia.
- exists r. split; [exact Hr |].
  apply Hhull; [reflexivity | reflexivity | simpl; lia].
Defined.

Lemma support_eq_is_an_equivalence_witness :
  GridClass.support_eq
    (GridClass.getSupport (one_on grid_0_2_4))
    (GridClass.getSupport (one_on grid_0_2_4)) = true.
Proof.
apply (proj1 (support_eq_is_an_equivalence (TO := Z_ScalarOrder))).
Defined.

(** ** Evaluation stays inside the data *)

Section EvaluationBounds.
Context {T : Type} `{Scalar T}.

Lemma findInterval_in_bounds :
  forall (this : myspline T) (x : T),
    invariant this ->
    findInterval this x = (-1)%Z
    \/ ((0 <= findInterval this x)%Z
        /\ Z.to_nat (findInterval this x) < length (_coefficients this)
        /\ Z.to_nat (findInterval this x) + 1 < length (_intervals this)).
Proof.
intros this x [_ Hsizes].
destruct ((length (_intervals this) <? 2)
          || (x >? back (_intervals this))%s
          || (x <? front (_intervals this))%s) eqn:Eout.
- left. unfold findInterval. rewrite Eout. reflexivity.
- right. apply orb_false_iff in Eout. destruct Eout as [Eout Hfront].
  apply orb_false_iff in Eout. destruct Eout as [Hsize Hback].
  apply Nat.ltb_ge in Hsize.
  destruct (findInterval_inside this x Hsize Hback Hfront)
    as [Hr [Hlen _]].
  split; [exact Hr |]. split; [| exact Hlen].
  destruct Hsizes as [[Hnil _] | [_ Hcount]]; [rewrite Hnil in Hsize; simpl in Hsize; lia | lia].
Qed.

(** X5. For a spline that satisfies the data invariant the binary search
    returns -1 or the index of an interval that exists: evaluation never
    reads a coefficient array or a break point that is not there. *)
Theorem findInterval_stays_in_bounds :
  forall (this : myspline T) (x : T),
    invariant this ->
    findInterval this x = (-1)%Z
    \/ ((0 <= findInterval this x)%Z
        /\ Z.to_nat (findInterval this x) < length (_coefficients this)
        /\ Z.to_nat (findInterval this x) + 1 < length (_intervals this)).
Proof.
exact findInterval_in_bounds.
Qed.
End EvaluationBounds.

Lemma findInterval_stays_in_bounds_witness :
  findInterval spline_0_2_4 3%Z = (-1)%Z
  \/ ((0 <= findInterval spline_0_2_4 3%Z)%Z
      /\ Z.to_nat (findInterval spline_0_2_4 3%Z)
         < length (_coefficients spline_0_2_4)
      /\ Z.to_nat (findInterval spline_0_2_4 3%Z) + 1
         < length (_intervals spline_0_2_4)).
Proof.
exact (findInterval_stays_in_bounds spline_0_2_4 3%Z invariant_spline_0_2_4).
Defined.

Section ZeroSpline.
Context {T : Type} `{Scalar T} {TO : ScalarOrder T} {TR : ScalarRing T}.


End ZeroSpline.


(** ** The values of scaled splines and of [timesx] *)

#[export] Instance Z_ScalarCommRing : ScalarCommRing Z.
Proof.
constructor. exact InitialRing.Zth.
Defined.

Section Values.
Context {T : Type} `{Scalar T} {TC : ScalarCommRing T}.

Add Ring scalar_ring_instance : scalar_ring.

Lemma polynomial_is_horner (coeffs : list T) (dx : T) :
  polynomial coeffs dx = horner coeffs dx.
Proof.
unfold polynomial.
assert (Hgen : forall (l : list T) (xpot res : T),
           snd (fold_left
                  (fun '(xpot, res) c => ((xpot * dx)%s, (res + xpot * c)%s))
                  l (xpot, res))
           = (res + xpot * horner l dx)%s).
{ induction l as [| c l IH]; intros xpot res; simpl; [ring |].
  rewrite IH. ring. }
rewrite Hgen. ring.
Qed.

Lemma horner_scaled (coeffs : list T) (d dx : T) :
  horner (map (fun c => (c * d)%s) coeffs) dx = (horner coeffs dx * d)%s.
Proof.
induction coeffs as [| c l IH]; simpl; [ring | rewrite IH; ring].
Qed.

Lemma findInterval_same_intervals (this r : myspline T) (x : T) :
  _intervals r = _intervals this -> findInterval r x = findInterval this x.
Proof.
intros Hints. unfold findInterval. rewrite Hints. reflexivity.
Qed.

(** X7. The value of a spline multiplied by a scalar is the value of the
    spline times the scalar, at every point. *)
Theorem times_scalar_scales_values :
  forall (this : myspline T) (d x : T),
    eval (times_scalar this d) x = (eval this x * d)%s.
Proof.
intros this d x. unfold eval.
rewrite (findInterval_same_intervals this (times_scalar this d) x eq_refl).
destruct (findInterval this x <? 0)%Z; [ring |].
simpl. rewrite !polynomial_is_horner.
unfold coeffs_at.
change (@nil T) with (map (fun c : T => (c * d)%s) (@nil T)) at 1.
rewrite map_nth. apply horner_scaled.
Qed.
End Values.

Lemma times_scalar_scales_values_witness :
  eval (times_scalar spline_0_2_4 5%Z) 3%Z = (eval spline_0_2_4 3%Z * 5)%Z.
Proof.
exact (times_scalar_scales_values (TC := Z_ScalarCommRing)
         spline_0_2_4 5%Z 3%Z).
Defined.

Section TimesxValues.
Context {T : Type} `{Scalar T} {TO : ScalarOrder T} {TC : ScalarCommRing T}.

Add Ring scalar_ring_timesx : scalar_ring.

Lemma get_beyond (l : list T) (j : nat) : length l <= j -> get l j = cast 0.
Proof.
intros Hj. unfold get. apply nth_overflow. exact Hj.
Qed.

(** The array [timesx] builds, entry by entry: the coefficient before plus
    [xm] times the coefficient at the place. *)
Lemma horner_shifted_entries (xm dx : T) (c : list T) :
  forall p : T,
    horner (map (fun j => (get (p :: c) j + xm * get c j)%s)
                (seq 0 (length c + 1))) dx
    = (p + (dx + xm) * horner c dx)%s.
Proof.
induction c as [| c0 c IH]; intros p.
- simpl. unfold get. simpl. ring.
- cbn [length Nat.add seq map horner].
  rewrite <- seq_shift, map_map.
  replace (map (fun j => (get (p :: c0 :: c) (S j) + xm * get (c0 :: c) (S j))%s)
               (seq 0 (length c + 1)))
    with (map (fun j => (get (c0 :: c) j + xm * get c j)%s)
              (seq 0 (length c + 1)))
    by reflexivity.
  rewrite IH. unfold get. simpl. ring.
Qed.

Lemma timesx_array_value (o : nat) (xm dx : T) (c : list T) :
  length c = o + 1 ->
  horner (timesx_array o xm c) dx = ((dx + xm) * horner c dx)%s.
Proof.
intros Hlen. unfold timesx_array.
transitivity (horner (map (fun j => (get (cast 0 :: c) j + xm * get c j)%s)
                          (seq 0 (length c + 1))) dx).
- rewrite Hlen. f_equal. apply map_ext_in. intros j Hj. apply in_seq in Hj.
  cbv zeta.
  destruct j as [| j].
  + destruct (0 <? o + 1) eqn:E; [| apply Nat.ltb_ge in E; lia].
    simpl. unfold get. simpl. ring.
  + change (0 <? S j) with true. cbv iota.
    replace (S j - 1) with j by lia.
    change (get (cast 0 :: c) (S j)) with (get c j).
    destruct (S j <? o + 1) eqn:E; [ring |].
    apply Nat.ltb_ge in E. rewrite (get_beyond c (S j)) by lia. ring.
- rewrite horner_shifted_entries. ring.
Qed.

(** X8. For a spline that satisfies the data invariant, with coefficient
    arrays of [order + 1] entries, [timesx] returns a spline whose value at
    every point [x] is [x] times the value of the spline. *)
Theorem timesx_multiplies_values_by_x :
  forall this : myspline T,
    invariant this ->
    arrays_sized (order this + 1) (_coefficients this) ->
    exists r, timesx this = Ok r
              /\ forall x : T, eval r x = (x * eval this x)%s.
Proof.
intros this Hinv Hsized. pose proof Hinv as [Hinc Hsizes].
set (newcoeffs :=
       map (fun i =>
              if i + 1 <? length (_intervals this) then
                timesx_array
                  (order this)
                  ((get (_intervals this) (i + 1) + get (_intervals this) i)
                   / cast 2)%s
                  (coeffs_at (_coefficients this) i)
              else make_array (ARRAY_SIZE this + 1) (cast 0))
           (seq 0 (length (_coefficients this)))).
assert (Hok : timesx this
              = Ok {| order := order this + 1;
                      _intervals := _intervals this;
                      _coefficients := newcoeffs |}).
{ unfold timesx. apply construct_Ok; [exact Hinc |].
  fold newcoeffs. unfold newcoeffs. rewrite length_map, length_seq.
  destruct Hsizes as [[Hnil Hcs] | Hsizes]; [left | right; exact Hsizes].
  rewrite Hcs. split; [exact Hnil | reflexivity]. }
eexists. split; [exact Hok |].
intros x. unfold eval. simpl.
rewrite (findInterval_same_intervals
           this {| order := order this + 1; _intervals := _intervals this;
                   _coefficients := newcoeffs |} x eq_refl).
destruct (findInterval_in_bounds this x Hinv) as [Hout | [Hr [Hc Hi]]].
- rewrite Hout. simpl. ring.
- destruct (findInterval this x <? 0)%Z eqn:Eneg;
    [apply Z.ltb_lt in Eneg; lia |].
  set (i := Z.to_nat (findInterval this x)) in *.
  rewrite !polynomial_is_horner.
  assert (Hnew : coeffs_at newcoeffs i
                 = timesx_array
                     (order this)
                     ((get (_intervals this) (i + 1) + get (_intervals this) i)
                      / cast 2)%s
                     (coeffs_at (_coefficients this) i)).
  { unfold coeffs_at at 1, newcoeffs. rewrite nth_map_seq by exact Hc.
    destruct (i + 1 <? length (_intervals this)) eqn:E;
      [reflexivity | apply Nat.ltb_ge in E; lia]. }
  rewrite Hnew, timesx_array_value.
  + ring.
  + unfold arrays_sized in Hsized. rewrite Forall_forall in Hsized.
    apply Hsized. unfold coeffs_at. apply nth_In. exact Hc.
Qed.
End TimesxValues.

Lemma arrays_sized_spline_0_2_4 :
  arrays_sized (order spline_0_2_4 + 1) (_coefficients spline_0_2_4).
Proof.
repeat constructor.
Defined.

Lemma timesx_multiplies_values_by_x_witness :
  exists r, timesx spline_0_2_4 = Ok r
            /\ eval r 3%Z = (3 * eval spline_0_2_4 3%Z)%Z.
Proof.
destruct (timesx_multiplies_values_by_x
            (TO := Z_ScalarOrder) (TC := Z_ScalarCommRing)
            spline_0_2_4 invariant_spline_0_2_4 arrays_sized_spline_0_2_4)
  as [r [Hr Hvalue]].
exists r. split; [exact Hr | apply Hvalue].
Defined.

(** ** pow *)

Section Pow.
Context {T : Type} `{Scalar T} {TC : ScalarCommRing T}.

Add Ring scalar_ring_pow : scalar_ring.

Lemma power_add (a : T) (m n : nat) :
  power a (m + n) = (power a m * power a n)%s.
Proof.
induction m as [| m IH]; simpl; [ring | rewrite IH; ring].
Qed.

Lemma power_square (a : T) (m : nat) :
  power (a * a)%s m = power a (2 * m).
Proof.
induction m as [| m IH]; [reflexivity |].
replace (2 * S m) with (S (S (2 * m))) by lia. simpl power at 1.
rewrite IH. simpl. ring.
Qed.

(** The test [(nc & n) == nc] for [nc = 2^k] reads bit [k] of [n]. *)
Lemma land_pow2_test (n k : Z) :
  (0 <= k)%Z ->
  (Z.land (2 ^ k) n =? 2 ^ k)%Z = Z.testbit n k.
Proof.
intros Hk.
assert (Hland : Z.land (2 ^ k) n = if Z.testbit n k then (2 ^ k)%Z else 0%Z).
{ apply Z.bits_inj'. intros m Hm. rewrite Z.land_spec, Z.pow2_bits_eqb by lia.
  destruct (Z.eqb_spec k m) as [-> | Hne].
  - destruct (Z.testbit n m); [rewrite Z.pow2_bits_true by lia; reflexivity |].
    rewrite Z.bits_0. reflexivity.
  - simpl. destruct (Z.testbit n k);
      [rewrite Z.pow2_bits_false by lia; reflexivity |].
    rewrite Z.bits_0. reflexivity. }
rewrite Hland. destruct (Z.testbit n k); [apply Z.eqb_refl |].
apply Z.eqb_neq. pose proof (Z.pow_pos_nonneg 2 k ltac:(lia) Hk). lia.
Qed.

Lemma size_t_double (k : Z) :
  (0 <= k < 63)%Z -> size_t_mul (2 ^ k) 2 = (2 ^ (k + 1))%Z.
Proof.
intros Hk. unfold size_t_mul, SIZE_MAX_plus_1.
rewrite Z.pow_add_r by lia. change (2 ^ 1)%Z with 2%Z.
apply Z.mod_small. split.
- pose proof (Z.pow_pos_nonneg 2 k ltac:(lia) ltac:(lia)). lia.
- replace 64%Z with (k + (64 - k))%Z by lia.
  rewrite Z.pow_add_r by lia.
  assert (2 ^ 2 <= 2 ^ (64 - k))%Z by (apply Z.pow_le_mono_r; lia).
  pose proof (Z.pow_pos_nonneg 2 k ltac:(lia) ltac:(lia)).
  change (2 ^ 2)%Z with 4%Z in *. nia.
Qed.

(** The loop invariant: with [nc = 2^k], what is still to be multiplied to
    [ret] is [a] to the power [n / 2^k]. *)
Lemma pow_loop_spec (n : Z) :
  (0 <= n < 2 ^ 63)%Z ->
  forall (fuel : nat) (k : Z) (a ret : T),
    (0 <= k <= 63)%Z -> (64 <= Z.of_nat fuel + k)%Z ->
    exists r, pow_loop fuel a n (2 ^ k) ret = Some r
              /\ r = (ret * power a (Z.to_nat (n / 2 ^ k)))%s.
Proof.
intros Hn fuel.
induction fuel as [| fuel IH]; intros k a ret Hk Hfuel; [lia |].
pose proof (Z.pow_pos_nonneg 2 k ltac:(lia) ltac:(lia)) as Hpos.
cbn [pow_loop]. destruct (2 ^ k <=? n)%Z eqn:Ele.
- apply Z.leb_le in Ele.
  assert (Hk62 : (k < 63)%Z).
  { destruct (Z.lt_ge_cases k 63) as [Hlt | Hge]; [exact Hlt |].
    assert (2 ^ 63 <= 2 ^ k)%Z by (apply Z.pow_le_mono_r; lia). lia. }
  rewrite size_t_double by lia. rewrite land_pow2_test by lia.
  destruct (IH (k + 1)%Z (a * a)%s
               (if Z.testbit n k then (ret * a)%s else ret)
               ltac:(lia) ltac:(lia)) as [r [Hr Hval]].
  exists r. split; [exact Hr |]. rewrite Hval.
  rewrite power_square.
  assert (Hsplit : (n / 2 ^ k = 2 * (n / 2 ^ (k + 1))
                               + Z.b2z (Z.testbit n k))%Z).
  { rewrite Z.pow_add_r by lia. change (2 ^ 1)%Z with 2%Z.
    rewrite <- Z.div_div by lia.
    rewrite (Z.div_mod (n / 2 ^ k) 2) at 1 by lia.
    rewrite Z.testbit_spec' by lia. reflexivity. }
  rewrite Hsplit.
  assert (Hq : (0 <= n / 2 ^ (k + 1))%Z) by (apply Z.div_pos; lia).
  destruct (Z.testbit n k); cbn [Z.b2z].
  + replace (Z.to_nat (2 * (n / 2 ^ (k + 1)) + 1))
      with (S (2 * Z.to_nat (n / 2 ^ (k + 1)))) by lia.
    simpl power. ring.
  + replace (Z.to_nat (2 * (n / 2 ^ (k + 1)) + 0))
      with (2 * Z.to_nat (n / 2 ^ (k + 1))) by lia.
    reflexivity.
- apply Z.leb_gt in Ele. exists ret. split; [reflexivity |].
  rewrite Z.div_small by lia. simpl. ring.
Qed.

(** X9. For an exponent below [2^63], [pow] leaves its loop within 64 steps
    and returns [a] multiplied [n] times with itself. *)
Theorem pow_is_the_power :
  forall (a : T) (n : Z) (fuel : nat),
    (0 <= n < 2 ^ 63)%Z -> 64 <= fuel ->
    pow fuel a n = Some (power a (Z.to_nat n)).
Proof.
intros a n fuel Hn Hfuel. unfold pow.
destruct (pow_loop_spec n Hn fuel 0%Z a (cast 1) ltac:(lia) ltac:(lia))
  as [r [Hr Hval]].
change (2 ^ 0)%Z with 1%Z in Hr, Hval. rewrite Hr, Hval, Z.div_1_r.
f_equal. ring.
Qed.

(** Once the topmost bit of the exponent is set, [nc] is never above [n]:
    it runs through the powers of two and then wraps around to zero. *)
Lemma pow_loop_never_leaves (n : Z) :
  (2 ^ 63 <= n < 2 ^ 64)%Z ->
  forall (fuel : nat) (nc : Z) (a ret : T),
    nc = 0%Z \/ (exists k, (0 <= k <= 63)%Z /\ nc = (2 ^ k)%Z) ->
    pow_loop fuel a n nc ret = None.
Proof.
intros Hn fuel.
induction fuel as [| fuel IH]; intros nc a ret Hnc; [reflexivity |].
cbn [pow_loop].
assert (Hle : (nc <= n)%Z).
{ destruct Hnc as [-> | [k [Hk ->]]]; [lia |].
  assert (2 ^ k <= 2 ^ 63)%Z by (apply Z.pow_le_mono_r; lia). lia. }
apply Z.leb_le in Hle. rewrite Hle. apply IH.
destruct Hnc as [-> | [k [Hk ->]]]; [left; reflexivity |].
destruct (Z.eq_dec k 63) as [-> | Hne].
- left. reflexivity.
- right. exists (k + 1)%Z. split; [lia |]. apply size_t_double. lia.
Qed.

(** X10. For an exponent with the topmost bit of [size_t] set, the loop of
    [pow] never ends: no number of steps gives a result. *)
Theorem pow_does_not_return_for_huge_exponents :
  forall (a : T) (n : Z) (fuel : nat),
    (2 ^ 63 <= n < 2 ^ 64)%Z -> pow fuel a n = None.
Proof.
intros a n fuel Hn. unfold pow.
apply (pow_loop_never_leaves n Hn). right. exists 0%Z. split; [lia |].
reflexivity.
Qed.
End Pow.

Lemma pow_is_the_power_witness :
  pow 64 3%Z 5%Z = Some (power 3%Z 5).
Proof.
exact (pow_is_the_power (TC := Z_ScalarCommRing) 3%Z 5%Z 64
         ltac:(lia) ltac:(lia)).
Defined.

Lemma pow_does_not_return_for_huge_exponents_witness :
  pow 1000 3%Z (2 ^ 63)%Z = None.
Proof.
exact (pow_does_not_return_for_huge_exponents 3%Z (2 ^ 63)%Z 1000 ltac:(lia)).
Defined.

(** ** Coefficient arrays as polynomials *)

Section Polynomials.
Context {T : Type} `{Scalar T} {TC : ScalarCommRing T}.

Add Ring scalar_ring_polynomials : scalar_ring.

Lemma polynomial_horner (coeffs : list T) (dx : T) :
  polynomial coeffs dx = horner coeffs dx.
Proof.
apply polynomial_is_horner.
Qed.

Lemma horner_snoc (l : list T) (v dx : T) :
  horner (l ++ [v]) dx = (horner l dx + v * power dx (length l))%s.
Proof.
induction l as [| c l IH]; simpl; [ring | rewrite IH; ring].
Qed.

Lemma horner_zeros (n : nat) (dx : T) :
  horner (repeat (cast 0) n) dx = cast 0.
Proof.
induction n as [| n IH]; simpl; [reflexivity | rewrite IH; ring].
Qed.

Lemma horner_padded (l : list T) (n : nat) (dx : T) :
  horner (l ++ repeat (cast 0) n) dx = horner l dx.
Proof.
induction l as [| c l IH]; simpl; [apply horner_zeros | rewrite IH; ring].
Qed.

Lemma horner_set_add (l : list T) (dx v : T) :
  forall i : nat,
    i < length l ->
    horner (set l i (get l i + v)%s) dx = (horner l dx + v * power dx i)%s.
Proof.
induction l as [| c l IH]; intros [| i] Hi; simpl in *; try lia.
- unfold get. simpl. ring.
- change (get (c :: l) (S i)) with (get l i). rewrite IH by lia. ring.
Qed.

Lemma horner_pointwise_sum (f g : nat -> T) (dx : T) (n : nat) :
  forall lo : nat,
    horner (map (fun i => (f i + g i)%s) (seq lo n)) dx
    = (horner (map f (seq lo n)) dx + horner (map g (seq lo n)) dx)%s.
Proof.
induction n as [| n IH]; intros lo; simpl; [ring | rewrite IH; ring].
Qed.

(** The first [size] entries of an array of that size, then zeros. *)
Lemma padded_entries (a : list T) (n : nat) :
  length a <= n ->
  map (fun i => if i <? length a then get a i else cast 0) (seq 0 n)
  = a ++ repeat (cast 0) (n - length a).
Proof.
intros Hn. apply (nth_ext _ _ (cast 0) (cast 0)).
- rewrite length_map, length_seq, length_app, repeat_length. lia.
- intros i Hi. rewrite length_map, length_seq in Hi.
  rewrite (nth_map_seq (fun i => if i <? length a then get a i else cast 0))
    by exact Hi.
  destruct (i <? length a) eqn:E.
  + apply Nat.ltb_lt in E. rewrite app_nth1 by exact E. reflexivity.
  + apply Nat.ltb_ge in E. rewrite app_nth2 by exact E.
    symmetry. apply nth_repeat.
Qed.

(** The inner loop of the product adds [ca[j] * dx^j] times the polynomial
    of [cb], as far as it has come. *)
Lemma inner_loop_value (ca cb : list T) (dx : T) (j : nat) (c : list T) :
  forall K : nat,
    j + K <= length c ->
    horner (fold_left
              (fun c k => set c (j + k) (get c (j + k) + get ca j * get cb k)%s)
              (seq 0 K) c) dx
    = (horner c dx
       + get ca j * power dx j * horner (map (get cb) (seq 0 K)) dx)%s.
Proof.
induction K as [| K IH]; intros HK.
- simpl. ring.
- rewrite !seq_S, fold_left_app, map_app. simpl.
  set (c' := fold_left _ (seq 0 K) c) in *.
  assert (Hlen : length c' = length c)
    by (apply (fold_set_length
                 (fun _ k => j + k)
                 (fun c k => (get c (j + k) + get ca j * get cb k)%s))).
  rewrite horner_set_add by lia. rewrite IH by lia.
  rewrite horner_snoc, length_map, length_seq, power_add. ring.
Qed.

Lemma outer_loop_value (ca cb : list T) (oa : nat) (dx : T) (c : list T) :
  forall J : nat,
    J + oa <= length c ->
    horner (fold_left
              (fun c j =>
                 fold_left
                   (fun c k =>
                      set c (j + k) (get c (j + k) + get ca j * get cb k)%s)
                   (seq 0 (oa + 1)) c)
              (seq 0 J) c) dx
    = (horner c dx
       + horner (map (get ca) (seq 0 J)) dx
         * horner (map (get cb) (seq 0 (oa + 1))) dx)%s.
Proof.
induction J as [| J IH]; intros HJ.
- simpl. ring.
- rewrite !seq_S, fold_left_app, map_app. simpl.
  set (c' := fold_left _ (seq 0 J) c) in *.
  assert (Hlen : length c' = length c).
  { subst c'. clear. generalize c. induction (seq 0 J) as [| j l IHl];
      intros c0; simpl; [reflexivity |].
    rewrite IHl.
    apply (fold_set_length
             (fun _ k => j + k)
             (fun c k => (get c (j + k) + get ca j * get cb k)%s)). }
  rewrite inner_loop_value by lia. rewrite IH by lia.
  rewrite horner_snoc, length_map, length_seq. ring.
Qed.

Lemma convolve_value (o oa : nat) (ca cb : list T) (dx : T) :
  length ca = o + 1 -> length cb = oa + 1 ->
  horner (convolve o oa ca cb) dx = (horner ca dx * horner cb dx)%s.
Proof.
intros Ha Hb. unfold convolve.
rewrite outer_loop_value
  by (unfold make_array; rewrite repeat_length; lia).
unfold make_array. rewrite horner_zeros.
rewrite <- Ha, <- Hb, !get_all. ring.
Qed.

Lemma add_value (a b : list T) (dx : T) :
  horner (add (length a) (length b) a b) dx
  = (horner a dx + horner b dx)%s.
Proof.
unfold add.
transitivity
  (horner (map (fun i =>
                  s_add (if i <? length a then get a i else cast 0)
                        (if i <? length b then get b i else cast 0))
               (seq 0 (Nat.max (length a) (length b)))) dx).
- f_equal. apply map_ext. intros i. cbv zeta.
  destruct (i <? length a), (i <? length b); ring.
- rewrite horner_pointwise_sum.
  rewrite !padded_entries by lia. rewrite !horner_padded. reflexivity.
Qed.

(** X11. Over a commutative ring of scalars (exact arithmetic, no
    rounding), the coefficient array the product of two splines writes for
    an interval is the product of the two polynomials: evaluated as
    [operator()] evaluates, it gives the product of the two values. *)
Theorem convolve_multiplies_polynomials :
  forall (o oa : nat) (thiscoeffs acoeffs : list T) (dx : T),
    length thiscoeffs = o + 1 -> length acoeffs = oa + 1 ->
    polynomial (convolve o oa thiscoeffs acoeffs) dx
    = (polynomial thiscoeffs dx * polynomial acoeffs dx)%s.
Proof.
intros o oa ca cb dx Ha Hb. rewrite !polynomial_horner.
apply convolve_value; assumption.
Qed.

(** X12. Over a commutative ring of scalars (exact arithmetic, no
    rounding), [add] gives the sum of two polynomials, whichever array is
    the longer one, and [changearraysize] to a size that is not smaller
    leaves the polynomial as it is. *)
Theorem add_and_changearraysize_as_polynomials :
  forall (a b : list T) (sizeout : nat) (dx : T),
    length a <= sizeout ->
    polynomial (add (length a) (length b) a b) dx
    = (polynomial a dx + polynomial b dx)%s
    /\ polynomial (changearraysize (length a) sizeout a) dx
       = polynomial a dx.
Proof.
intros a b sizeout dx Hout. rewrite !polynomial_horner. split.
- apply add_value.
- unfold changearraysize. destruct (sizeout =? length a); [reflexivity |].
  rewrite padded_entries by exact Hout. apply horner_padded.
Qed.
End Polynomials.

Lemma convolve_multiplies_polynomials_witness :
  polynomial (convolve 1 1 [1; 2]%Z [3; 4]%Z) 5%Z
  = (polynomial [1; 2]%Z 5 * polynomial [3; 4]%Z 5)%Z.
Proof.
exact (convolve_multiplies_polynomials
         (TC := Z_ScalarCommRing) 1 1 [1; 2]%Z [3; 4]%Z 5%Z eq_refl eq_refl).
Defined.

Lemma add_and_changearraysize_as_polynomials_witness :
  polynomial (add 2 1 [1; 2]%Z [3]%Z) 5%Z
  = (polynomial [1; 2]%Z 5 + polynomial [3]%Z 5)%Z
  /\ polynomial (changearraysize 2 3 [1; 2]%Z) 5%Z = polynomial [1; 2]%Z 5%Z.
Proof.
exact (add_and_changearraysize_as_polynomials
         (TC := Z_ScalarCommRing) [1; 2]%Z [3]%Z 3 5%Z ltac:(simpl; lia)).
Defined.

(** ** restrictSupport with a window that covers the support *)

Section RestrictToAll.
Context {T : Type} `{Scalar T} {TO : ScalarOrder T}.

Lemma s_le_trans (a b c : T) :
  (a <=? b)%s = true -> (b <=? c)%s = true -> (a <=? c)%s = true.
Proof.
rewrite !s_le_lt, !negb_true_iff. intros Hba Hcb.
destruct (c <? a)%s eqn:Eca; [| reflexivity].
destruct (a <? b)%s eqn:Eab.
- rewrite (s_lt_trans c a b Eca Eab) in Hcb. discriminate.
- rewrite <- (s_lt_total a b Eab Hba), Eca in Hcb. discriminate.
Qed.

Variable this : myspline T.
Variables x0 x1 : T.
Hypothesis Hinv : invariant this.
Hypothesis Hlow : (x0 <=? start this)%s = true.
Hypothesis Hhigh : (end_ this <=? x1)%s = true.

Lemma window_covers (j : nat) :
  j < length (_intervals this) ->
  (get (_intervals this) j >=? x0)%s = true
  /\ (get (_intervals this) j <=? x1)%s = true.
Proof.
intros Hj. destruct Hinv as [Hinc _].
unfold start in Hlow. unfold end_ in Hhigh.
destruct (length (_intervals this) =? 0) eqn:Elen;
  [apply Nat.eqb_eq in Elen; lia |].
rewrite front_is_first_element in Hlow.
rewrite back_is_last_element in Hhigh.
split.
- unfold s_ge. apply (s_le_trans _ _ _ Hlow).
  apply index_le_value_le; [exact Hinc | lia | exact Hj].
- refine (s_le_trans _ _ _ _ Hhigh).
  apply index_le_value_le; [exact Hinc | lia | lia].
Qed.

Lemma restrictSupport_keeps_all (m : nat) :
  m + 1 <= length (_intervals this) ->
  fold_left (restrictSupport_step this x0 x1) (seq 0 m) ([], [])
  = (if m =? 0 then []
     else if m + 1 =? length (_intervals this)
          then map (get (_intervals this)) (seq 0 (m + 1))
          else map (get (_intervals this)) (seq 0 m),
     map (coeffs_at (_coefficients this)) (seq 0 m)).
Proof.
induction m as [| m IH]; intros Hm; [reflexivity |].
rewrite seq_S, fold_left_app, IH by lia. simpl fold_left.
assert (Hprev : (if m =? 0 then []
                 else if m + 1 =? length (_intervals this)
                      then map (get (_intervals this)) (seq 0 (m + 1))
                      else map (get (_intervals this)) (seq 0 m))
                = map (get (_intervals this)) (seq 0 m)).
{ destruct m as [| m]; [reflexivity |]. simpl Nat.eqb at 1. cbv iota.
  destruct (S m + 1 =? length (_intervals this)) eqn:E;
    [apply Nat.eqb_eq in E; lia | reflexivity]. }
rewrite Hprev. unfold restrictSupport_step.
destruct (window_covers m ltac:(lia)) as [Hge _].
destruct (window_covers (m + 1) ltac:(lia)) as [_ Hle].
rewrite Hge, Hle. cbn [andb].
change (S m =? 0) with false. cbv iota.
rewrite !map_app. cbn [map]. change (0 + m) with m.
destruct (S m + 1 =? length (_intervals this)) eqn:Elast.
- apply Nat.eqb_eq in Elast.
  destruct (length (_intervals this) <=? m + 2) eqn:E;
    [| apply Nat.leb_gt in E; lia].
  cbn [orb].
  rewrite (map_seq_snoc (get (_intervals this)) 0 (S m)).
  rewrite seq_S, map_app. cbn [map Nat.add].
  replace (m + 1) with (S m) by lia. reflexivity.
- apply Nat.eqb_neq in Elast.
  destruct (length (_intervals this) <=? m + 2) eqn:E;
    [apply Nat.leb_le in E; lia |].
  cbn [orb].
  destruct (window_covers (m + 2) ltac:(apply Nat.leb_gt in E; lia))
    as [_ Hle2].
  unfold s_gt. rewrite s_le_lt, negb_true_iff in Hle2. rewrite Hle2.
  reflexivity.
Qed.
End RestrictToAll.

Section RestrictToAllTheorem.
Context {T : Type} `{Scalar T} {TO : ScalarOrder T}.

(** X13. A window that reaches from at or below the first break point to at
    or above the last one cuts nothing off: [restrictSupport] returns the
    spline itself. *)
Theorem restrictSupport_to_a_covering_window :
  forall (this : myspline T) (x0 x1 : T),
    invariant this ->
    (x0 <=? start this)%s = true ->
    (end_ this <=? x1)%s = true ->
    restrictSupport this x0 x1 = Ok this.
Proof.
intros this x0 x1 Hinv Hlow Hhigh. unfold restrictSupport.
pose proof Hinv as [Hinc [[Hnil Hcs] | [Hlen Hsizes]]].
- rewrite Hnil. simpl. rewrite construct_Ok;
    [| intros i Hi; simpl in Hi; lia | left; split; reflexivity].
  rewrite <- (spline_eta this), Hnil, Hcs. reflexivity.
- rewrite (restrictSupport_keeps_all this x0 x1 Hinv Hlow Hhigh) by lia.
  destruct (length (_intervals this) - 1 =? 0) eqn:E0;
    [apply Nat.eqb_eq in E0; lia |].
  destruct (length (_intervals this) - 1 + 1 =? length (_intervals this))
    eqn:E1; [| apply Nat.eqb_neq in E1; lia].
  replace (length (_intervals this) - 1 + 1)
    with (length (_intervals this)) by lia.
  replace (length (_intervals this) - 1)
    with (length (_coefficients this)) by lia.
  rewrite get_all, map_coeffs_at_seq.
  rewrite construct_Ok; [| exact Hinc | right; split; assumption].
  rewrite spline_eta. reflexivity.
Qed.
End RestrictToAllTheorem.

Lemma restrictSupport_to_a_covering_window_witness :
  restrictSupport spline_0_2_4 (-1)%Z 4%Z = Ok spline_0_2_4.
Proof.
exact (restrictSupport_to_a_covering_window
         (TO := Z_ScalarOrder) spline_0_2_4 (-1)%Z 4%Z
         invariant_spline_0_2_4 eq_refl eq_refl).
Defined.

(** ** invert, twice *)

Section InvertTwice.
Context {T : Type} `{Scalar T} {TO : ScalarOrder T} {TC : ScalarCommRing T}.

Add Ring scalar_ring_invert : scalar_ring.

Hypothesis minus_one : @cast T _ (-1) = (- cast 1)%s.

Local Abbreviation flip_signs o :=
  (fun oldcoeffs : list T =>
     map (fun j =>
            ((if j mod 2 =? 0 then cast 1 else cast (-1)) * get oldcoeffs j)%s)
         (seq 0 (o + 1))).

Lemma sign_twice (j : nat) (c : T) :
  ((if j mod 2 =? 0 then cast 1 else cast (-1))
   * ((if j mod 2 =? 0 then cast 1 else cast (-1)) * c))%s = c.
Proof.
destruct (j mod 2 =? 0); [| rewrite minus_one]; ring.
Qed.

Lemma flip_signs_entry (o : nat) (c : list T) (j : nat) :
  j < o + 1 ->
  get (flip_signs o c) j
  = ((if j mod 2 =? 0 then cast 1 else cast (-1)) * get c j)%s.
Proof.
intros Hj. unfold get at 1.
rewrite (nth_map_seq
           (fun j => ((if j mod 2 =? 0 then cast 1 else cast (-1))
                      * get c j)%s)) by exact Hj.
reflexivity.
Qed.

Lemma flip_signs_twice (o : nat) (c : list T) :
  length c = o + 1 -> flip_signs o (flip_signs o c) = c.
Proof.
intros Hlen. rewrite <- (get_all c) at 2. rewrite Hlen.
apply map_ext_in. intros j Hj. apply in_seq in Hj.
rewrite flip_signs_entry by lia. apply sign_twice.
Qed.

Lemma flip_signs_zero (o : nat) (c : list T) :
  length c = o + 1 ->
  (forall j, get (flip_signs o c) j = cast 0) ->
  Forall (fun x => x = cast 0) c.
Proof.
intros Hlen Hzero. apply Forall_forall. intros x Hx.
destruct (In_nth c x (cast 0) Hx) as [j [Hj <-]].
change (nth j c (cast 0)) with (get c j).
rewrite <- (sign_twice j (get c j)).
rewrite <- (flip_signs_entry o c j) by lia. rewrite Hzero. ring.
Qed.
End InvertTwice.

Section InvertTwiceTheorem.
Context {T : Type} `{Scalar T} {TO : ScalarOrder T} {TC : ScalarCommRing T}.

Add Ring scalar_ring_invert_twice : scalar_ring.

Local Abbreviation flip_signs o :=
  (fun oldcoeffs : list T =>
     map (fun j =>
            ((if j mod 2 =? 0 then cast 1 else cast (-1)) * get oldcoeffs j)%s)
         (seq 0 (o + 1))).

(** X14. Mirroring twice gives the spline back: for a spline that satisfies
    the data invariant, with arrays of [order + 1] coefficients, [invert]
    returns a spline on which [invert] returns the first one. *)
Theorem invert_twice_is_the_identity :
  forall this : myspline T,
    invariant this ->
    arrays_sized (order this + 1) (_coefficients this) ->
    (forall x y : T, (x <? y)%s = true -> (- y <? - x)%s = true) ->
    @cast T _ (-1) = (- cast 1)%s ->
    exists r, invert this = Ok r /\ invert r = Ok this.
Proof.
intros this Hinv Hsized Hneg minus_one. pose proof Hinv as [Hinc Hsizes].
destruct (isZero this) eqn:Ezero.
{ exists this. unfold invert. rewrite Ezero. split; reflexivity. }
assert (Hne : _intervals this <> []).
{ intros Hnil. unfold isZero in Ezero. rewrite Hnil in Ezero. discriminate. }
pose proof (nonempty_has_two_points this Hinv Hne) as Htwo.
destruct Hsizes as [[Hnil _] | [_ Hcs]]; [contradiction |].
set (r := {| order := order this;
             _intervals := map (fun x => (- x)%s) (rev (_intervals this));
             _coefficients :=
               map (flip_signs (order this)) (rev (_coefficients this)) |}).
destruct (invert_succeeds this Hinv Hneg) as [r' [Hr' Hinvr]].
assert (Hr : invert this = Ok r).
{ rewrite Hr'. f_equal. unfold invert in Hr'. rewrite Ezero in Hr'.
  destruct (1 <=? length (_intervals this)) eqn:Eone;
    [| apply Nat.leb_gt in Eone; lia].
  simpl in Hr'. apply construct_Ok_inv in Hr'. exact (proj1 Hr'). }
assert (Hinvr' : invariant r) by (rewrite Hr' in Hr; injection Hr as <-; exact Hinvr).
exists r. split; [exact Hr |].
unfold arrays_sized in Hsized. rewrite Forall_forall in Hsized.
assert (Hnonzero : isZero r = false).
{ destruct (isZero r) eqn:Ezr; [| reflexivity].
  rewrite <- Ezero. symmetry. apply all_zero_isZero.
  apply Forall_forall. intros c Hc.
  apply (flip_signs_zero minus_one (order this)); [apply Hsized; exact Hc |].
  intros j. destruct (In_nth _ _ [] Hc) as [k [Hk Hnth]].
  assert (Hrne : _intervals r <> []).
  { intros Hnil. apply (f_equal (@length T)) in Hnil. simpl in Hnil.
    rewrite length_map, length_rev in Hnil. lia. }
  pose proof (isZero_entries r Ezr Hrne
                (length (_coefficients this) - S k) j) as Hentry.
  unfold coeffs_at in Hentry. simpl in Hentry.
  rewrite (nth_indep _ [] (flip_signs (order this) [])) in Hentry
    by (rewrite length_map, length_rev; lia).
  rewrite (map_nth (flip_signs (order this))) in Hentry.
  rewrite rev_nth in Hentry by lia.
  replace (length (_coefficients this)
           - S (length (_coefficients this) - S k)) with k in Hentry by lia.
  rewrite Hnth in Hentry. exact Hentry. }
unfold invert. rewrite Hnonzero.
destruct (1 <=? length (_intervals r)) eqn:Eone.
2: { apply Nat.leb_gt in Eone. simpl in Eone.
     rewrite length_map, length_rev in Eone. lia. }
unfold ARRAY_SIZE. subst r. cbn [bind assert _intervals _coefficients order].
rewrite <- (map_rev (fun x : T => (- x)%s)), rev_involutive, map_map.
rewrite <- (map_rev (flip_signs (order this))), rev_involutive, map_map.
rewrite (map_ext (fun x : T => (- - x)%s) (fun x => x)) by (intros x; ring).
rewrite map_id.
rewrite (map_ext_in _ (fun c => c))
  by (intros c Hc; apply (flip_signs_twice minus_one (order this)), Hsized, Hc).
rewrite map_id.
rewrite construct_Ok; [| exact Hinc | right; split; assumption].
rewrite spline_eta. reflexivity.
Qed.
End InvertTwiceTheorem.

Lemma invert_twice_is_the_identity_witness :
  exists r, invert spline_0_2_4 = Ok r /\ invert r = Ok spline_0_2_4.
Proof.
exact (invert_twice_is_the_identity
         (TO := Z_ScalarOrder) (TC := Z_ScalarCommRing)
         spline_0_2_4 invariant_spline_0_2_4 arrays_sized_spline_0_2_4
         ltac:(intros x y Hxy; apply Z.ltb_lt in Hxy; apply Z.ltb_lt;
               simpl; lia)
         eq_refl).
Defined.

(** ** generateBspline on increasing knots *)

Section LegacyGenerator.
Context {T : Type} `{Scalar T} {TO : ScalarOrder T}.

Lemma at_out_of_range {A} (l : list A) (i : nat) :
  length l <= i -> at_ l i = Fail out_of_range.
Proof.
intros Hi. unfold at_. rewrite (proj2 (nth_error_None l i) Hi). reflexivity.
Qed.

Lemma timesx_shape (s : myspline T) :
  invariant s ->
  exists r, timesx s = Ok r /\ invariant r
            /\ order r = order s + 1 /\ _intervals r = _intervals s.
Proof.
intros Hinv. destruct (timesx_succeeds s Hinv) as [r [Hr Hinvr]].
exists r. split; [exact Hr |]. split; [exact Hinvr |].
unfold timesx in Hr. apply construct_Ok_inv in Hr. destruct Hr as [-> _].
split; reflexivity.
Qed.

Lemma plus_shape (this a : myspline T) :
  invariant this -> invariant a ->
  exists r, plus this a = Ok r /\ invariant r
            /\ order r = Nat.max (order this) (order a)
            /\ _intervals r = merged_intervals this a.
Proof.
intros Hthis Ha. destruct (plus_succeeds this a Hthis Ha) as [r [Hr Hinvr]].
exists r. split; [exact Hr |]. split; [exact Hinvr |].
unfold plus in Hr. apply construct_Ok_inv in Hr. destruct Hr as [-> _].
split; reflexivity.
Qed.

Lemma minus_shape (this a : myspline T) :
  invariant this -> invariant a ->
  exists r, minus this a = Ok r /\ invariant r
            /\ order r = Nat.max (order this) (order a)
            /\ _intervals r = makeuniquesorted (_intervals a ++ _intervals this).
Proof.
intros Hthis Ha. unfold minus.
apply (plus_shape this (scalar_times (cast (-1)) a) Hthis).
apply times_scalar_invariant. exact Ha.
Qed.

Lemma plus_assign_shape (this a : myspline T) :
  invariant this -> invariant a ->
  exists r, plus_assign this a = Ok r /\ invariant r
            /\ order r = order this
            /\ _intervals r = merged_intervals this a.
Proof.
intros Hthis Ha.
destruct (plus_assign_succeeds this a Hthis Ha) as [r [Hr Hinvr]].
exists r. split; [exact Hr |]. split; [exact Hinvr |].
unfold plus_assign, setData in Hr. apply construct_Ok_inv in Hr.
destruct Hr as [-> _]. split; reflexivity.
Qed.

Variable knots : list T.
Hypothesis Hknots : strictly_increasing knots.

Local Abbreviation run i n := (map (get knots) (seq i n)).

Lemma run_increasing (i n : nat) :
  i + n <= length knots -> strictly_increasing (run i n).
Proof.
intros Hn idx Hidx. rewrite length_map, length_seq in Hidx.
unfold get at 1 3. rewrite !nth_map_seq_from by lia.
replace (i + (idx + 1)) with (i + idx + 1) by lia.
apply Hknots. lia.
Qed.

(** Two runs of knots that overlap or touch merge into one run. *)
Lemma merged_runs (i n1 j n2 : nat) :
  i <= j -> j <= i + n1 -> i + n1 <= j + n2 -> j + n2 <= length knots ->
  makeuniquesorted (run j n2 ++ run i n1) = run i (j + n2 - i).
Proof.
intros Hij Hj Hn Hlen. apply makeuniquesorted_is.
- apply run_increasing. lia.
- intros x. rewrite in_app_iff, !in_map_iff. split.
  + intros [m [<- Hm]]. apply in_seq in Hm.
    destruct (Nat.lt_ge_cases m (i + n1)) as [Hlt | Hge].
    * right. exists m. split; [reflexivity | apply in_seq; lia].
    * left. exists m. split; [reflexivity | apply in_seq; lia].
  + intros [[m [<- Hm]] | [m [<- Hm]]]; apply in_seq in Hm;
      exists m; (split; [reflexivity | apply in_seq; lia]).
Qed.

Lemma generateBspline_spec :
  forall km1 i : nat,
    (i + km1 + 1 < length knots ->
     exists r, generateBspline km1 knots i = Ok r
               /\ invariant r /\ order r = km1
               /\ _intervals r = run i (km1 + 2))
    /\ (length knots <= i + km1 + 1 ->
        generateBspline km1 knots i = Fail out_of_range).
Proof.
induction km1 as [| km2 IH]; intros i.
- cbn [generateBspline].
  destruct (Nat.lt_ge_cases i (length knots)) as [Hi | Hi].
  2: { split; [lia |]. intros _. rewrite at_out_of_range by lia. reflexivity. }
  rewrite (at_in_range knots i (cast 0)) by lia. cbn [bind].
  destruct (Nat.lt_ge_cases (i + 1) (length knots)) as [Hi1 | Hi1].
  2: { split; [lia |]. intros _. rewrite at_out_of_range by lia. reflexivity. }
  rewrite (at_in_range knots (i + 1) (cast 0)) by lia. cbn [bind].
  split; [intros _ | lia].
  pose proof (Hknots i Hi1) as Hlt. unfold get in Hlt.
  assert (Hgt : (nth (i + 1) knots (cast 0) >? nth i knots (cast 0))%s = true)
    by exact Hlt.
  rewrite Hgt. cbn [assert bind].
  assert (Hinc : strictly_increasing
                   [nth i knots (cast 0); nth (i + 1) knots (cast 0)]).
  { intros [| idx] Hidx; simpl in Hidx; [| lia]. exact Hlt. }
  rewrite construct_Ok; [| exact Hinc | right; simpl; lia].
  eexists. split; [reflexivity |]. split; [| split; [reflexivity |]].
  + split; [exact Hinc | right; simpl; lia].
  + simpl. unfold get. replace (S i) with (i + 1) by lia. reflexivity.
- cbn [generateBspline]. cbv zeta.
  replace (i + S (S km2) - 1) with (i + S km2) by lia.
  destruct (Nat.lt_ge_cases i (length knots)) as [Hi | Hi].
  2: { split; [lia |]. intros _. rewrite at_out_of_range by lia. reflexivity. }
  rewrite (at_in_range knots i (cast 0)) by lia. cbn [bind].
  destruct (Nat.lt_ge_cases (i + S km2) (length knots)) as [Hi1 | Hi1].
  2: { split; [lia |]. intros _. rewrite at_out_of_range by lia. reflexivity. }
  rewrite (at_in_range knots (i + S km2) (cast 0)) by lia. cbn [bind].
  (* the first term *)
  assert (Hguard1 : (nth (i + S km2) knots (cast 0)
                      >? nth i knots (cast 0))%s = true)
    by (apply (strictly_increasing_lt knots Hknots (i + S km2) i); lia).
  rewrite Hguard1.
  destruct (proj1 (IH i) ltac:(lia)) as [r1 [Hr1 [Hinv1 [Ho1 Hi1s]]]].
  rewrite Hr1. cbn [bind].
  set (prefac1 := (cast 1 / (nth (i + S km2) knots (cast 0)
                             - nth i knots (cast 0)))%s).
  assert (Hs1 : invariant (times_assign_scalar r1 prefac1))
    by (apply (times_scalar_invariant r1 prefac1 Hinv1)).
  destruct (timesx_shape _ Hs1) as [p1 [Hp1 [Hinvp1 [Hop1 Hip1]]]].
  rewrite Hp1. cbn [bind].
  destruct (minus_shape p1 (scalar_times (nth i knots (cast 0))
                                         (times_assign_scalar r1 prefac1))
              Hinvp1 (times_scalar_invariant _ _ Hs1))
    as [d1 [Hd1 [Hinvd1 [Hod1 Hid1]]]].
  rewrite Hd1. cbn [bind].
  destruct (plus_assign_shape (default (S km2)) d1
              (default_invariant (S km2)) Hinvd1)
    as [ret1 [Hret1 [Hinvret1 [Horet1 Hiret1]]]].
  rewrite Hret1. cbn [bind].
  assert (Hints_d1 : _intervals d1 = run i (km2 + 2)).
  { rewrite Hid1, Hip1. cbn [scalar_times times_scalar times_assign_scalar
                                _intervals].
    rewrite Hi1s. rewrite (merged_runs i (km2 + 2) i (km2 + 2)) by lia.
    f_equal. f_equal. lia. }
  assert (Hints_ret1 : _intervals ret1 = run i (km2 + 2)).
  { rewrite Hiret1. unfold merged_intervals. rewrite Hints_d1.
    cbn [default _intervals].
    change (@nil T) with (run i 0).
    rewrite (merged_runs i 0 i (km2 + 2)) by lia.
    f_equal. f_equal. lia. }
  (* the second term *)
  rewrite (at_in_range knots (i + 1) (cast 0)) by lia. cbn [bind].
  destruct (Nat.lt_ge_cases (i + S (S km2)) (length knots)) as [Hi2 | Hi2].
  2: { split; [lia |]. intros _. rewrite at_out_of_range by lia. reflexivity. }
  rewrite (at_in_range knots (i + S (S km2)) (cast 0)) by lia. cbn [bind].
  split; [intros _ | lia].
  assert (Hguard2 : (nth (i + S (S km2)) knots (cast 0)
                      >? nth (i + 1) knots (cast 0))%s = true)
    by (apply (strictly_increasing_lt knots Hknots (i + S (S km2)) (i + 1));
        lia).
  rewrite Hguard2.
  destruct (proj1 (IH (i + 1)) ltac:(lia)) as [r2 [Hr2 [Hinv2 [Ho2 Hi2s]]]].
  rewrite Hr2. cbn [bind].
  set (prefac2 := (cast 1 / (nth (i + S (S km2)) knots (cast 0)
                             - nth (i + 1) knots (cast 0)))%s).
  assert (Hs2 : invariant (times_assign_scalar r2 prefac2))
    by (apply (times_scalar_invariant r2 prefac2 Hinv2)).
  destruct (timesx_shape _ Hs2) as [p2 [Hp2 [Hinvp2 [Hop2 Hip2]]]].
  rewrite Hp2. cbn [bind].
  destruct (minus_shape (scalar_times (nth (i + S (S km2)) knots (cast 0))
                                      (times_assign_scalar r2 prefac2))
              p2 (times_scalar_invariant _ _ Hs2) Hinvp2)
    as [d2 [Hd2 [Hinvd2 [Hod2 Hid2]]]].
  rewrite Hd2. cbn [bind].
  destruct (plus_assign_shape ret1 d2 Hinvret1 Hinvd2)
    as [ret2 [Hret2 [Hinvret2 [Horet2 Hiret2]]]].
  rewrite Hret2. cbn [bind].
  exists ret2. split; [reflexivity |]. split; [exact Hinvret2 |].
  split; [rewrite Horet2, Horet1; reflexivity |].
  rewrite Hiret2. unfold merged_intervals. rewrite Hints_ret1, Hid2, Hip2.
  cbn [scalar_times times_scalar times_assign_scalar _intervals].
  rewrite Hi2s. rewrite (merged_runs (i + 1) (km2 + 2) (i + 1) (km2 + 2)) by lia.
  replace (i + 1 + (km2 + 2) - (i + 1)) with (km2 + 2) by lia.
  rewrite (merged_runs i (km2 + 2) (i + 1) (km2 + 2)) by lia.
  f_equal. f_equal. lia.
Qed.
End LegacyGenerator.

Section LegacyGeneratorTheorem.
Context {T : Type} `{Scalar T} {TO : ScalarOrder T}.

(** X15. On strictly increasing knots, [generateBspline<T, k>(knots, i)]
    returns when [i + k] is the index of a knot, and then gives a spline of
    order [k - 1] that satisfies the data invariant and whose break points
    are the knots [i, ..., i + k]; when [i + k] is past the last knot it
    leaves with [std::out_of_range]. *)
Theorem generateBspline_on_increasing_knots :
  forall (knots : list T) (km1 i : nat),
    strictly_increasing knots ->
    (i + km1 + 1 < length knots ->
     exists r, generateBspline km1 knots i = Ok r
               /\ invariant r /\ order r = km1
               /\ _intervals r = map (get knots) (seq i (km1 + 2)))
    /\ (length knots <= i + km1 + 1 ->
        generateBspline km1 knots i = Fail out_of_range).
Proof.
intros knots km1 i Hknots. apply generateBspline_spec. exact Hknots.
Qed.
End LegacyGeneratorTheorem.

Lemma generateBspline_on_increasing_knots_witness :
  (exists r, generateBspline 1 grid_points_0_to_6 1 = Ok r
             /\ invariant r /\ order r = 1
             /\ _intervals r = [2; 4; 6]%Z)
  /\ generateBspline 1 grid_points_0_to_6 2 = Fail out_of_range.
Proof.
pose proof (generateBspline_on_increasing_knots
              (TO := Z_ScalarOrder) grid_points_0_to_6 1 1
              grid_points_0_to_6_increasing) as [Hthere _].
pose proof (generateBspline_on_increasing_knots
              (TO := Z_ScalarOrder) grid_points_0_to_6 1 2
              grid_points_0_to_6_increasing) as [_ Hpast].
split; [apply Hthere; simpl; lia | apply Hpast; simpl; lia].
Defined.

(** ** BSplineGenerator: a single B-spline *)

Section GenerateOne.
Context {T : Type} `{Scalar T} {TO : ScalarOrder T}.
Variable Grid : Type.
Variable Spline : nat -> Type.
Variable findElement : Grid -> T -> nat.
Variable Spline_on : Grid -> nat -> nat -> list (list T) -> Spline 0.
Variable Spline_zero : forall o : nat, Grid -> Spline o.
Variable Spline_scale : forall o : nat, T -> Spline o -> Spline o.
Variable Spline_timesx : forall o : nat, Spline o -> Spline (S o).
Variable Spline_minus :
  forall o oa : nat, Spline o -> Spline oa -> Spline (Nat.max o oa).
Variable Spline_plus_assign :
  forall o oa : nat, Spline o -> Spline oa -> Spline o.
Variable this : BSplineGenerator T Grid.

Local Abbreviation generate_one :=
  (generateBSpline Spline findElement Spline_on Spline_zero Spline_scale
                   Spline_timesx Spline_minus Spline_plus_assign).

Lemma generateBSpline_inner_call (km2 i : nat) :
  i + S km2 < length (_knots this) ->
  (get (_knots this) (i + S km2) >? get (_knots this) i)%s = true ->
  exists b, generate_one km2 this i = Ok b.
Proof.
intros Hi Hguard. destruct km2 as [| km3].
- apply generateBSpline_order_zero_guarded; [lia | exact Hguard].
- apply generateBSpline_higher_order. lia.
Qed.

Lemma generateBSpline_past_the_knots (km1 i : nat) :
  length (_knots this) <= i + S km1 ->
  generate_one km1 this i = Fail out_of_range.
Proof.
intros Hpast. destruct km1 as [| km2]; cbn [generateBSpline].
- destruct (Nat.lt_ge_cases i (length (_knots this))) as [Hi | Hi].
  + rewrite (at_in_range (_knots this) i (cast 0)) by lia. cbn [bind].
    rewrite at_out_of_range by lia. reflexivity.
  + rewrite at_out_of_range by lia. reflexivity.
- cbv zeta. replace (i + S (S km2) - 1) with (i + S km2) by lia.
  destruct (Nat.lt_ge_cases i (length (_knots this))) as [Hi | Hi];
    [| rewrite at_out_of_range by lia; reflexivity].
  rewrite (at_in_range (_knots this) i (cast 0)) by lia. cbn [bind].
  destruct (Nat.lt_ge_cases (i + S km2) (length (_knots this))) as [Hi1 | Hi1];
    [| rewrite at_out_of_range by lia; reflexivity].
  rewrite (at_in_range (_knots this) (i + S km2) (cast 0)) by lia.
  cbn [bind].
  rewrite (at_in_range (_knots this) (i + 1) (cast 0)) by lia.
  rewrite (at_out_of_range (_knots this) (i + S (S km2))) by lia.
  destruct (nth (i + S km2) (_knots this) (cast 0)
            >? nth i (_knots this) (cast 0))%s eqn:Eguard.
  + destruct (generateBSpline_inner_call km2 i Hi1 Eguard) as [b Hb].
    rewrite Hb. reflexivity.
  + reflexivity.
Qed.

(** X16. [generateBSpline<k>(i)] leaves with [std::out_of_range] exactly
    when [i + k] is past the last knot. *)
Theorem generateBSpline_out_of_range_exactly :
  forall km1 i : nat,
    generateBSpline Spline findElement Spline_on Spline_zero Spline_scale
                    Spline_timesx Spline_minus Spline_plus_assign km1 this i
    = Fail out_of_range
    <-> length (_knots this) <= i + S km1.
Proof.
intros km1 i. split; [| apply generateBSpline_past_the_knots].
intros Hfail.
destruct (Nat.lt_ge_cases (i + S km1) (length (_knots this)))
  as [Hin | Hpast]; [exfalso | exact Hpast].
destruct km1 as [| km2].
- rewrite generateBSpline_order_zero in Hfail by lia.
  destruct (get (_knots this) i >=? get (_knots this) (i + 1))%s;
    discriminate.
- destruct (generateBSpline_higher_order
              Grid Spline findElement Spline_on Spline_zero Spline_scale
              Spline_timesx Spline_minus Spline_plus_assign this km2 i Hin)
    as [b Hb].
  rewrite Hb in Hfail. discriminate.
Qed.
End GenerateOne.

Lemma generateBSpline_out_of_range_exactly_witness :
  generateBSpline no_data
    (fun _ _ => 0) (fun _ _ _ _ => tt) (fun _ _ => tt) (fun _ _ _ => tt)
    (fun _ _ => tt) (fun _ _ _ _ => tt) (fun _ _ _ _ => tt)
    1 {| _grid := tt; _knots := [0; 1; 2]%Z |} 1
  = Fail out_of_range.
Proof.
apply (generateBSpline_out_of_range_exactly
         (TO := Z_ScalarOrder) unit no_data (fun _ _ => 0)
         (fun _ _ _ _ => tt) (fun _ _ => tt) (fun _ _ _ => tt)
         (fun _ _ => tt) (fun _ _ _ _ => tt) (fun _ _ _ _ => tt)
         {| _grid := tt; _knots := [0; 1; 2]%Z |} 1 1).
simpl. lia.
Defined.

(** ** Assignment from a spline of lower order *)

Section Assignment.
Context {T : Type} `{Scalar T} {TO : ScalarOrder T} {TC : ScalarCommRing T}.



End Assignment.


(** ** The grid of a knot vector *)

Section GenerateGrid.
Context {T : Type} `{Scalar T} {TO : ScalarOrder T}.

Lemma unique_from_twice (l : list T) :
  forall prev : T,
    unique_from prev (unique_from prev l) = unique_from prev l.
Proof.
induction l as [| y l IH]; intros prev; simpl; [reflexivity |].
destruct (prev ==? y)%s eqn:E; [apply IH |].
simpl. rewrite E, IH. reflexivity.
Qed.

(** X18. For knots that never decrease, the points of the generated grid
    increase strictly and are exactly the values of the knots; and for any
    knots, generating the grid of the grid points changes nothing. *)
Theorem generateGrid_of_sorted_knots :
  forall knots : list T,
    (Sorted not_above knots ->
     strictly_increasing (generateGrid knots)
     /\ forall x, In x (generateGrid knots) <-> In x knots)
    /\ generateGrid (generateGrid knots) = generateGrid knots.
Proof.
intros knots. split.
- intros Hsorted. unfold generateGrid.
  destruct (unique_spec knots Hsorted) as [Hs Hin].
  split; [apply Sorted_below_strictly_increasing; exact Hs | exact Hin].
- unfold generateGrid. destruct knots as [| a l]; [reflexivity |].
  simpl. rewrite unique_from_twice. reflexivity.
Qed.
End GenerateGrid.

Lemma generateGrid_of_sorted_knots_witness :
  (strictly_increasing (generateGrid [0; 0; 1; 2; 2]%Z)
   /\ forall x, In x (generateGrid [0; 0; 1; 2; 2]%Z)
                <-> In x [0; 0; 1; 2; 2]%Z)
  /\ generateGrid (generateGrid [0; 0; 1; 2; 2]%Z)
     = generateGrid [0; 0; 1; 2; 2]%Z.
Proof.
destruct (generateGrid_of_sorted_knots (TO := Z_ScalarOrder)
            [0; 0; 1; 2; 2]%Z) as [Hsorted Htwice].
split; [apply Hsorted | exact Htwice].
repeat constructor.
Defined.

(** ** The analytical integration helper on equal grids *)

Section IntegrationReturns.
Context {T : Type} `{Scalar T}.
Variable f : nat -> nat -> T -> T -> T -> T -> T.
Variables m1 m2 : GridClass.Spline T.

Local Abbreviation s1 := (GridClass.getSupport m1).
Local Abbreviation s2 := (GridClass.getSupport m2).
Local Abbreviation common :=
  {| GridClass._grid := GridClass._grid s1;
     GridClass._startIndex :=
       Nat.max (GridClass._startIndex s1) (GridClass._startIndex s2);
     GridClass._endIndex :=
       Nat.min (GridClass._endIndex s1) (GridClass._endIndex s2) |}.

Local Abbreviation integrate_one :=
  (fun (res : result T) (interv : nat) =>
     res <- res;;
     absIndex <- GridClass.absoluteFromRelative common interv;;
     m1Index <- GridClass.value (GridClass.relativeFromAbsolute s1 absIndex);;
     m2Index <- GridClass.value (GridClass.relativeFromAbsolute s2 absIndex);;
     Ok (res + GridClass.integrateIntervalAnalytically
                 f (GridClass.spline_order m1 + 1)
                 (GridClass.spline_order m2 + 1)
                 (coeffs_at (GridClass.getCoefficients m1) m1Index)
                 (coeffs_at (GridClass.getCoefficients m2) m2Index)
                 (GridClass.support_get s1 m1Index)
                 (GridClass.support_get s1 (m1Index + 1)))%s).

Lemma integration_step_returns (interv : nat) (acc : T) :
  interv < GridClass.size common ->
  exists v, integrate_one (Ok acc) interv = Ok v.
Proof.
intros Hi. unfold GridClass.size in Hi.
cbn [GridClass._startIndex GridClass._endIndex] in Hi.
cbn [bind].
unfold GridClass.absoluteFromRelative, GridClass.size.
cbn [GridClass._startIndex GridClass._endIndex].
destruct (interv
          <? Nat.min (GridClass._endIndex s1) (GridClass._endIndex s2)
             - Nat.max (GridClass._startIndex s1) (GridClass._startIndex s2))
  eqn:E; [| apply Nat.ltb_ge in E; lia].
cbn [assert bind].
unfold GridClass.relativeFromAbsolute.
destruct ((GridClass._startIndex s1
           <=? interv + Nat.max (GridClass._startIndex s1)
                                (GridClass._startIndex s2))
          && (interv + Nat.max (GridClass._startIndex s1)
                               (GridClass._startIndex s2)
              <? GridClass._endIndex s1)) eqn:E1.
2: { apply andb_false_iff in E1.
     destruct E1 as [E1 | E1];
       [apply Nat.leb_gt in E1 | apply Nat.ltb_ge in E1]; lia. }
cbn [GridClass.value bind].
destruct ((GridClass._startIndex s2
           <=? interv + Nat.max (GridClass._startIndex s1)
                                (GridClass._startIndex s2))
          && (interv + Nat.max (GridClass._startIndex s1)
                               (GridClass._startIndex s2)
              <? GridClass._endIndex s2)) eqn:E2.
2: { apply andb_false_iff in E2.
     destruct E2 as [E2 | E2];
       [apply Nat.leb_gt in E2 | apply Nat.ltb_ge in E2]; lia. }
cbn [GridClass.value bind]. eexists. reflexivity.
Qed.

Lemma integration_loop_returns (l : list nat) :
  (forall interv, In interv l -> interv < GridClass.size common) ->
  forall acc : T, exists v, fold_left integrate_one l (Ok acc) = Ok v.
Proof.
induction l as [| interv l IH]; intros Hin acc; [exists acc; reflexivity |].
destruct (integration_step_returns interv acc (Hin interv (or_introl eq_refl)))
  as [v1 Hv1].
destruct (IH (fun j Hj => Hin j (or_intror Hj)) v1) as [v Hv].
exists v. rewrite <- Hv. cbn [fold_left]. f_equal. exact Hv1.
Qed.

(** X19. On equal grids, with supports their constructor accepts, the
    integration helper always returns a value: no assertion stops it and no
    empty optional is read.  The value is zero when the two supports have no
    interval in common. *)
Theorem helperAnalyticIntegration_returns_on_equal_grids :
  GridClass.hasSameGrid s1 s2 = true ->
  support_valid s1 -> support_valid s2 ->
  exists v,
    GridClass.helperAnalyticIntegration f m1 m2 = Ok v
    /\ (Nat.min (GridClass._endIndex s1) (GridClass._endIndex s2)
        <= Nat.max (GridClass._startIndex s1) (GridClass._startIndex s2) + 1 ->
        v = cast 0).
Proof.
intros Hsame [Hle1 Hsize1] [Hle2 Hsize2].
unfold GridClass.helperAnalyticIntegration, GridClass.calcIntersection.
rewrite Hsame. cbn [negb assert bind].
destruct (Nat.min (GridClass._endIndex s1) (GridClass._endIndex s2)
          <=? Nat.max (GridClass._startIndex s1) (GridClass._startIndex s2))
  eqn:Eempty.
- cbn [bind]. exists (cast 0). split; [reflexivity | intros _; reflexivity].
- apply Nat.leb_gt in Eempty. unfold GridClass.support_construct.
  destruct ((Nat.max (GridClass._startIndex s1) (GridClass._startIndex s2)
             <=? Nat.min (GridClass._endIndex s1) (GridClass._endIndex s2))
            && (Nat.min (GridClass._endIndex s1) (GridClass._endIndex s2)
                <=? GridClass._size (GridClass._grid s1))) eqn:Eassert.
  2: { apply andb_false_iff in Eassert.
       destruct Eassert as [E | E]; apply Nat.leb_gt in E; lia. }
  cbn [assert bind].
  destruct (GridClass.numberOfIntervals common =? 0) eqn:Enone.
  + exists (cast 0). split; [reflexivity | intros _; reflexivity].
  + apply Nat.eqb_neq in Enone.
    destruct (integration_loop_returns
                (seq 0 (GridClass.numberOfIntervals common))) with (acc := cast 0)
      as [v Hv].
    { intros interv Hin. apply in_seq in Hin.
      unfold GridClass.numberOfIntervals in *.
      destruct (GridClass.size common =? 0); lia. }
    exists v. split; [exact Hv |].
    intros Hnone. exfalso. apply Enone.
    unfold GridClass.numberOfIntervals, GridClass.size.
    cbn [GridClass._startIndex GridClass._endIndex].
    destruct (Nat.min (GridClass._endIndex s1) (GridClass._endIndex s2)
              - Nat.max (GridClass._startIndex s1) (GridClass._startIndex s2)
              =? 0); lia.
Qed.
End IntegrationReturns.

Lemma helperAnalyticIntegration_returns_on_equal_grids_witness :
  exists v,
    GridClass.helperAnalyticIntegration
      overlap_weight (one_on grid_0_2_4) (one_on grid_0_2_4) = Ok v.
Proof.
destruct (helperAnalyticIntegration_returns_on_equal_grids
            overlap_weight (one_on grid_0_2_4) (one_on grid_0_2_4)
            eq_refl ltac:(split; simpl; lia) ltac:(split; simpl; lia))
  as [v [Hv _]].
exists v. exact Hv.
Defined.

(** ** The sizes of the coefficient arrays *)

Section ArraySizes.
Context {T : Type} `{Scalar T} {TO : ScalarOrder T}.

Lemma sized_entry (n : nat) (cs : list (list T)) (i : nat) :
  arrays_sized n cs -> i < length cs -> length (coeffs_at cs i) = n.
Proof.
unfold arrays_sized. rewrite Forall_forall. intros Hsized Hi.
apply Hsized. unfold coeffs_at. apply nth_In. exact Hi.
Qed.

Lemma sized_map_seq (n : nat) (f : nat -> list T) (lo cnt : nat) :
  (forall i, lo <= i < lo + cnt -> length (f i) = n) ->
  arrays_sized n (map f (seq lo cnt)).
Proof.
intros Hf. apply Forall_forall. intros c Hc. apply in_map_iff in Hc.
destruct Hc as [i [<- Hi]]. apply in_seq in Hi. apply Hf. exact Hi.
Qed.

Lemma changearraysize_length (sizein sizeout : nat) (a : list T) :
  length a = sizein -> sizein <= sizeout ->
  length (changearraysize sizein sizeout a) = sizeout.
Proof.
intros Ha Hle. unfold changearraysize.
destruct (sizeout =? sizein) eqn:E.
- apply Nat.eqb_eq in E. lia.
- rewrite length_map, length_seq. reflexivity.
Qed.

Lemma add_length (sizea sizeb : nat) (a b : list T) :
  length (add sizea sizeb a b) = Nat.max sizea sizeb.
Proof.
unfold add. rewrite length_map, length_seq. reflexivity.
Qed.

Lemma dx_array_length (o n : nat) (c : list T) :
  length (dx_array o n c) = orderdx o n + 1.
Proof.
unfold dx_array. destruct (n <? o + 1).
- rewrite (fold_set_length (fun _ i => i - n)
                           (fun _ i => (cast (faculty i n) * get c i)%s)).
  unfold make_array. apply repeat_length.
- unfold make_array. apply repeat_length.
Qed.

Variables this a : myspline T.
Hypothesis Hthis : arrays_sized (order this + 1) (_coefficients this).
Hypothesis Ha : arrays_sized (order a + 1) (_coefficients a).

Lemma plus_coefficients_sized (nintervals : list T) :
  arrays_sized (Nat.max (order this) (order a) + 1)
               (plus_coefficients this a nintervals).
Proof.
unfold plus_coefficients. apply sized_map_seq. intros i _. cbv zeta.
destruct (find_index (_intervals this) (get nintervals i)
          <? length (_coefficients this)) eqn:Ethis;
  destruct (find_index (_intervals a) (get nintervals i)
            <? length (_coefficients a)) eqn:Eaa; cbn [andb negb];
  try apply Nat.ltb_lt in Ethis; try apply Nat.ltb_lt in Eaa.
- rewrite add_length. lia.
- destruct (Nat.max (order this) (order a) + 1 =? order this + 1) eqn:E.
  + apply Nat.eqb_eq in E. rewrite E. apply sized_entry; assumption.
  + apply changearraysize_length; [apply sized_entry; assumption | lia].
- destruct (Nat.max (order this) (order a) + 1 =? order a + 1) eqn:E.
  + apply Nat.eqb_eq in E. rewrite E. apply sized_entry; assumption.
  + apply changearraysize_length; [apply sized_entry; assumption | lia].
- unfold make_array. apply repeat_length.
Qed.

Lemma plus_assign_coefficients_sized (nintervals : list T) :
  order a <= order this ->
  arrays_sized (order this + 1)
               (plus_assign_coefficients this a nintervals).
Proof.
intros Horder. unfold plus_assign_coefficients, ARRAY_SIZE.
apply sized_map_seq. intros i _. cbv zeta.
destruct (find_index (_intervals this) (get nintervals i)
          <? length (_coefficients this)) eqn:Ethis;
  destruct (find_index (_intervals a) (get nintervals i)
            <? length (_coefficients a)) eqn:Eaa; cbn [andb negb];
  try apply Nat.ltb_lt in Ethis; try apply Nat.ltb_lt in Eaa.
- rewrite add_length. lia.
- apply sized_entry; assumption.
- apply changearraysize_length; [apply sized_entry; assumption | lia].
- unfold make_array. apply repeat_length.
Qed.

Lemma timesx_coefficients_sized (r : myspline T) :
  timesx this = Ok r -> arrays_sized (order r + 1) (_coefficients r).
Proof.
intros E. unfold timesx in E. apply construct_Ok_inv in E.
destruct E as [-> _]. cbn [order _coefficients].
apply sized_map_seq. intros i _.
destruct (i + 1 <? length (_intervals this)).
- unfold timesx_array. rewrite length_map, length_seq. reflexivity.
- unfold make_array, ARRAY_SIZE. apply repeat_length.
Qed.

Lemma dx_coefficients_sized (n : nat) (r : myspline T) :
  dx n this = Ok r -> arrays_sized (order r + 1) (_coefficients r).
Proof.
intros E. unfold dx in E. destruct (order this <? n).
- injection E as <-. constructor.
- apply construct_Ok_inv in E. destruct E as [-> _].
  cbn [order _coefficients]. apply Forall_forall. intros c Hc.
  apply in_map_iff in Hc. destruct Hc as [c0 [<- _]].
  apply dx_array_length.
Qed.

Lemma times_coefficients_sized (r : myspline T) :
  times this a = Ok r -> arrays_sized (order r + 1) (_coefficients r).
Proof.
intros E. unfold times in E.
destruct (findOverlappingIntervals this a) as [[[i1 i2] n] | e];
  [| discriminate].
cbn [bind] in E. destruct (n =? 0).
- injection E as <-. constructor.
- apply construct_Ok_inv in E. destruct E as [-> _].
  cbn [order _coefficients]. apply sized_map_seq. intros i _.
  apply convolve_length.
Qed.

Lemma invert_coefficients_sized (r : myspline T) :
  invert this = Ok r -> arrays_sized (order r + 1) (_coefficients r).
Proof.
intros E. unfold invert in E. destruct (isZero this).
- injection E as <-. exact Hthis.
- destruct (1 <=? length (_intervals this)); [| discriminate].
  cbn [assert bind] in E. apply construct_Ok_inv in E. destruct E as [-> _].
  cbn [order _coefficients]. apply Forall_forall. intros c Hc.
  apply in_map_iff in Hc. destruct Hc as [c0 [<- _]].
  rewrite length_map, length_seq. reflexivity.
Qed.

Lemma restrictSupport_coefficients_sized (x0 x1 : T) (r : myspline T) :
  invariant this ->
  restrictSupport this x0 x1 = Ok r ->
  arrays_sized (order r + 1) (_coefficients r).
Proof.
intros Hinv E. unfold restrictSupport in E.
destruct (fold_left (restrictSupport_step this x0 x1)
                    (seq 0 (length (_intervals this) - 1)) ([], []))
  as [nintervals ncoeffs] eqn:Efold.
apply construct_Ok_inv in E. destruct E as [-> _].
cbn [order _coefficients].
destruct (Nat.eq_dec (length (_intervals this)) 0) as [Hnil | Hne].
- rewrite Hnil in Efold. simpl in Efold. injection Efold as <- <-.
  constructor.
- destruct (restrictSupport_loop this x0 x1 Hinv
              (length (_intervals this) - 1) nintervals ncoeffs
              ltac:(lia) Efold) as [lo [cnt [-> Hcases]]].
  pose proof (coefficient_count this Hinv) as Hcount.
  destruct Hcases as [[-> _] | [Hcnt [Hle _]]]; [constructor |].
  apply sized_map_seq. intros i Hi. apply sized_entry; [exact Hthis | lia].
Qed.
End ArraySizes.

Section ArraySizesTheorem.
Context {T : Type} `{Scalar T} {TO : ScalarOrder T}.

(** X20. The operations keep the static size of the arrays: on splines
    whose coefficient arrays have [order + 1] entries, whatever a sum, a
    difference, an in-place sum with a spline of lower or equal order, a
    product, [timesx], a derivative, [invert] and [restrictSupport] return
    has arrays of as many entries as its own order plus one; scaling keeps
    the arrays as long as they are. *)
Theorem operations_keep_array_sizes :
  forall this a : myspline T,
    invariant this ->
    arrays_sized (order this + 1) (_coefficients this) ->
    arrays_sized (order a + 1) (_coefficients a) ->
    (forall d : T,
        arrays_sized (order this + 1) (_coefficients (times_scalar this d)))
    /\ (forall r, plus this a = Ok r ->
                  order r = Nat.max (order this) (order a)
                  /\ arrays_sized (order r + 1) (_coefficients r))
    /\ (forall r, minus this a = Ok r ->
                  order r = Nat.max (order this) (order a)
                  /\ arrays_sized (order r + 1) (_coefficients r))
    /\ (order a <= order this ->
        forall r, plus_assign this a = Ok r ->
                  order r = order this
                  /\ arrays_sized (order r + 1) (_coefficients r))
    /\ (forall r, times this a = Ok r ->
                  arrays_sized (order r + 1) (_coefficients r))
    /\ (forall r, timesx this = Ok r ->
                  arrays_sized (order r + 1) (_coefficients r))
    /\ (forall n r, dx n this = Ok r ->
                    arrays_sized (order r + 1) (_coefficients r))
    /\ (forall r, invert this = Ok r ->
                  arrays_sized (order r + 1) (_coefficients r))
    /\ (forall x0 x1 r, restrictSupport this x0 x1 = Ok r ->
                        arrays_sized (order r + 1) (_coefficients r)).
Proof.
intros this a Hinv Hthis Ha.
assert (Hscaled : forall (s : myspline T) (d : T),
           arrays_sized (order s + 1) (_coefficients s) ->
           arrays_sized (order s + 1) (_coefficients (times_scalar s d))).
{ intros s d Hs. cbn [times_scalar _coefficients].
  apply Forall_forall. intros c Hc. apply in_map_iff in Hc.
  destruct Hc as [c0 [<- Hc0]]. rewrite length_map.
  unfold arrays_sized in Hs. rewrite Forall_forall in Hs. apply Hs, Hc0. }
assert (Hbuilt : forall o ints cs (r : myspline T),
           construct o ints cs = Ok r ->
           order r = o /\ _coefficients r = cs).
{ intros o ints cs r E. apply construct_Ok_inv in E. destruct E as [-> _].
  split; reflexivity. }
split; [intros d; apply Hscaled, Hthis |].
split.
{ intros r E. destruct (Hbuilt _ _ _ _ E) as [Ho Hcs].
  split; [exact Ho |]. rewrite Ho, Hcs.
  apply plus_coefficients_sized; assumption. }
split.
{ intros r E. destruct (Hbuilt _ _ _ _ E) as [Ho Hcs].
  split; [exact Ho |]. rewrite Ho, Hcs.
  apply (plus_coefficients_sized this (scalar_times (cast (-1)) a) Hthis).
  apply (Hscaled a (cast (-1)) Ha). }
split.
{ intros Horder r E. destruct (Hbuilt _ _ _ _ E) as [Ho Hcs].
  split; [exact Ho |]. rewrite Ho, Hcs.
  apply plus_assign_coefficients_sized; assumption. }
split; [apply times_coefficients_sized |].
split; [apply timesx_coefficients_sized |].
split; [apply dx_coefficients_sized |].
split; [apply invert_coefficients_sized; exact Hthis |].
intros x0 x1 r. apply restrictSupport_coefficients_sized; assumption.
Qed.
End ArraySizesTheorem.

Lemma operations_keep_array_sizes_witness :
  exists r, timesx spline_0_2_4 = Ok r
            /\ arrays_sized (order r + 1) (_coefficients r).
Proof.
destruct (timesx_succeeds (TO := Z_ScalarOrder) spline_0_2_4
            invariant_spline_0_2_4) as [r [Hr _]].
exists r. split; [exact Hr |].
destruct (operations_keep_array_sizes
            (TO := Z_ScalarOrder) spline_0_2_4 spline_2_4_6
            invariant_spline_0_2_4 arrays_sized_spline_0_2_4
            ltac:(repeat constructor))
  as (_ & _ & _ & _ & _ & Htimesx & _).
apply Htimesx. exact Hr.
Defined.

(** ** Scaling and the transformations *)

Section ScalingCommutes.
Context {T : Type} `{Scalar T} {TO : ScalarOrder T} {TC : ScalarCommRing T}.

Add Ring scalar_ring_scaling : scalar_ring.

Lemma get_of_scaled (l : list T) (d : T) (j : nat) :
  get (map (fun c => (c * d)%s) l) j = (get l j * d)%s.
Proof.
unfold get. revert j. induction l as [| c l IH]; intros [| j]; simpl;
  try reflexivity; try ring.
apply IH.
Qed.

Lemma timesx_array_scaled (o : nat) (xm d : T) (c : list T) :
  timesx_array o xm (map (fun c => (c * d)%s) c)
  = map (fun c => (c * d)%s) (timesx_array o xm c).
Proof.
unfold timesx_array. rewrite map_map. apply map_ext. intros j. cbv zeta.
rewrite !get_of_scaled. destruct (0 <? j), (j <? o + 1); ring.
Qed.

(** X21. Scaling commutes with [timesx] and with every derivative: the
    transformation of the scaled spline is the scaled transformation of the
    spline. *)
Theorem scaling_commutes_with_timesx_and_dx :
  forall (this : myspline T) (d : T),
    invariant this ->
    (exists r, timesx this = Ok r
               /\ timesx (times_scalar this d) = Ok (times_scalar r d))
    /\ (forall n : nat,
           exists r, dx n this = Ok r
                     /\ dx n (times_scalar this d) = Ok (times_scalar r d)).
Proof.
intros this d Hinv. pose proof Hinv as [Hinc Hsizes]. split.
- destruct (timesx_succeeds this Hinv) as [r [Hr _]].
  exists r. split; [exact Hr |].
  unfold timesx in Hr. apply construct_Ok_inv in Hr. destruct Hr as [-> _].
  unfold timesx. cbn [times_scalar order _intervals _coefficients].
  rewrite construct_Ok.
  + f_equal. unfold times_scalar at 2. cbn [order _intervals _coefficients].
    f_equal. rewrite length_map, map_map. apply map_ext. intros i.
    destruct (i + 1 <? length (_intervals this)).
    * rewrite coeffs_at_scaled. apply timesx_array_scaled.
    * unfold make_array, ARRAY_SIZE. cbn [times_scalar order].
      induction (order this + 1 + 1) as [| m IH]; simpl; [reflexivity |].
      rewrite <- IH. f_equal. ring.
  + exact Hinc.
  + destruct Hsizes as [[Hnil Hcs] | Hsizes]; [left | right].
    * rewrite Hcs. split; [exact Hnil | reflexivity].
    * rewrite !length_map, length_seq. exact Hsizes.
- intros n.
  destruct (dx_shifts_and_scales n this Hinv) as [Hhigh Hlow].
  destruct (dx_shifts_and_scales n (times_scalar this d)
              (times_scalar_invariant this d Hinv)) as [Hhigh' Hlow'].
  cbn [times_scalar order _intervals _coefficients] in Hhigh', Hlow'.
  destruct (Nat.lt_ge_cases (order this) n) as [Hn | Hn].
  + exists (default 0). split; [apply Hhigh; exact Hn |].
    rewrite Hhigh' by exact Hn. reflexivity.
  + eexists. split; [apply Hlow; exact Hn |].
    rewrite Hlow' by exact Hn.
    unfold times_scalar at 1. cbn [order _intervals _coefficients].
    f_equal. f_equal. rewrite !map_map. apply map_ext. intros c.
    rewrite map_map. apply map_ext. intros j.
    rewrite get_of_scaled. ring.
Qed.
End ScalingCommutes.

Lemma scaling_commutes_with_timesx_and_dx_witness :
  exists r, timesx spline_0_2_4 = Ok r
            /\ timesx (times_scalar spline_0_2_4 3%Z)
               = Ok (times_scalar r 3%Z).
Proof.
exact (proj1 (scaling_commutes_with_timesx_and_dx
                (TO := Z_ScalarOrder) (TC := Z_ScalarCommRing)
                spline_0_2_4 3%Z invariant_spline_0_2_4)).
Defined.

(** ** Sums and products of splines with the same break points *)

Section SameBreakPoints.
Context {T : Type} `{Scalar T} {TO : ScalarOrder T} {TC : ScalarCommRing T}.

Add Ring scalar_ring_same_breaks : scalar_ring.

Variables this a : myspline T.
Hypothesis Hthis : invariant this.
Hypothesis Ha : invariant a.
Hypothesis Hsame : _intervals a = _intervals this.
Hypothesis Hsized_this : arrays_sized (order this + 1) (_coefficients this).
Hypothesis Hsized_a : arrays_sized (order a + 1) (_coefficients a).

Lemma same_breaks_same_count :
  length (_coefficients a) = length (_coefficients this).
Proof.
rewrite <- (coefficient_count this Hthis), <- (coefficient_count a Ha), Hsame.
reflexivity.
Qed.

Lemma same_breaks_merged : merged_intervals this a = _intervals this.
Proof.
unfold merged_intervals. rewrite Hsame. apply makeuniquesorted_is.
- exact (proj1 Hthis).
- intros x. rewrite in_app_iff. tauto.
Qed.

Lemma same_breaks_plus :
  plus this a
  = Ok {| order := Nat.max (order this) (order a);
          _intervals := _intervals this;
          _coefficients :=
            map (fun i => add (order a + 1) (order this + 1)
                              (coeffs_at (_coefficients a) i)
                              (coeffs_at (_coefficients this) i))
                (seq 0 (length (_coefficients this))) |}.
Proof.
destruct (plus_succeeds this a Hthis Ha) as [r [Hr _]]. rewrite Hr.
unfold plus in Hr. apply construct_Ok_inv in Hr. destruct Hr as [-> _].
rewrite same_breaks_merged. f_equal. f_equal.
unfold plus_coefficients. rewrite (coefficient_count this Hthis).
apply map_ext_in. intros i Hi. apply in_seq in Hi. cbv zeta.
pose proof (coefficient_count this Hthis) as Hcount.
rewrite Hsame.
rewrite (find_index_of_element (_intervals this) (proj1 Hthis) i) by lia.
rewrite same_breaks_same_count.
destruct (i <? length (_coefficients this)) eqn:E;
  [reflexivity | apply Nat.ltb_ge in E; lia].
Qed.

Lemma first_point_found (l : list T) :
  l <> [] -> find_index l (front l) = 0.
Proof.
destruct l as [| x l]; [contradiction |]. intros _. simpl.
rewrite (proj2 (s_eq_spec x x) eq_refl). reflexivity.
Qed.

Lemma same_breaks_overlap :
  _intervals this <> [] ->
  findOverlappingIntervals this a
  = Ok (0, 0, length (_intervals this) - 1).
Proof.
intros Hne. pose proof (nonempty_has_two_points this Hthis Hne) as Htwo.
assert (Hlt : (front (_intervals this) <? back (_intervals this))%s = true).
{ rewrite front_is_first_element, back_is_last_element.
  apply strictly_increasing_lt; [exact (proj1 Hthis) | lia | lia]. }
assert (Hover : checkOverlap this a = true).
{ unfold checkOverlap. rewrite Hsame.
  destruct (_intervals this) as [| x l] eqn:El; [contradiction |].
  unfold s_ge. rewrite orb_diag, s_le_lt, Hlt. reflexivity. }
unfold findOverlappingIntervals. rewrite Hover, Hsame. cbn [negb].
rewrite s_le_lt, s_lt_irrefl. cbn [negb].
rewrite first_point_found by exact Hne.
destruct (0 + 2 <=? length (_intervals this)) eqn:E;
  [| apply Nat.leb_gt in E; lia].
cbn [assert bind]. rewrite Nat.min_id. f_equal. f_equal. lia.
Qed.

Lemma all_points_again (l : list T) :
  l <> [] ->
  get l 0 :: map (fun i => get l (0 + i + 1)) (seq 0 (length l - 1)) = l.
Proof.
destruct l as [| x l]; [contradiction |]. intros _.
cbn [length]. rewrite Nat.sub_succ, Nat.sub_0_r.
unfold get at 1. cbn [nth]. f_equal.
rewrite <- (get_all l) at 2. apply map_ext. intros i.
cbn [Nat.add]. rewrite Nat.add_1_r. reflexivity.
Qed.

Lemma same_breaks_times :
  _intervals this <> [] ->
  times this a
  = Ok {| order := order this + order a;
          _intervals := _intervals this;
          _coefficients :=
            map (fun i => convolve (order this) (order a)
                                   (coeffs_at (_coefficients this) (i + 0))
                                   (coeffs_at (_coefficients a) (i + 0)))
                (seq 0 (length (_coefficients this))) |}.
Proof.
intros Hne. pose proof (nonempty_has_two_points this Hthis Hne) as Htwo.
rewrite (times_with_overlap this a 0 0 (length (_intervals this) - 1)
           Hthis (same_breaks_overlap Hne)) by lia.
rewrite all_points_again by exact Hne.
rewrite (coefficient_count this Hthis). reflexivity.
Qed.
End SameBreakPoints.

Section SameBreakPointsTheorem.
Context {T : Type} `{Scalar T} {TO : ScalarOrder T} {TC : ScalarCommRing T}.

Add Ring scalar_ring_same_breaks_theorem : scalar_ring.

(** X22. Over a commutative ring of scalars (exact arithmetic, no
    rounding), for two splines with the same break points the sum and the
    product are formed on those break points, and at every point the sum
    evaluates to the sum of the two values and the product to their
    product. *)
Theorem same_break_points_add_and_multiply_values :
  forall this a : myspline T,
    invariant this -> invariant a ->
    _intervals a = _intervals this ->
    arrays_sized (order this + 1) (_coefficients this) ->
    arrays_sized (order a + 1) (_coefficients a) ->
    (exists r, plus this a = Ok r
               /\ forall x : T, eval r x = (eval this x + eval a x)%s)
    /\ (exists r, times this a = Ok r
                  /\ forall x : T, eval r x = (eval this x * eval a x)%s).
Proof.
intros this a Hthis Ha Hsame Hsized_this Hsized_a.
pose proof (same_breaks_same_count this a Hthis Ha Hsame) as Hcount.
assert (Hfind : forall x, findInterval a x = findInterval this x)
  by (intros x; apply findInterval_same_intervals; exact Hsame).
split.
- eexists. split; [apply same_breaks_plus; assumption |].
  intros x. unfold eval. cbn [_intervals _coefficients].
  rewrite (findInterval_same_intervals
             this {| order := Nat.max (order this) (order a);
                     _intervals := _intervals this;
                     _coefficients := _ |} x eq_refl).
  rewrite Hfind, Hsame.
  destruct (findInterval_in_bounds this x Hthis) as [Hout | [Hr [Hc Hi]]].
  + rewrite Hout. simpl. ring.
  + destruct (findInterval this x <? 0)%Z eqn:Eneg;
      [apply Z.ltb_lt in Eneg; lia |].
    unfold coeffs_at at 1.
    rewrite (nth_map_seq
               (fun i => add (order a + 1) (order this + 1)
                             (coeffs_at (_coefficients a) i)
                             (coeffs_at (_coefficients this) i)))
      by exact Hc.
    rewrite !polynomial_is_horner.
    rewrite <- (sized_entry (order a + 1) (_coefficients a)
                  (Z.to_nat (findInterval this x)) Hsized_a) at 1
      by (rewrite Hcount; exact Hc).
    rewrite <- (sized_entry (order this + 1) (_coefficients this)
                  (Z.to_nat (findInterval this x)) Hsized_this) at 1
      by exact Hc.
    rewrite add_value. ring.
- destruct (_intervals this) as [| p l] eqn:Eints.
  + exists (default (order this + order a)). split.
    * unfold times, findOverlappingIntervals, checkOverlap.
      rewrite Eints. reflexivity.
    * intros x. unfold eval, findInterval. rewrite Hsame, Eints.
      simpl. ring.
  + assert (Hne : _intervals this <> []) by (rewrite Eints; discriminate).
    rewrite <- Eints in *. clear Eints.
    eexists. split; [apply same_breaks_times; assumption |].
    intros x. unfold eval. cbn [_intervals _coefficients].
    rewrite (findInterval_same_intervals
               this {| order := order this + order a;
                       _intervals := _intervals this;
                       _coefficients := _ |} x eq_refl).
    rewrite Hfind, Hsame.
    destruct (findInterval_in_bounds this x Hthis) as [Hout | [Hr [Hc Hi]]].
    * rewrite Hout. simpl. ring.
    * destruct (findInterval this x <? 0)%Z eqn:Eneg;
        [apply Z.ltb_lt in Eneg; lia |].
      unfold coeffs_at at 1.
      rewrite (nth_map_seq
                 (fun i => convolve (order this) (order a)
                                    (coeffs_at (_coefficients this) (i + 0))
                                    (coeffs_at (_coefficients a) (i + 0))))
        by exact Hc.
      rewrite Nat.add_0_r, !polynomial_is_horner.
      apply convolve_value.
      -- apply sized_entry; [exact Hsized_this | exact Hc].
      -- apply sized_entry; [exact Hsized_a | rewrite Hcount; exact Hc].
Qed.
End SameBreakPointsTheorem.

Lemma same_break_points_add_and_multiply_values_witness :
  (exists r, plus spline_0_2_4 spline_0_2_4 = Ok r
             /\ forall x : Z,
                  eval r x = (eval spline_0_2_4 x + eval spline_0_2_4 x)%Z)
  /\ (exists r, times spline_0_2_4 spline_0_2_4 = Ok r
                /\ forall x : Z,
                     eval r x = (eval spline_0_2_4 x * eval spline_0_2_4 x)%Z).
Proof.
exact (same_break_points_add_and_multiply_values
         (TO := Z_ScalarOrder) (TC := Z_ScalarCommRing)
         spline_0_2_4 spline_0_2_4
         invariant_spline_0_2_4 invariant_spline_0_2_4 eq_refl
         arrays_sized_spline_0_2_4 arrays_sized_spline_0_2_4).
Defined.

(** ** The B-spline of order zero *)

Section OrderZero.
Context {T : Type} `{Scalar T} {TO : ScalarOrder T} {TC : ScalarCommRing T}.

Add Ring scalar_ring_order_zero : scalar_ring.

(** X23. Where a knot is below its successor, [generateBspline<T, 1>]
    returns the indicator of the closed interval between the two: its value
    is one from the first knot to the second, both ends included, and zero
    elsewhere. *)
Theorem generateBspline_order_zero_is_an_indicator :
  forall (knots : list T) (i : nat),
    i + 1 < length knots ->
    (get knots i <? get knots (i + 1))%s = true ->
    exists r, generateBspline 0 knots i = Ok r
              /\ forall x : T,
                   eval r x
                   = if (x <? get knots i)%s || (get knots (i + 1) <? x)%s
                     then cast 0 else cast 1.
Proof.
intros knots i Hi Hlt. cbn [generateBspline]. unfold get in *.
rewrite (at_in_range knots i (cast 0)) by lia. cbn [bind].
rewrite (at_in_range knots (i + 1) (cast 0)) by lia. cbn [bind].
assert (Hgt : (nth (i + 1) knots (cast 0) >? nth i knots (cast 0))%s = true)
  by exact Hlt.
rewrite Hgt. cbn [assert bind].
rewrite construct_Ok.
- eexists. split; [reflexivity |]. intros x.
  unfold eval, findInterval. cbn [_intervals _coefficients length back last
                                    front hd Nat.ltb Nat.leb orb].
  unfold s_gt.
  destruct (nth (i + 1) knots (cast 0) <? x)%s; cbn [orb].
  + rewrite orb_true_r. reflexivity.
  + rewrite orb_false_r. destruct (x <? nth i knots (cast 0))%s;
      [reflexivity |].
    simpl. rewrite polynomial_is_horner. unfold coeffs_at. simpl. ring.
- intros [| idx] Hidx; simpl in Hidx; [exact Hlt | lia].
- right. simpl. lia.
Qed.
End OrderZero.

Lemma generateBspline_order_zero_is_an_indicator_witness :
  exists r, generateBspline 0 grid_points_0_to_6 1 = Ok r
            /\ forall x : Z,
                 eval r x = if (x <? 2)%Z || (4 <? x)%Z then 0%Z else 1%Z.
Proof.
exact (generateBspline_order_zero_is_an_indicator
         (TO := Z_ScalarOrder) (TC := Z_ScalarCommRing)
         grid_points_0_to_6 1 ltac:(simpl; lia) eq_refl).
Defined.

(** ** Converting to another scalar type and back *)

Section ConvertBack.
Context {TI : Type} `{Scalar TI} {TOI : ScalarOrder TI}.
Context {TO : Type} `{Scalar TO} {TOO : ScalarOrder TO}.

(** X24. Converting a spline to a second scalar type and back with casts
    that keep the order strict and undo each other returns the spline:
    nothing of the break points or of the [order + 1] coefficients of an
    interval is lost on the way. *)
Theorem convert_there_and_back :
  forall (there : TI -> TO) (back_again : TO -> TI) (si : myspline TI),
    invariant si ->
    arrays_sized (order si + 1) (_coefficients si) ->
    (forall x y : TI, (x <? y)%s = true -> (there x <? there y)%s = true) ->
    (forall x : TI, back_again (there x) = x) ->
    exists r, convert there si = Ok r /\ convert back_again r = Ok si.
Proof.
intros there back_again si Hinv Hsized Hmono Hundo.
destruct (convert_succeeds there si Hinv Hmono) as [r [Hr _]].
exists r. split; [exact Hr |].
unfold convert in Hr. apply construct_Ok_inv in Hr. destruct Hr as [-> _].
unfold convert. cbn [order _intervals _coefficients].
rewrite !map_map.
rewrite (map_ext (fun x => back_again (there x)) (fun x => x)) by exact Hundo.
rewrite map_id.
rewrite (map_ext_in _ (fun c : list TI => c)).
- rewrite map_id. rewrite construct_Ok;
    [rewrite spline_eta; reflexivity | exact (proj1 Hinv) | exact (proj2 Hinv)].
- intros c Hc.
  unfold arrays_sized in Hsized. rewrite Forall_forall in Hsized.
  rewrite <- (Hsized c Hc).
  transitivity (map (get c) (seq 0 (length c))); [| apply get_all].
  apply map_ext_in. intros j Hj.
  apply in_seq in Hj. unfold get at 1.
  rewrite (nth_map_seq (fun j => there (get c j))) by lia.
  apply Hundo.
Qed.
End ConvertBack.

Lemma convert_there_and_back_witness :
  exists r, convert Z.succ spline_0_2_4 = Ok r
            /\ convert Z.pred r = Ok spline_0_2_4.
Proof.
exact (convert_there_and_back
         (TOI := Z_ScalarOrder) (TOO := Z_ScalarOrder)
         Z.succ Z.pred spline_0_2_4
         invariant_spline_0_2_4 arrays_sized_spline_0_2_4
         ltac:(intros x y Hxy; apply Z.ltb_lt in Hxy; apply Z.ltb_lt; lia)
         Z.pred_succ).
Defined.
